(** * The order-created webhook: idempotent loyalty-points award

    A shallow embedding of the webhook route of the loyalty extension
    (the [action] of the orders/create webhook route) together with the
    parts of the JavaScript runtime and of the relational store that the
    route relies on:

    - [Js]      : Numbers (IEEE 754 binary64), [parseFloat], [Math.floor],
                  Number::toString, ToString, ToBoolean and property access
                  on parsed JSON values;
    - [Db]      : the two tables the route touches and the five statements
                  it issues against them;
    - [Prog]    : asynchronous function bodies as programs over those
                  statements, with [try]/[catch];
    - [Webhook] : the route;
    - [Run]     : running a program in an arbitrary environment, against
                  the store with injected faults, and interleaved with a
                  second program;
    - [Event]   : the fields of an order as the route reads them;

    and of the admin routes of the extension:

    - [Lang]      : [parseInt], [isNaN], [Math.max] and strict equality;
    - [Loyalty]   : the [action] of the loyalty manager and the check of
                    its page;
    - [Inventory] : the [action] of the inventory manager, over the
                    Admin API's mutation and the inventory log;
    - [Page]      : the handlers of the inventory page and the variables
                    of its loader;
    - [Debounce]  : [debounce] over timers;
    - [Listing]   : the [loader] of the loyalty manager.

    The properties follow: binary64 arithmetic as far as the routes need
    it, the shape of the webhook route, redelivery, the marker, the commit
    path, the ledger invariant and the treatment of subtotals, and then
    the admin routes in the order above. *)

From Stdlib Require Import ZArith List String Ascii Bool Lia DecimalString.
From Stdlib Require Import Floats.SpecFloat.
Import ListNotations.

Local Open Scope string_scope.
Local Open Scope Z_scope.
Local Set Warnings "-register-all".

(* ================================================================== *)
(** * JavaScript values                                                *)
(* ================================================================== *)

Module Js.

(** ** Numbers

    A JavaScript Number is an IEEE 754 binary64 value.  [spec_float] is the
    Standard Library's specification of such values (without NaN payloads),
    and the operations below are its operations at precision [53] and
    maximal exponent [1024]. *)

Definition number := spec_float.

Definition NaN : number := S754_nan.
Definition Infinity : number := S754_infinity false.
Definition pos_zero : number := S754_zero false.

(** The Number value of an integer (round to nearest, ties to even). *)
Definition of_Z (z : Z) : number := binary_normalize 53 1024 z 0 false.

(** [x / y], [x + y] and [x <= y] on Numbers. *)
Definition div (x y : number) : number := SFdiv 53 1024 x y.
Definition add (x y : number) : number := SFadd 53 1024 x y.
Definition leb (x y : number) : bool := SFleb x y.

(** [Math.floor]: NaN, the infinities and the zeros are returned unchanged;
    a finite [±m·2^e] with [e >= 0] is already an integer; otherwise the
    mantissa is shifted right by [-e] bits, rounding towards minus
    infinity.  [Math.floor(0.5)] is [+0] and [Math.floor(-0.5)] is [-1]. *)
Definition Math_floor (x : number) : number :=
  match x with
  | S754_finite s m e =>
      if 0 <=? e then x
      else
        let d := 2 ^ (- e) in
        let q := Z.pos m / d in
        let r := Z.pos m mod d in
        if r =? 0 then x
        else if s then binary_normalize 53 1024 (- (q + 1)) 0 true
        else binary_normalize 53 1024 q 0 false
  | _ => x
  end.

(** The integer a Number denotes, when it denotes one. *)
Definition to_integer (x : number) : option Z :=
  match x with
  | S754_zero _ => Some 0
  | S754_finite s m e =>
      if 0 <=? e then Some (cond_Zopp s (Z.pos m * 2 ^ e))
      else if Z.pos m mod 2 ^ (- e) =? 0
           then Some (cond_Zopp s (Z.pos m / 2 ^ (- e)))
           else None
  | _ => None
  end.

(** The floor of the value of a Number, as an integer. *)
Definition floor_of (x : number) : option Z :=
  match x with
  | S754_zero _ => Some 0
  | S754_finite s m e =>
      Some (if 0 <=? e then cond_Zopp s (Z.pos m * 2 ^ e)
            else cond_Zopp s (Z.pos m) / 2 ^ (- e))
  | _ => None
  end.

(** The sign of a Number, if it has one. *)
Definition sign_of (x : number) : option bool :=
  match x with
  | S754_nan => None
  | S754_zero s | S754_infinity s | S754_finite s _ _ => Some s
  end.

(** Numbers as the operations produce them: a finite one has a mantissa
    of at most 53 bits. *)
Definition wellformed (x : number) : Prop :=
  match x with
  | S754_finite _ m _ => Z.pos m < 2 ^ 53
  | _ => True
  end.

(** The Number of a rounded mantissa [0 <= mr <= 2^53] at exponent [E]:
    what rounding ends in. *)
Definition pack (s : bool) (mr E : Z) : number :=
  match mr with
  | Z0 => S754_zero s
  | Z.pos m =>
      if mr <? 2 ^ 53
      then (if E <=? 971 then S754_finite s m E else S754_infinity s)
      else (if E + 1 <=? 971 then S754_finite s (2 ^ 52) (E + 1) else S754_infinity s)
  | Z.neg _ => S754_nan
  end.

(** Whether a right shift dropped a nonzero bit. *)
Definition lost (mrs : shr_record) : bool := shr_r mrs || shr_s mrs.

(** ** Strings

    Strings are sequences of code units below 256. *)

Definition code (c : ascii) : Z := Z.of_nat (nat_of_ascii c).

Definition is_digit (c : ascii) : bool := (48 <=? code c) && (code c <=? 57).

(** StrWhiteSpaceChar, restricted to code units below 256: TAB, LF, VT, FF,
    CR, SP and NBSP. *)
Definition is_white (c : ascii) : bool :=
  let n := code c in
  ((9 <=? n) && (n <=? 13)) || (n =? 32) || (n =? 160).

Fixpoint trim_start (s : string) : string :=
  match s with
  | String c r => if is_white c then trim_start r else s
  | EmptyString => s
  end.

(** [read_digits s acc n]: consume the decimal digits at the head of [s],
    appending them to the numeral [acc]; returns the numeral, the count of
    digits read added to [n], and the rest of the string. *)
Fixpoint read_digits (s : string) (acc n : Z) : Z * Z * string :=
  match s with
  | String c r =>
      if is_digit c then read_digits r (10 * acc + (code c - 48)) (n + 1)
      else (acc, n, s)
  | EmptyString => (acc, n, s)
  end.

(** The longest prefix of a string that is a StrDecimalLiteral. *)
Variant literal :=
| LitInfinity (neg : bool)
| LitDecimal (neg : bool) (digits : Z) (exp10 : Z).

Definition read_sign (s : string) : bool * string :=
  match s with
  | String "-" r => (true, r)
  | String "+" r => (false, r)
  | _ => (false, s)
  end.

(** ExponentPart: [e] or [E], an optional sign, and at least one digit;
    when the digits are missing the exponent is not part of the prefix. *)
Definition read_exponent (s : string) : Z :=
  match s with
  | String c r =>
      if ((code c =? 101) || (code c =? 69))%bool then
        let '(neg, r1) := read_sign r in
        let '(v, n, _) := read_digits r1 0 0 in
        if n =? 0 then 0 else cond_Zopp neg v
      else 0
  | EmptyString => 0
  end.

Definition str_decimal_prefix (s : string) : option literal :=
  let '(neg, s1) := read_sign s in
  if String.prefix "Infinity" s1 then Some (LitInfinity neg)
  else
    let '(ip, nip, s2) := read_digits s1 0 0 in
    let '(m, nfp, s3) :=
      match s2 with
      | String "." r => read_digits r ip 0
      | _ => (ip, 0, s2)
      end in
    if ((nip =? 0) && (nfp =? 0))%bool then None
    else Some (LitDecimal neg m (read_exponent s3 - nfp)).

(** The Number value of the decimal [±digits·10^exp10], rounded once to the
    nearest binary64 value. *)
Definition number_of_decimal (neg : bool) (digits exp10 : Z) : number :=
  match digits with
  | Z.pos p =>
      if 0 <=? exp10
      then binary_round 53 1024 neg (p * Z.to_pos (10 ^ exp10)) 0
      else div (S754_finite neg p 0)
               (S754_finite false (Z.to_pos (10 ^ (- exp10))) 0)
  | _ => S754_zero neg
  end.

Definition number_of_literal (l : literal) : number :=
  match l with
  | LitInfinity neg => S754_infinity neg
  | LitDecimal neg digits exp10 => number_of_decimal neg digits exp10
  end.

(** [parseFloat] applied to a string. *)
Definition parseFloat_string (s : string) : number :=
  match str_decimal_prefix (trim_start s) with
  | Some l => number_of_literal l
  | None => NaN
  end.

(** ** Number::toString

    The shortest decimal numeral that reads back as the same Number: the
    least [k] for which some [k]-digit integer [s] and exponent [n] have
    [s·10^(n-k)] round to [x]; among those the one closest to [x].  The
    digits are then laid out in positional or in exponent notation. *)

(** The positive finite [m·2^e] as a fraction. *)
Definition fraction (m : positive) (e : Z) : Z * Z :=
  if 0 <=? e then (Z.pos m * 2 ^ e, 1) else (Z.pos m, 2 ^ (- e)).

(** [below10 nd n]: is the fraction [nd] below [10^n]? *)
Definition below10 (nd : Z * Z) (n : Z) : bool :=
  let '(num, den) := nd in
  if 0 <=? n then num <? 10 ^ n * den else num * 10 ^ (- n) <? den.

(** The least [n], from [n] upwards, with the fraction below [10^n]. *)
Fixpoint magnitude (nd : Z * Z) (n : Z) (fuel : nat) : Z :=
  match fuel with
  | O => n
  | S fuel' => if below10 nd n then n else magnitude nd (n + 1) fuel'
  end.

(** [floor (nd · 10^t)] and whether twice the remainder is below, at or
    above the divisor. *)
Definition scaled (nd : Z * Z) (t : Z) : Z * comparison :=
  let '(num, den) := nd in
  let '(a, b) := if 0 <=? t then (num * 10 ^ t, den) else (num, den * 10 ^ (- t)) in
  (a / b, Z.compare (2 * (a mod b)) b).

Definition same_number (x y : number) : bool :=
  match x, y with
  | S754_finite s1 m1 e1, S754_finite s2 m2 e2 =>
      Bool.eqb s1 s2 && (Z.pos m1 =? Z.pos m2) && (e1 =? e2)
  | _, _ => false
  end.

(** The digits [s] and the exponent [n] of the shortest numeral of the
    positive finite [x], trying [k], [k+1], ... digits. *)
Fixpoint shortest (x : number) (nd : Z * Z) (n0 k : Z) (fuel : nat) : Z * Z :=
  let t := k - n0 in
  let '(lo, half) := scaled nd t in
  let hi := lo + 1 in
  let ok_lo := same_number (number_of_decimal false lo (- t)) x in
  let ok_hi := same_number (number_of_decimal false hi (- t)) x in
  let pick_hi := if hi =? 10 ^ k then (10 ^ (k - 1), n0 + 1) else (hi, n0) in
  match fuel with
  | O => (lo, n0)
  | S fuel' =>
      match ok_lo, ok_hi with
      | true, true =>
          match half with
          | Lt => (lo, n0)
          | Gt => pick_hi
          | Eq => if Z.even lo then (lo, n0) else pick_hi
          end
      | true, false => (lo, n0)
      | false, true => pick_hi
      | false, false => shortest x nd n0 (k + 1) fuel'
      end
  end.

Definition decimal_string (z : Z) : string :=
  DecimalString.NilZero.string_of_uint (N.to_uint (Z.to_N z)).

Fixpoint zeros (n : nat) : string :=
  match n with O => "" | S n' => String "0" (zeros n') end.

(** Drop the trailing zeros of a positive integer (keeping its value times
    a power of ten): the digits of the numeral proper. *)
Fixpoint strip_zeros (z : Z) (fuel : nat) : Z :=
  match fuel with
  | O => z
  | S fuel' => if (z mod 10 =? 0) && (0 <? z) then strip_zeros (z / 10) fuel' else z
  end.

Definition layout (s n : Z) : string :=
  let ds := decimal_string s in
  let k := Z.of_nat (String.length ds) in
  if (k <=? n) && (n <=? 21) then ds ++ zeros (Z.to_nat (n - k))
  else if (0 <? n) && (n <=? 21) then
    substring 0 (Z.to_nat n) ds ++ "." ++ substring (Z.to_nat n) (Z.to_nat (k - n)) ds
  else if (-6 <? n) && (n <=? 0) then "0." ++ zeros (Z.to_nat (- n)) ++ ds
  else
    let e := n - 1 in
    let es := (if e <? 0 then "-" else "+") ++ decimal_string (Z.abs e) in
    if k =? 1 then ds ++ "e" ++ es
    else substring 0 1 ds ++ "." ++ substring 1 (Z.to_nat (k - 1)) ds ++ "e" ++ es.

Definition number_to_string (x : number) : string :=
  match x with
  | S754_nan => "NaN"
  | S754_zero _ => "0"
  | S754_infinity s => if s then "-Infinity" else "Infinity"
  | S754_finite s m e =>
      let nd := fraction m e in
      let n0 := magnitude nd (-330) 700 in
      let '(d, n) := shortest (S754_finite false m e) nd n0 1 20 in
      (if s then "-" else "") ++ layout (strip_zeros d 400) n
  end.

(** ** Values

    The values [JSON.parse] produces, and [undefined], which reading a
    missing property produces.  An object is the list of its own
    properties. *)

Inductive value : Type :=
| Undefined
| Null
| Bool (b : bool)
| Num (x : number)
| Str (s : string)
| Arr (elements : list value)
| Obj (properties : list (string * value)).

(** The string of a value.  An array is the comma-separated join of its
    elements, with [null] and [undefined] elements as the empty string; an
    object that inherits [toString] is ["[object Object]"]. *)
Fixpoint to_string (v : value) : string :=
  match v with
  | Undefined => "undefined"
  | Null => "null"
  | Bool b => if b then "true" else "false"
  | Num x => number_to_string x
  | Str s => s
  | Arr elements =>
      (fix join (l : list value) : string :=
         match l with
         | [] => ""
         | [w] => match w with Undefined | Null => "" | _ => to_string w end
         | w :: r => (match w with Undefined | Null => "" | _ => to_string w end)
                     ++ "," ++ join r
         end) elements
  | Obj _ => "[object Object]"
  end.

(** ToBoolean. *)
Definition truthy (v : value) : bool :=
  match v with
  | Undefined | Null => false
  | Bool b => b
  | Num (S754_zero _) | Num S754_nan => false
  | Num _ => true
  | Str s => negb (s =? "")%string
  | Arr _ | Obj _ => true
  end.

(** [a || b]. *)
Definition or_else (a b : value) : value := if truthy a then a else b.

(** ** Errors

    A thrown [Error] is its [message], which is all the route reads. *)

Record Error : Type := { message : string }.

(** ToString.  An object is converted through its [toString] and
    [valueOf] methods.  A parsed object inherits those of
    [Object.prototype]; an own property of a parsed object is never
    callable, so with an own [toString] neither method yields a primitive
    and the conversion throws a TypeError.  An array converts its
    elements. *)
Definition has_own (properties : list (string * value)) (name : string) : bool :=
  existsb (fun kv => (fst kv =? name)%string) properties.

Fixpoint convertible (v : value) : bool :=
  match v with
  | Arr elements => forallb convertible elements
  | Obj properties => negb (has_own properties "toString")
  | _ => true
  end.

Definition cannot_convert : Error :=
  {| message := "Cannot convert object to primitive value" |}.

Definition ToString (v : value) : Error + string :=
  if convertible v then inr (to_string v) else inl cannot_convert.

(** [parseFloat(v)]: the argument is converted to a string first. *)
Definition parseFloat (v : value) : Error + number :=
  match ToString v with
  | inl e => inl e
  | inr s => inr (parseFloat_string s)
  end.

(** ** Property access *)

Fixpoint own_property (properties : list (string * value)) (name : string) : value :=
  match properties with
  | [] => Undefined
  | (k, v) :: rest => if (k =? name)%string then v else own_property rest name
  end.

(** [v.name], for a [name] that no prototype defines ([customer], [id] and
    [subtotal_price] are such names): reading it off [null] or [undefined]
    throws a TypeError; off an object it is the own property, or
    [undefined]; off anything else it is [undefined]. *)
Definition get (v : value) (name : string) : Error + value :=
  match v with
  | Undefined =>
      inl {| message := "Cannot read properties of undefined (reading '" ++ name ++ "')" |}
  | Null =>
      inl {| message := "Cannot read properties of null (reading '" ++ name ++ "')" |}
  | Obj properties => inr (own_property properties name)
  | _ => inr Undefined
  end.

End Js.

(* ================================================================== *)
(** * The relational store                                             *)
(* ================================================================== *)

Module Db.
Import Js.

(** A row of ["_prisma_migrations"], of which the route reads and writes
    the columns [name] and [applied_steps_count]. *)
Record MigrationRow : Type := {
  name : string;
  applied_steps_count : Z
}.

(** A row of ["LoyaltyPoints"]: [customerId TEXT] under a unique index,
    [points INTEGER], [updatedAt TIMESTAMP].  The [id] column takes its
    default and is never read by the route. *)
Record LoyaltyPoints : Type := {
  customerId : string;
  points : Z;
  updatedAt : Z
}.

(** The database.  The definition of ["_prisma_migrations"] is no part of
    the repository: whether it rejects a second row of the same [name] is
    the flag [unique_name]. *)
Record Store : Type := {
  unique_name : bool;
  migrations : list MigrationRow;
  loyaltyPoints : list LoyaltyPoints
}.

(** The statements the route issues, indexed by what they resolve to. *)
Variant stmt : Type -> Type :=
| SelectMarker (key : string) : stmt (list MigrationRow)
| InsertMarker (key : string) : stmt Z
| FindUnique (customer : value) : stmt (option LoyaltyPoints)
| Update (customer : value) (newPoints : number) (date : Z) : stmt LoyaltyPoints
| Create (customer : value) (newPoints : number) (date : Z) : stmt LoyaltyPoints.

Definition is_ledger_write {X : Type} (q : stmt X) : bool :=
  match q with
  | Update _ _ _ | Create _ _ _ => true
  | _ => false
  end.

Definition has_key (key : string) (r : MigrationRow) : bool := (name r =? key)%string.
Definition is_customer (c : string) (r : LoyaltyPoints) : bool := (customerId r =? c)%string.

(** [SELECT * FROM "_prisma_migrations" WHERE name = key LIMIT 1]. *)
Definition select_marker (st : Store) (key : string) : list MigrationRow :=
  firstn 1 (filter (has_key key) (migrations st)).

Definition find_unique (st : Store) (c : string) : option LoyaltyPoints :=
  find (is_customer c) (loyaltyPoints st).

(** A value for an [INTEGER] column: an integral Number within 32 bits. *)
Definition int32 (x : number) : option Z :=
  match to_integer x with
  | Some z => if (- 2 ^ 31 <=? z) && (z <? 2 ^ 31) then Some z else None
  | None => None
  end.

Definition set_migrations (st : Store) (l : list MigrationRow) : Store :=
  {| unique_name := unique_name st; migrations := l; loyaltyPoints := loyaltyPoints st |}.

Definition set_loyaltyPoints (st : Store) (l : list LoyaltyPoints) : Store :=
  {| unique_name := unique_name st; migrations := migrations st; loyaltyPoints := l |}.

(** The errors the store rejects with.  The messages stand for those of
    the client library, which the route passes on as they are. *)
Definition unique_violation : Error :=
  {| message := "Unique constraint failed" |}.
Definition invalid_argument : Error :=
  {| message := "Invalid value provided" |}.
Definition not_found : Error :=
  {| message := "Record to update not found" |}.

(** One statement against the store: what it resolves to, or the error it
    rejects with, and the store afterwards.  A rejected statement leaves
    the store as it was.

    - the [INSERT] appends a row with [applied_steps_count = 1]; under
      [unique_name] it is rejected when a row of that [name] exists;
    - [customerId] is a [String] column and [points] an [Int] column: any
      other argument is rejected before the tables are touched;
    - [update] rewrites [points] and [updatedAt] of the customer's row and
      is rejected when there is none; [create] appends a row and is
      rejected by the unique index when the customer has one. *)
Definition exec {X : Type} (q : stmt X) (st : Store) : (Error + X) * Store :=
  match q in stmt T return (Error + T) * Store with
  | SelectMarker key => (inr (select_marker st key), st)
  | InsertMarker key =>
      if unique_name st && existsb (has_key key) (migrations st)
      then (inl unique_violation, st)
      else (inr 1,
            set_migrations st
              (migrations st ++ [{| name := key; applied_steps_count := 1 |}]))
  | FindUnique customer =>
      match customer with
      | Str c => (inr (find_unique st c), st)
      | _ => (inl invalid_argument, st)
      end
  | Update customer newPoints date =>
      match customer, int32 newPoints with
      | Str c, Some z =>
          match find_unique st c with
          | Some _ =>
              let row := {| customerId := c; points := z; updatedAt := date |} in
              (inr row,
               set_loyaltyPoints st
                 (map (fun r => if is_customer c r then row else r) (loyaltyPoints st)))
          | None => (inl not_found, st)
          end
      | _, _ => (inl invalid_argument, st)
      end
  | Create customer newPoints date =>
      match customer, int32 newPoints with
      | Str c, Some z =>
          match find_unique st c with
          | Some _ => (inl unique_violation, st)
          | None =>
              let row := {| customerId := c; points := z; updatedAt := date |} in
              (inr row, set_loyaltyPoints st (loyaltyPoints st ++ [row]))
          end
      | _, _ => (inl invalid_argument, st)
      end
  end.

End Db.

(* ================================================================== *)
(** * Programs over the store                                          *)
(* ================================================================== *)

Module Prog.
Import Js Db.

(** An asynchronous function body: it returns, throws, awaits a statement
    (which resolves to a result or rejects with an error) or reads the
    clock. *)
Inductive prog (R : Type) : Type :=
| Ret (r : R)
| Throw (e : Error)
| Await {X : Type} (q : stmt X) (k : Error + X -> prog R)
| NewDate (k : Z -> prog R).

Arguments Ret {R} r.
Arguments Throw {R} e.
Arguments Await {R X} q k.
Arguments NewDate {R} k.

Fixpoint bind {A B : Type} (p : prog A) (f : A -> prog B) : prog B :=
  match p with
  | Ret a => f a
  | Throw e => Throw e
  | Await q k => Await q (fun r => bind (k r) f)
  | NewDate k => NewDate (fun t => bind (k t) f)
  end.

(** [try { p } catch (error) { h error }]. *)
Fixpoint try_catch {R : Type} (p : prog R) (h : Error -> prog R) : prog R :=
  match p with
  | Ret r => Ret r
  | Throw e => h e
  | Await q k => Await q (fun r => try_catch (k r) h)
  | NewDate k => NewDate (fun t => try_catch (k t) h)
  end.

(** [await q]: a rejection is thrown at the point of the [await]. *)
Definition await {X : Type} (q : stmt X) : prog X :=
  Await q (fun r => match r with inl e => Throw e | inr x => Ret x end).

(** An expression that may throw. *)
Definition eval {A : Type} (r : Error + A) : prog A :=
  match r with inl e => Throw e | inr a => Ret a end.

Definition new_Date : prog Z := NewDate (fun t => Ret t).

Module Notations.
Notation "x <- p ;; q" := (bind p (fun x => q))
  (at level 61, p at next level, right associativity).
Notation "p ;;; q" := (bind p (fun _ => q))
  (at level 61, right associativity).
End Notations.

End Prog.

(* ================================================================== *)
(** * The webhook route                                                *)
(* ================================================================== *)

Module Webhook.
Import Js Db Prog Prog.Notations.

Record Response : Type := {
  status : Z;
  body : string
}.

(** The marker's name, [`order_${orderId}_processed`], from the string of
    the order's id. *)
Definition event_key (orderId : string) : string :=
  "order_" ++ orderId ++ "_processed".

(** [Math.floor(subtotal / 10)]. *)
Definition points_for (subtotal : number) : number :=
  Math_floor (div subtotal (of_Z 10)).

Definition unsupported_topic (topic : string) : Response :=
  {| status := 400; body := "Webhook topic " ++ topic ++ " not supported" |}.
Definition no_customer : Response :=
  {| status := 200; body := "No customer associated with this order" |}.
Definition no_points : Response :=
  {| status := 200; body := "No points earned (subtotal too low)" |}.
Definition already_processed : Response :=
  {| status := 200; body := "Order already processed" |}.
Definition added (awarded : number) (customerId : string) : Response :=
  {| status := 200;
     body := "Added " ++ number_to_string awarded ++ " points to customer "
             ++ customerId |}.
Definition failed (error : Error) : Response :=
  {| status := 500; body := "Error processing webhook: " ++ message error |}.

(** The [try] block from the duplicate check on: the marker query, the
    marker insert and the ledger upsert.  Each template literal converts
    what it interpolates to a string. *)
Definition award (customerId orderId : value) (awarded : number) : prog Response :=
  id <- eval (ToString orderId) ;;
  existingOrder <- await (SelectMarker (event_key id)) ;;
  if 0 <? Z.of_nat (List.length existingOrder) then Ret already_processed else
  id' <- eval (ToString orderId) ;;
  await (InsertMarker (event_key id')) ;;;
  existingPoints <- await (FindUnique customerId) ;;
  match existingPoints with
  | Some row =>
      let newPoints := add (of_Z (points row)) awarded in
      date <- new_Date ;;
      await (Update customerId newPoints date) ;;;
      customer <- eval (ToString customerId) ;;
      Ret (added awarded customer)
  | None =>
      date <- new_Date ;;
      await (Create customerId awarded date) ;;;
      customer <- eval (ToString customerId) ;;
      Ret (added awarded customer)
  end.

(** The body of the [try] block.  [json] is what [await request.json()]
    resolves to or rejects with. *)
Definition process (json : Error + value) : prog Response :=
  order <- eval json ;;
  customer <- eval (get order "customer") ;;
  if negb (truthy customer) then Ret no_customer else
  id <- eval (get customer "id") ;;
  if negb (truthy id) then Ret no_customer else
  subtotal_price <- eval (get order "subtotal_price") ;;
  subtotal <- eval (parseFloat (or_else subtotal_price (Str "0"))) ;;
  let awarded := points_for subtotal in
  if leb awarded pos_zero then Ret no_points else
  customer' <- eval (get order "customer") ;;
  customerId <- eval (get customer' "id") ;;
  orderId <- eval (get order "id") ;;
  award customerId orderId awarded.

(** The [catch] block; its [console.error] writes to the log only. *)
Definition handler (error : Error) : prog Response := Ret (failed error).

(** The route.  [topic] is the topic [authenticate.webhook] resolved to. *)
Definition action (topic : string) (json : Error + value) : prog Response :=
  if negb (topic =? "orders/create")%string then Ret (unsupported_topic topic)
  else try_catch (process json) handler.

End Webhook.

(* ================================================================== *)
(** * Running a program                                                *)
(* ================================================================== *)

Module Run.
Import Js Db Prog.

(** A statement that was issued, and the error it was rejected with, if
    it was. *)
Definition issued : Type := { X : Type & stmt X }.
Definition entry : Type := issued * option Error.

Definition issue {X : Type} (q : stmt X) : issued := existT _ X q.

Definition rejection {X : Type} (r : Error + X) : option Error :=
  match r with
  | inl e => Some e
  | inr _ => None
  end.

Definition wrote_ledger (i : entry) : bool := is_ledger_write (projT2 (fst i)).

(** An environment: a state, how it answers a statement, and its clock. *)
Record World (S : Type) : Type := {
  answer : forall X : Type, stmt X -> S -> (Error + X) * S;
  clock : S -> Z * S
}.
Arguments answer {S} w {X} q s.
Arguments clock {S} w s.

(** Run [p] to its end in world [w] from state [s]: what it returns or
    throws, the final state, and the statements issued, in order. *)
Fixpoint interp {S R : Type} (w : World S) (p : prog R) (s : S)
  : (Error + R) * S * list entry :=
  match p with
  | Ret r => (inr r, s, [])
  | Throw e => (inl e, s, [])
  | Await q k =>
      let '(r, s1) := answer w q s in
      let '(out, s2, log) := interp w (k r) s1 in
      (out, s2, (issue q, rejection r) :: log)
  | NewDate k =>
      let '(t, s1) := clock w s in
      interp w (k t) s1
  end.

(** One step of [p]: up to and including its next statement. *)
Definition step {S R : Type} (w : World S) (p : prog R) (s : S)
  : prog R * S * list entry :=
  match p with
  | Await q k =>
      let '(r, s1) := answer w q s in
      (k r, s1, [(issue q, rejection r)])
  | NewDate k =>
      let '(t, s1) := clock w s in
      (k t, s1, [])
  | _ => (p, s, [])
  end.

(** Two invocations running concurrently against one state: the schedule
    says which of them takes the next step ([true] for the first); when it
    is exhausted the first runs to its end, then the second. *)
Fixpoint interleave {S R : Type} (w : World S) (schedule : list bool)
    (p q : prog R) (s : S)
  : ((Error + R) * list entry) * ((Error + R) * list entry) * S :=
  match schedule with
  | [] =>
      let '(o1, s1, l1) := interp w p s in
      let '(o2, s2, l2) := interp w q s1 in
      ((o1, l1), (o2, l2), s2)
  | true :: rest =>
      let '(p', s1, l) := step w p s in
      let '((o1, l1), second, s2) := interleave w rest p' q s1 in
      ((o1, (l ++ l1)%list), second, s2)
  | false :: rest =>
      let '(q', s1, l) := step w q s in
      let '(first, (o2, l2), s2) := interleave w rest p q' s1 in
      (first, (o2, (l ++ l2)%list), s2)
  end.

(** The store with injected faults: the [n]-th statement rejects with the
    [n]-th fault, if there is one, without touching the store; otherwise
    the store executes it.  The clock reads [now]. *)
Record Env : Type := {
  store : Store;
  faults : list (option Error);
  now : Z
}.

Definition db_answer (X : Type) (q : stmt X) (env : Env) : (Error + X) * Env :=
  match faults env with
  | Some e :: rest =>
      (inl e, {| store := store env; faults := rest; now := now env |})
  | fs =>
      let '(r, st) := exec q (store env) in
      (r, {| store := st; faults := tl fs; now := now env |})
  end.

Definition db : World Env :=
  {| answer := db_answer; clock := fun env => (now env, env) |}.

(** One delivery of the webhook against the store. *)
Definition deliver (st : Store) (fs : list (option Error)) (t : Z)
    (topic : string) (json : Error + value)
  : (Error + Webhook.Response) * Store * list entry :=
  let '(out, env, log) :=
    interp db (Webhook.action topic json) {| store := st; faults := fs; now := t |} in
  (out, store env, log).

(** Successive deliveries of one event, each with its own faults and time:
    their results, and the store they leave. *)
Fixpoint redeliver (st : Store) (attempts : list (list (option Error) * Z))
    (topic : string) (json : Error + value)
  : list (Error + Webhook.Response) * Store :=
  match attempts with
  | [] => ([], st)
  | (fs, t) :: rest =>
      let '(out, st1, _) := deliver st fs t topic json in
      let '(outs, st2) := redeliver st1 rest topic json in
      (out :: outs, st2)
  end.

(** Two deliveries racing against one store, without faults. *)
Definition race (schedule : list bool) (st : Store) (t : Z)
    (topic1 : string) (json1 : Error + value)
    (topic2 : string) (json2 : Error + value)
  : ((Error + Webhook.Response) * list entry)
    * ((Error + Webhook.Response) * list entry) * Store :=
  let '(first, second, env) :=
    interleave db schedule (Webhook.action topic1 json1) (Webhook.action topic2 json2)
      {| store := st; faults := []; now := t |} in
  (first, second, store env).

End Run.

(* ================================================================== *)
(** * The fields of an event, as the route reads them                  *)
(* ================================================================== *)

Module Event.
Import Js Webhook.

Definition orders_create : string := "orders/create".

Definition nullish (v : value) : bool :=
  match v with
  | Undefined | Null => true
  | _ => false
  end.

(** [v.name] where reading it does not throw. *)
Definition field (v : value) (name : string) : value :=
  match get v name with
  | inr x => x
  | inl _ => Undefined
  end.

Definition customer_of (order : value) : value := field order "customer".
Definition customer_id_of (order : value) : value := field (customer_of order) "id".
Definition subtotal_of (order : value) : value := field order "subtotal_price".
Definition order_id_of (order : value) : value := field order "id".

(** [order.customer && order.customer.id]. *)
Definition has_customer (order : value) : bool :=
  truthy (customer_of order) && truthy (customer_id_of order).

(** What [parseFloat] is applied to, and what it yields when the
    conversion to a string does not throw. *)
Definition subtotal_arg (order : value) : value :=
  or_else (subtotal_of order) (Str "0").

Definition subtotal_number (order : value) : number :=
  parseFloat_string (to_string (subtotal_arg order)).

Definition awarded_of (order : value) : number := points_for (subtotal_number order).

Definition key_of (order : value) : string :=
  event_key (to_string (order_id_of order)).

(** The payloads that reach the duplicate check: an order with a customer,
    a subtotal that converts and yields points not [<= 0], and an id that
    converts. *)
Definition qualifies (order : value) : bool :=
  negb (nullish order) && has_customer order
  && convertible (subtotal_arg order)
  && negb (leb (awarded_of order) pos_zero)
  && convertible (order_id_of order).

End Event.

Import Js Db Prog Webhook Run Event.

(* ================================================================== *)
(** * What the properties speak of                                     *)
(* ================================================================== *)

(** A marker of this name is recorded. *)
Definition marked (st : Store) (key : string) : bool :=
  existsb (has_key key) (migrations st).

(** The marker row the route inserts. *)
Definition marker (key : string) : MigrationRow :=
  {| name := key; applied_steps_count := 1 |}.

(** The responses the route can give. *)
Definition defined_outcome (topic : string) (r : Response) : Prop :=
  r = unsupported_topic topic \/ r = no_customer \/ r = no_points
  \/ r = already_processed
  \/ (exists (awarded : number) (customer : string), r = added awarded customer)
  \/ (exists e : Error, r = failed e).

(** The ways a delivery ends without a statement. *)
Variant early_exit (topic : string) (json : Error + value) : Response -> Prop :=
| exit_topic :
    (topic =? orders_create)%string = false ->
    early_exit topic json (unsupported_topic topic)
| exit_body (e : Error) :
    topic = orders_create -> json = inl e ->
    early_exit topic json (failed e)
| exit_nullish (order : value) (e : Error) :
    topic = orders_create -> json = inr order -> nullish order = true ->
    early_exit topic json (failed e)
| exit_customer (order : value) :
    topic = orders_create -> json = inr order -> nullish order = false ->
    has_customer order = false ->
    early_exit topic json no_customer
| exit_subtotal (order : value) :
    topic = orders_create -> json = inr order -> nullish order = false ->
    has_customer order = true -> convertible (subtotal_arg order) = false ->
    early_exit topic json (failed cannot_convert)
| exit_points (order : value) :
    topic = orders_create -> json = inr order -> nullish order = false ->
    has_customer order = true -> convertible (subtotal_arg order) = true ->
    leb (awarded_of order) pos_zero = true ->
    early_exit topic json no_points
| exit_id (order : value) :
    topic = orders_create -> json = inr order -> nullish order = false ->
    has_customer order = true -> convertible (subtotal_arg order) = true ->
    leb (awarded_of order) pos_zero = false ->
    convertible (order_id_of order) = false ->
    early_exit topic json (failed cannot_convert).

(** Every balance fits its [INTEGER] column. *)
Definition ledger_typed (st : Store) : Prop :=
  Forall (fun r => - 2 ^ 31 <= points r < 2 ^ 31) (loyaltyPoints st).

(** At most one row per customer. *)
Definition ledger_unique (st : Store) : Prop :=
  NoDup (map customerId (loyaltyPoints st)).

(** Every row of [l] is still there in [l'], for the same customer and
    with a balance that is not smaller. *)
Definition ledger_grows (l l' : list LoyaltyPoints) : Prop :=
  forall r, In r l ->
    exists r', In r' l' /\ customerId r' = customerId r /\ points r <= points r'.

(** The ledger with the customer's row replaced. *)
Definition replace_row (row : LoyaltyPoints) (l : list LoyaltyPoints)
  : list LoyaltyPoints :=
  map (fun r => if is_customer (customerId row) r then row else r) l.

(** What one delivery does to the ledger: nothing, or it rewrites the row
    of a customer in place with a balance that is not smaller, or it
    appends a row for a customer who had none. *)
Inductive ledger_step (l : list LoyaltyPoints) : list LoyaltyPoints -> Prop :=
| step_none : ledger_step l l
| step_update (c : string) (row : LoyaltyPoints) (z t : Z) :
    find (is_customer c) l = Some row ->
    points row <= z -> - 2 ^ 31 <= z < 2 ^ 31 ->
    ledger_step l (replace_row {| customerId := c; points := z; updatedAt := t |} l)
| step_create (c : string) (z t : Z) :
    find (is_customer c) l = None ->
    - 2 ^ 31 <= z < 2 ^ 31 ->
    ledger_step l (l ++ [{| customerId := c; points := z; updatedAt := t |}]).

(* ================================================================== *)
(** * Sample stores and events                                         *)
(* ================================================================== *)

Definition empty_store : Store :=
  {| unique_name := true; migrations := []; loyaltyPoints := [] |}.

(** A store whose marker table takes a second row of the same name. *)
Definition loose_store : Store :=
  {| unique_name := false; migrations := []; loyaltyPoints := [] |}.

Definition store_with_5 : Store :=
  {| unique_name := true; migrations := [];
     loyaltyPoints := [{| customerId := "c1"; points := 5; updatedAt := 1 |}] |}.

Definition store_two_customers : Store :=
  {| unique_name := true; migrations := [];
     loyaltyPoints := [{| customerId := "c1"; points := 5; updatedAt := 1 |};
                       {| customerId := "c2"; points := 40; updatedAt := 2 |}] |}.

Definition order_1001 : value :=
  Obj [("id", Str "1001"); ("subtotal_price", Str "50.00");
       ("customer", Obj [("id", Str "c1")])].

Definition order_without_customer : value :=
  Obj [("id", Str "1001"); ("subtotal_price", Str "50.00")].

Definition order_below_threshold : value :=
  Obj [("id", Str "1002"); ("subtotal_price", Str "9.99");
       ("customer", Obj [("id", Str "c1")])].

Definition order_non_numeric : value :=
  Obj [("id", Str "1003"); ("subtotal_price", Str "abc");
       ("customer", Obj [("id", Str "c1")])].

Definition order_30 : value :=
  Obj [("id", Str "1004"); ("subtotal_price", Str "30.00");
       ("customer", Obj [("id", Str "c1")])].

Definition order_negative : value :=
  Obj [("id", Str "1005"); ("subtotal_price", Str "-25.00");
       ("customer", Obj [("id", Str "c1")])].

Definition order_10 : value :=
  Obj [("id", Str "1006"); ("subtotal_price", Str "10.00");
       ("customer", Obj [("id", Str "c1")])].

Definition order_20 : value :=
  Obj [("id", Str "1007"); ("subtotal_price", Str "20.00");
       ("customer", Obj [("id", Str "c1")])].

Definition no_id_order_a : value :=
  Obj [("subtotal_price", Str "50.00"); ("customer", Obj [("id", Str "c1")])].

Definition no_id_order_b : value :=
  Obj [("subtotal_price", Str "120.00"); ("customer", Obj [("id", Str "c2")])].

(* ================================================================== *)
(** * More of the JavaScript runtime                                   *)
(* ================================================================== *)

Module Lang.
Import Js.

(** [isNaN(x)], [x < y], [x - y] on Numbers. *)
Definition isNaN (x : number) : bool :=
  match x with
  | S754_nan => true
  | _ => false
  end.

Definition ltb (x y : number) : bool := SFltb x y.
Definition sub (x y : number) : number := SFsub 53 1024 x y.

(** [Math.max(x, y)]: NaN if either is; [+0] is larger than [-0]. *)
Definition Math_max (x y : number) : number :=
  match x, y with
  | S754_nan, _ | _, S754_nan => NaN
  | _, _ =>
      if ltb x y then y
      else match x, y with
           | S754_zero true, S754_zero false => y
           | _, _ => x
           end
  end.

(** [parseInt(s, 10)]: leading white space and a sign are skipped, the
    decimal digits that follow are read, and what comes after them is
    ignored; without a digit the result is NaN.  The digits [0] with a
    minus sign give [-0]. *)
Definition parseInt (s : string) : number :=
  let '(neg, s1) := read_sign (trim_start s) in
  let '(v, n, _) := read_digits s1 0 0 in
  if n =? 0 then NaN
  else if v =? 0 then S754_zero neg
  else of_Z (cond_Zopp neg v).

(** [a === b] for two values that are not the same object: primitives are
    compared by type and value, and no array or object is equal to
    another. *)
Definition strict_equal (a b : value) : bool :=
  match a, b with
  | Undefined, Undefined | Null, Null => true
  | Bool x, Bool y => Bool.eqb x y
  | Num x, Num y => SFeqb x y
  | Str x, Str y => (x =? y)%string
  | _, _ => false
  end.

End Lang.

(* ================================================================== *)
(** * The loyalty manager: adjusting points by hand                    *)
(* ================================================================== *)

Module Loyalty.
Import Js Db Prog Prog.Notations Lang.

(** What [formData.get] yields for a field that is present: the text of a
    text field, or a file.  A missing field yields [null]. *)
Variant FormDataEntryValue : Type :=
| Text (s : string)
| File.

Definition entry_value (v : option FormDataEntryValue) : value :=
  match v with
  | None => Null
  | Some (Text s) => Str s
  | Some File => Obj []
  end.

(** The string [parseInt] converts its argument to. *)
Definition entry_string (v : option FormDataEntryValue) : string :=
  match v with
  | None => "null"
  | Some (Text s) => s
  | Some File => "[object File]"
  end.

(** The data of the response: [{ success: false, error }] or
    [{ success: true, message }]. *)
Variant ActionData : Type :=
| Failure (error : string)
| Success (message : string).

Definition invalid : ActionData := Failure "Invalid customer ID or points value".

(** The balance an existing row is rewritten with. *)
Definition new_balance (operation : value) (existing : Z) (pointsChange : number)
  : number :=
  if strict_equal operation (Str "add") then add (of_Z existing) pointsChange
  else if strict_equal operation (Str "subtract")
       then Math_max pos_zero (sub (of_Z existing) pointsChange)
  else if strict_equal operation (Str "set") then pointsChange
  else pointsChange.

(** From the customer query on.  [graphql] is what [admin.graphql] and
    [response.json()] give between them: the parsed body, or what either
    of them rejects with. *)
Definition report (graphql : Error + value) (newPoints : number) : prog ActionData :=
  responseJson <- eval graphql ;;
  data <- eval (get responseJson "data") ;;
  customer <- eval (get data "customer") ;;
  displayName <- eval (get customer "displayName") ;;
  name <- (if truthy displayName then Ret displayName
           else eval (get customer "email")) ;;
  shown <- eval (ToString name) ;;
  Ret (Success ("Updated points for " ++ shown ++ " to " ++ number_to_string newPoints)).

(** The [catch] block.  [message] is the message of an [Error], or the
    string of whatever else was thrown. *)
Definition handler (error : Error) : prog ActionData :=
  Ret (Failure ("Failed to update points: " ++ message error)).

(** The route's [action].  Its arguments are the three fields of the form
    as [formData.get] yields them. *)
Definition action (customerId points operation : option FormDataEntryValue)
    (graphql : Error + value) : prog ActionData :=
  let pointsChange := parseInt (entry_string points) in
  if negb (truthy (entry_value customerId)) || isNaN pointsChange
     || ltb pointsChange pos_zero
  then Ret invalid
  else
    try_catch
      (existingPoints <- await (FindUnique (entry_value customerId)) ;;
       match existingPoints with
       | Some row =>
           let newPoints :=
             new_balance (entry_value operation) (Db.points row) pointsChange in
           date <- new_Date ;;
           await (Update (entry_value customerId) newPoints date) ;;;
           report graphql newPoints
       | None =>
           date <- new_Date ;;
           await (Create (entry_value customerId) pointsChange date) ;;;
           report graphql pointsChange
       end)
      handler.

(** One submission of the form against the store. *)
Definition adjust (st : Store) (fs : list (option Error)) (t : Z)
    (customerId points operation : option FormDataEntryValue)
    (graphql : Error + value)
  : (Error + ActionData) * Store * list Run.entry :=
  let '(out, env, log) :=
    Run.interp Run.db (action customerId points operation graphql)
      {| Run.store := st; Run.faults := fs; Run.now := t |} in
  (out, Run.store env, log).

(** ** The form of the page *)

Record Form : Type := {
  selectedCustomerId : string;
  pointsValue : string;
  operationValue : string
}.

(** What a click on the button leads to: a toast, or the form posted. *)
Variant Effect : Type :=
| Toast (message : string)
| Submit (customerId points operation : string).

Definition handleAdjustPoints (form : Form) : Effect :=
  if negb (truthy (Str (selectedCustomerId form)))
     || isNaN (parseInt (pointsValue form))
     || ltb (parseInt (pointsValue form)) pos_zero
  then Toast "Please select a customer and enter a valid points value"
  else Submit (selectedCustomerId form) (pointsValue form) (operationValue form).

End Loyalty.



Import Lang.

(* ================================================================== *)
(** * What the properties of the loyalty manager speak of             *)
(* ================================================================== *)

(** Whether the operation field is the text [name]. *)
Definition operation_is (operation : option Loyalty.FormDataEntryValue) (name : string)
  : bool :=
  match operation with
  | Some (Loyalty.Text s) => (s =? name)%string
  | _ => false
  end.

(** The balance an operation by [v] points leads to from the balance [b],
    as integers. *)
Definition balance_after (operation : option Loyalty.FormDataEntryValue) (b v : Z) : Z :=
  if operation_is operation "add" then b + v
  else if operation_is operation "subtract" then Z.max 0 (b - v)
  else v.

(** No balance is below zero. *)
Definition ledger_nonnegative (st : Store) : Prop :=
  Forall (fun r => 0 <= points r) (loyaltyPoints st).

(** What the response says once the ledger is written. *)
Definition reported (graphql : Error + value) (newPoints : number) : Loyalty.ActionData :=
  match try_catch (Loyalty.report graphql newPoints) Loyalty.handler with
  | Ret r => r
  | _ => Loyalty.invalid
  end.

(** The statement that writes the ledger. *)
Definition ledger_write (customer operation : value) (pointsChange : number)
    (found : option LoyaltyPoints) (t : Z) : stmt LoyaltyPoints :=
  match found with
  | Some row => Update customer (Loyalty.new_balance operation (points row) pointsChange) t
  | None => Create customer pointsChange t
  end.

Definition written (operation : value) (pointsChange : number)
    (found : option LoyaltyPoints) : number :=
  match found with
  | Some row => Loyalty.new_balance operation (points row) pointsChange
  | None => pointsChange
  end.

Definition update_failed (e : Error) : Loyalty.ActionData :=
  Loyalty.Failure ("Failed to update points: " ++ message e).


(** The requests the two routes serve, one after the other: a delivery of
    the webhook or a submission of the form, each with its faults and its
    time. *)
Variant request : Type :=
| Delivery (fs : list (option Error)) (t : Z) (topic : string) (json : Error + value)
| Adjustment (fs : list (option Error)) (t : Z)
    (customerId points operation : option Loyalty.FormDataEntryValue)
    (graphql : Error + value).

Definition serve_one (st : Store) (r : request) : Store :=
  match r with
  | Delivery fs t topic json => snd (fst (deliver st fs t topic json))
  | Adjustment fs t customerId points operation graphql =>
      snd (fst (Loyalty.adjust st fs t customerId points operation graphql))
  end.

Definition serve (st : Store) (requests : list request) : Store :=
  fold_left serve_one requests st.

(** Sample submissions. *)
Definition text (s : string) : option Loyalty.FormDataEntryValue :=
  Some (Loyalty.Text s).

Definition customer_ann : Error + value :=
  inr (Obj [("data", Obj [("customer",
         Obj [("displayName", Str "Ann"); ("email", Str "ann@example.com")])])]).

Definition customer_unknown : Error + value :=
  inr (Obj [("data", Obj [("customer", Null)])]).

Definition api_down : Error := {| message := "fetch failed" |}.

(* ================================================================== *)
(** * The inventory manager: saving quantities                         *)
(* ================================================================== *)

Module Inventory.
Import Js Lang.

(** A row of ["InventoryLog"]: [productId TEXT], [variantId TEXT],
    [oldQty INTEGER], [newQty INTEGER], [updatedAt TIMESTAMP].  The [id]
    column takes its default. *)
Record InventoryLog : Type := {
  productId : string;
  variantId : string;
  oldQty : Z;
  newQty : Z;
  updatedAt : Z
}.

(** What the selection of the mutation asks of [inventorySetQuantities]:
    its [userErrors], and its [inventoryAdjustmentGroup] with the
    [changes] of the group.  The group may be [null], and [changes] is
    read as if it could be. *)
Record Group : Type := { changes : option (list value) }.

Record Payload : Type := {
  userErrors : list value;
  inventoryAdjustmentGroup : option Group
}.

(** What the route awaits, indexed by what it resolves to: the mutation
    with its [quantities], resolving to [data?.inventorySetQuantities] of
    the parsed response ([None] for [undefined] or [null]), and the
    creation of a log row. *)
Variant call : Type -> Type :=
| SetQuantities (quantities : list value) : call (option Payload)
| LogCreate (product variant old new : value) (date : Z) : call InventoryLog.

Definition issued : Type := { X : Type & call X }.
Definition issue {X : Type} (q : call X) : issued := existT _ X q.
Definition entry : Type := issued * option Error.

Definition rejection {X : Type} (r : Error + X) : option Error :=
  match r with
  | inl e => Some e
  | inr _ => None
  end.

(** An environment: a state, how it answers a call, and its clock. *)
Record World (W : Type) : Type := {
  answer : forall X : Type, call X -> W -> (Error + X) * W;
  clock : W -> Z * W
}.
Arguments answer {W} w {X} q s.
Arguments clock {W} w s.

(** The two arrays the route fills, the environment, and the calls made
    so far. *)
Record State (W : Type) : Type := {
  results : list value;
  errors : list value;
  world : W;
  trace : list entry
}.
Arguments results {W} s.
Arguments errors {W} s.
Arguments world {W} s.
Arguments trace {W} s.

(** The data of the response. *)
Variant ActionData : Type :=
| Refused (error : string)
| Outcome (success : bool) (results errors : list value).

Definition no_updates : ActionData := Refused "No updates provided".

(** [v.length] *)
Definition length_of (v : value) : Error + value :=
  match v with
  | Arr elements => inr (Num (of_Z (Z.of_nat (List.length elements))))
  | Str s => inr (Num (of_Z (Z.of_nat (String.length s))))
  | _ => get v "length"
  end.

(** [v.filter], called: only an array has the method. *)
Definition not_a_function : Error := {| message := "updates.filter is not a function" |}.

Definition elements_of (v : value) : Error + list value :=
  match v with
  | Arr elements => inr elements
  | _ => inl not_a_function
  end.

(** The filter's test: [update.inventoryItemId && update.newQty !==
    update.oldQty], as a boolean. *)
Definition valid (update : value) : Error + bool :=
  match get update "inventoryItemId" with
  | inl e => inl e
  | inr item =>
      if truthy item then
        match get update "newQty", get update "oldQty" with
        | inl e, _ => inl e
        | inr _, inl e => inl e
        | inr new, inr old => inr (negb (strict_equal new old))
        end
      else inr false
  end.

Fixpoint filter_valid (updates : list value) : Error + list value :=
  match updates with
  | [] => inr []
  | update :: rest =>
      match valid update with
      | inl e => inl e
      | inr keep =>
          match filter_valid rest with
          | inl e => inl e
          | inr kept => inr (if keep then update :: kept else kept)
          end
      end
  end.

(** One entry of [quantities]. *)
Definition quantity_of (update : value) : Error + value :=
  match get update "inventoryItemId", get update "newQty", get update "oldQty",
        get update "locationId" with
  | inr item, inr new, inr old, inr location =>
      let entry := [("inventoryItemId", item); ("quantity", new);
                    ("compareQuantity", old)] in
      inr (Obj (if truthy location then entry ++ [("locationId", location)] else entry))
  | inl e, _, _, _ | _, inl e, _, _ | _, _, inl e, _ | _, _, _, inl e => inl e
  end.

Fixpoint quantities_of (updates : list value) : Error + list value :=
  match updates with
  | [] => inr []
  | update :: rest =>
      match quantity_of update, quantities_of rest with
      | inr q, inr qs => inr (q :: qs)
      | inl e, _ | _, inl e => inl e
      end
  end.

(** What the [catch] block pushes.  [message] is the message of an
    [Error], or the string of whatever else was thrown. *)
Definition failure (error : Error) : value :=
  Obj [("message", Str ("Failed to update inventory: " ++ message error))].

Section Route.
Context {W : Type} (w : World W).

(** The body of the route: it reads and writes the two arrays, makes
    calls, and may throw; what was pushed before a throw stays pushed. *)
Definition M (A : Type) : Type := State W -> (Error + A) * State W.

Definition ret {A : Type} (a : A) : M A := fun s => (inr a, s).

Definition bind {A B : Type} (m : M A) (f : A -> M B) : M B :=
  fun s =>
    match m s with
    | (inl e, s') => (inl e, s')
    | (inr a, s') => f a s'
    end.

Definition eval {A : Type} (r : Error + A) : M A := fun s => (r, s).

Definition try_catch {A : Type} (m : M A) (h : Error -> M A) : M A :=
  fun s =>
    match m s with
    | (inl e, s') => h e s'
    | r => r
    end.

Definition await {X : Type} (q : call X) : M X :=
  fun s =>
    let '(r, w') := answer w q (world s) in
    (r, {| results := results s; errors := errors s; world := w';
           trace := (trace s ++ [(issue q, rejection r)])%list |}).

Definition new_Date : M Z :=
  fun s =>
    let '(t, w') := clock w (world s) in
    (inr t, {| results := results s; errors := errors s; world := w';
               trace := trace s |}).

Definition push_results (l : list value) : M unit :=
  fun s =>
    (inr tt, {| results := (results s ++ l)%list; errors := errors s;
                world := world s; trace := trace s |}).

Definition push_errors (l : list value) : M unit :=
  fun s =>
    (inr tt, {| results := results s; errors := (errors s ++ l)%list;
                world := world s; trace := trace s |}).

Definition read : M (State W) := fun s => (inr s, s).

Notation "x <- p ;; q" := (bind p (fun x => q))
  (at level 61, p at next level, right associativity).
Notation "p ;;; q" := (bind p (fun _ => q))
  (at level 61, right associativity).

(** [await prisma.inventoryLog.create({ data: ... })] for one update. *)
Definition log_update (update : value) : M unit :=
  product <- eval (get update "productId") ;;
  variant <- eval (get update "variantId") ;;
  old <- eval (get update "oldQty") ;;
  new <- eval (get update "newQty") ;;
  date <- new_Date ;;
  await (LogCreate product variant old new date) ;;;
  ret tt.

Fixpoint log_updates (updates : list value) : M unit :=
  match updates with
  | [] => ret tt
  | update :: rest => log_update update ;;; log_updates rest
  end.

(** The [try] block. *)
Definition attempt (validUpdates : list value) : M unit :=
  quantities <- eval (quantities_of validUpdates) ;;
  result <- await (SetQuantities quantities) ;;
  match result with
  | Some payload =>
      if 0 <? Z.of_nat (List.length (userErrors payload))
      then push_errors (userErrors payload)
      else
        match inventoryAdjustmentGroup payload with
        | Some group =>
            push_results (match changes group with Some l => l | None => [] end) ;;;
            log_updates validUpdates
        | None => ret tt
        end
  | None => ret tt
  end.

(** The route's [action].  [parsed] is what [JSON.parse] makes of the
    [updates] field of the form, or the error it throws. *)
Definition action (parsed : Error + value) : M ActionData :=
  updates <- eval parsed ;;
  if negb (truthy updates) then ret no_updates else
  len <- eval (length_of updates) ;;
  if strict_equal len (Num pos_zero) then ret no_updates else
  elements <- eval (elements_of updates) ;;
  validUpdates <- eval (filter_valid elements) ;;
  (if 0 <? Z.of_nat (List.length validUpdates)
   then try_catch (attempt validUpdates) (fun error => push_errors [failure error])
   else ret tt) ;;;
  s <- read ;;
  ret (Outcome (Z.of_nat (List.length (errors s)) =? 0) (results s) (errors s)).

(** One request: what the route returns or throws, the environment it
    leaves and the calls it made, in order. *)
Definition run (parsed : Error + value) (s : W)
  : (Error + ActionData) * W * list entry :=
  let '(r, s') := action parsed {| results := []; errors := []; world := s; trace := [] |} in
  (r, world s', trace s').

End Route.

(** ** The shop: the Admin API and the log table

    The API answers the mutation with [reply].  The [n]-th creation of a
    log row rejects with the [n]-th fault, if there is one; otherwise the
    table takes the row when [productId] and [variantId] are strings and
    [oldQty] and [newQty] fit an [INTEGER] column, and rejects it when they
    do not. *)
Record Shop : Type := {
  inventoryLog : list InventoryLog;
  reply : Error + option Payload;
  faults : list (option Error);
  now : Z
}.

(** A value for an [INTEGER] column. *)
Definition integer_column (v : value) : option Z :=
  match v with
  | Num x => Db.int32 x
  | _ => None
  end.

Definition row_of (product variant old new : value) (date : Z) : option InventoryLog :=
  match product, variant, integer_column old, integer_column new with
  | Str p, Str v, Some o, Some n =>
      Some {| productId := p; variantId := v; oldQty := o; newQty := n;
              updatedAt := date |}
  | _, _, _, _ => None
  end.

Definition shop_answer (X : Type) (q : call X) (s : Shop) : (Error + X) * Shop :=
  match q in call T return (Error + T) * Shop with
  | SetQuantities _ => (reply s, s)
  | LogCreate product variant old new date =>
      match faults s with
      | Some e :: rest =>
          (inl e, {| inventoryLog := inventoryLog s; reply := reply s;
                     faults := rest; now := now s |})
      | fs =>
          match row_of product variant old new date with
          | Some row =>
              (inr row, {| inventoryLog := (inventoryLog s ++ [row])%list;
                           reply := reply s; faults := tl fs; now := now s |})
          | None =>
              (inl Db.invalid_argument,
               {| inventoryLog := inventoryLog s; reply := reply s;
                  faults := tl fs; now := now s |})
          end
      end
  end.

Definition shop : World Shop :=
  {| answer := shop_answer; clock := fun s => (now s, s) |}.

(** One request against the shop. *)
Definition save (parsed : Error + value) (s : Shop)
  : (Error + ActionData) * Shop * list entry :=
  run shop parsed s.

End Inventory.

(* ================================================================== *)
(** * What the properties of the inventory manager speak of            *)
(* ================================================================== *)

(** An update the filter keeps, read without the throws. *)
Definition changes_quantity (update : value) : bool :=
  truthy (field update "inventoryItemId")
  && negb (strict_equal (field update "newQty") (field update "oldQty")).

(** The row the log takes for an update, if it takes one. *)
Definition logged (date : Z) (update : value) : option Inventory.InventoryLog :=
  Inventory.row_of (field update "productId") (field update "variantId")
    (field update "oldQty") (field update "newQty") date.

(** The entry of [quantities] for an update, read without the throws. *)
Definition quantity (update : value) : value :=
  let entry := [("inventoryItemId", field update "inventoryItemId");
                ("quantity", field update "newQty");
                ("compareQuantity", field update "oldQty")] in
  Obj (if truthy (field update "locationId")
       then entry ++ [("locationId", field update "locationId")] else entry).

(** Sample updates and answers. *)
Definition update_shirt : value :=
  Obj [("variantId", Str "v1"); ("productId", Str "p1"); ("oldQty", Num (of_Z 4));
       ("newQty", Num (of_Z 9)); ("inventoryItemId", Str "i1"); ("locationId", Str "l1")].

Definition update_hat : value :=
  Obj [("variantId", Str "v2"); ("productId", Str "p2"); ("oldQty", Num (of_Z 2));
       ("newQty", Num (of_Z 0)); ("inventoryItemId", Str "i2")].

Definition update_unchanged : value :=
  Obj [("variantId", Str "v3"); ("productId", Str "p3"); ("oldQty", Num (of_Z 6));
       ("newQty", Num (of_Z 6)); ("inventoryItemId", Str "i3")].

Definition update_untracked : value :=
  Obj [("variantId", Str "v4"); ("productId", Str "p4"); ("oldQty", Num (of_Z 1));
       ("newQty", Num (of_Z 3))].

Definition two_changes : list value :=
  [Obj [("name", Str "available"); ("delta", Num (of_Z 5))];
   Obj [("name", Str "available"); ("delta", Num (of_Z (-2)))]].

Definition adjusted : Error + option Inventory.Payload :=
  inr (Some {| Inventory.userErrors := [];
               Inventory.inventoryAdjustmentGroup :=
                 Some {| Inventory.changes := Some two_changes |} |}).

Definition stale_quantity : value :=
  Obj [("field", Arr [Str "input"; Str "quantities"; Str "0"; Str "compareQuantity"]);
       ("message", Str "The compareQuantity value does not match persisted quantity.")].

Definition shop_at (reply : Error + option Inventory.Payload)
    (faults : list (option Error)) : Inventory.Shop :=
  {| Inventory.inventoryLog := []; Inventory.reply := reply;
     Inventory.faults := faults; Inventory.now := 5 |}.

(** The updates the filter keeps of what was parsed. *)
Definition kept (parsed : Error + value) : list value :=
  match parsed with
  | inr (Arr elements) => filter changes_quantity elements
  | _ => []
  end.

(** The state of the route once the mutation was answered. *)
Definition answered {W : Type} (q : Inventory.call (option Inventory.Payload))
    (results : list value) (s : W) : Inventory.State W :=
  {| Inventory.results := results; Inventory.errors := []; Inventory.world := s;
     Inventory.trace := [(Inventory.issue q, None)] |}.

Definition changes_or_none (group : Inventory.Group) : list value :=
  match Inventory.changes group with
  | Some l => l
  | None => []
  end.

(** The shop with rows added to its log and the faults that are left. *)
Definition shop_after (s : Inventory.Shop) (rows : list Inventory.InventoryLog)
    (faults : list (option Error)) : Inventory.Shop :=
  {| Inventory.inventoryLog := (Inventory.inventoryLog s ++ rows)%list;
     Inventory.reply := Inventory.reply s;
     Inventory.faults := faults;
     Inventory.now := Inventory.now s |}.

(** Whether a call is the creation of a log row. *)
Definition is_log_write (i : Inventory.entry) : bool :=
  match projT2 (fst i) with
  | Inventory.LogCreate _ _ _ _ _ => true
  | _ => false
  end.

(** An entry of [quantities] that asks for a change of an item. *)
Definition asks_change (q : value) : bool :=
  truthy (field q "inventoryItemId")
  && negb (strict_equal (field q "quantity") (field q "compareQuantity")).

(* ================================================================== *)
(** * The inventory manager: the page                                  *)
(* ================================================================== *)

Module Page.
Import Js Lang.

(** ** The quantities being edited

    [inventoryChanges] is an object used as a map from variant ids to
    quantities: the list of its own properties, each key once. *)
Definition Changes : Type := list (string * number).

(** [{ ...o, [k]: v }]: the property is replaced where it stands, or
    added. *)
Fixpoint assign (o : Changes) (k : string) (v : number) : Changes :=
  match o with
  | [] => [(k, v)]
  | (k', v') :: rest =>
      if (k' =? k)%string then (k, v) :: rest else (k', v') :: assign rest k v
  end.

(** The names every object inherits from [Object.prototype]. *)
Definition inherited (k : string) : bool :=
  existsb (String.eqb k)
    ["constructor"; "hasOwnProperty"; "isPrototypeOf"; "propertyIsEnumerable";
     "toLocaleString"; "toString"; "valueOf"; "__proto__"; "__defineGetter__";
     "__defineSetter__"; "__lookupGetter__"; "__lookupSetter__"].

(** [o[k]]: the own property; for an inherited name a function or the
    prototype, which stands here as an empty object (like them it is
    neither [undefined] nor a Number); otherwise [undefined]. *)
Definition read (o : Changes) (k : string) : value :=
  match find (fun kv => (fst kv =? k)%string) o with
  | Some (_, v) => Num v
  | None => if inherited k then Obj [] else Undefined
  end.

Definition handleQuantityChange (inventoryChanges : Changes)
    (variantId newValue : string) : Changes :=
  let newQty := parseInt newValue in
  if negb (isNaN newQty) && leb pos_zero newQty
  then assign inventoryChanges variantId newQty
  else inventoryChanges.

(** ** Saving

    The products as the loader returns them: of a variant the page reads
    [id], [inventoryQuantity], [inventoryItemId] and [locationId], the
    last two of which may be missing. *)
Record Variant : Type := {
  id : string;
  inventoryQuantity : number;
  inventoryItemId : value;
  locationId : value
}.

Record Product : Type := {
  productId : string;
  variants : list Variant
}.

(** What a click on "Save Changes" leads to: a toast, or the form posted
    with [updates], which [submit] sends as [JSON.stringify(updates)]. *)
Variant Effect : Type :=
| Toast (message : string)
| Submit (updates : list value).

Definition changed (inventoryChanges : Changes) (variant : Variant) : bool :=
  negb (strict_equal (read inventoryChanges (id variant)) Undefined)
  && negb (strict_equal (read inventoryChanges (id variant))
                        (Num (inventoryQuantity variant))).

Definition update_of (inventoryChanges : Changes) (product : Product) (variant : Variant)
  : value :=
  Obj [("variantId", Str (id variant));
       ("productId", Str (productId product));
       ("oldQty", Num (inventoryQuantity variant));
       ("newQty", read inventoryChanges (id variant));
       ("inventoryItemId", inventoryItemId variant);
       ("locationId", locationId variant)].

(** The two nested [forEach] loops. *)
Definition updates_of (products : list Product) (inventoryChanges : Changes)
  : list value :=
  flat_map
    (fun product =>
       flat_map
         (fun variant =>
            if changed inventoryChanges variant
            then [update_of inventoryChanges product variant]
            else [])
         (variants product))
    products.

Definition handleSave (products : list Product) (inventoryChanges : Changes) : Effect :=
  if Z.of_nat (List.length inventoryChanges) =? 0 then Toast "No changes to save"
  else Submit (updates_of products inventoryChanges).

(** ** From the page to the route

    [JSON.parse(JSON.stringify(v))]: a property that is [undefined] is
    left out, an array element that is [undefined] and a Number that is
    not finite become [null], and [-0] becomes [0]. *)
Definition json_number (x : number) : value :=
  match x with
  | S754_finite _ _ _ => Num x
  | S754_zero _ => Num pos_zero
  | _ => Null
  end.

Fixpoint json (v : value) : value :=
  match v with
  | Undefined | Null => Null
  | Bool b => Bool b
  | Num x => json_number x
  | Str s => Str s
  | Arr elements => Arr (map json elements)
  | Obj properties =>
      Obj ((fix members (l : list (string * value)) : list (string * value) :=
              match l with
              | [] => []
              | (k, Undefined) :: rest => members rest
              | (k, w) :: rest => (k, json w) :: members rest
              end) properties)
  end.

(** ** Paging

    [pageInfo.endCursor] is a string or [null]. *)
Definition URLSearchParams : Type := list (string * string).

(** [params.set(k, v)] on parameters that hold [k] at most once. *)
Fixpoint set (params : URLSearchParams) (k v : string) : URLSearchParams :=
  match params with
  | [] => [(k, v)]
  | (k', v') :: rest =>
      if (k' =? k)%string then (k, v) :: rest else (k', v') :: set rest k v
  end.

(** [params.get(k)] *)
Definition get (params : URLSearchParams) (k : string) : option string :=
  match find (fun kv => (fst kv =? k)%string) params with
  | Some (_, v) => Some v
  | None => None
  end.

Record View : Type := {
  searchValue : string;
  endCursor : option string;
  cursorStack : list string
}.

Definition non_empty (s : string) : bool := negb (s =? "")%string.

Definition with_search (searchValue : string) : URLSearchParams :=
  if non_empty searchValue then set [] "searchTerm" searchValue else [].

(** Each handler yields the parameters it submits and the cursor stack
    it sets. *)
Definition handleNextPage (view : View) : URLSearchParams * list string :=
  let searchParams := with_search (searchValue view) in
  match endCursor view with
  | Some cursor =>
      if non_empty cursor
      then (set searchParams "cursor" cursor, (cursorStack view ++ [cursor])%list)
      else (searchParams, cursorStack view)
  | None => (searchParams, cursorStack view)
  end.

Definition handlePreviousPage (view : View) : URLSearchParams * list string :=
  let searchParams := with_search (searchValue view) in
  if 0 <? Z.of_nat (List.length (cursorStack view)) then
    let newStack := removelast (cursorStack view) in
    if 0 <? Z.of_nat (List.length newStack)
    then (set searchParams "before" (List.last newStack ""), newStack)
    else (searchParams, newStack)
  else (searchParams, cursorStack view).

(** ** The loader's reading of the parameters *)
Record Variables : Type := {
  first : option Z;
  last : option Z;
  after : option string;
  before : option string;
  query : string
}.

(** [params.get(k) || null] *)
Definition or_null (v : option string) : option string :=
  match v with
  | Some s => if non_empty s then Some s else None
  | None => None
  end.

Fixpoint includes_colon (s : string) : bool :=
  match s with
  | String c rest => (code c =? 58) || includes_colon rest
  | EmptyString => false
  end.

Definition search_query (searchTerm : string) : string :=
  if non_empty searchTerm && negb (includes_colon searchTerm)
  then "(title:*" ++ searchTerm ++ "* OR variant_title:*" ++ searchTerm
       ++ "* OR sku:*" ++ searchTerm ++ "*)"
  else searchTerm.

Definition variables_of (params : URLSearchParams) : Variables :=
  let cursor := or_null (get params "cursor") in
  let before := or_null (get params "before") in
  let searchTerm := match get params "searchTerm" with
                    | Some s => s
                    | None => ""
                    end in
  {| first := match before with Some _ => None | None => Some 10 end;
     last := match before with Some _ => Some 10 | None => None end;
     after := cursor;
     before := before;
     query := search_query searchTerm |}.

End Page.

(* ================================================================== *)
(** * The debounce helper                                              *)
(* ================================================================== *)

Module Debounce.

Section Debounced.

(** The arguments of a call, and the delay. *)
Variable A : Type.
Variable wait : Z.

(** A timeout the event loop holds: its id, when it falls due, and the
    arguments its [later] closes over. *)
Record Timer : Type := {
  timer : Z;
  due : Z;
  args : A
}.

(** The variable [timeout] of the closure, the timeouts that are pending,
    the id the next timeout gets, the time, and the calls [func] has
    received, in order. *)
Record State : Type := {
  timeout : option Z;
  pending : list Timer;
  next : Z;
  clock : Z;
  invoked : list A
}.

Definition start (t : Z) : State :=
  {| timeout := None; pending := []; next := 1; clock := t; invoked := [] |}.

(** [clearTimeout(id)]: the timeout of that id, if it is pending, is
    dropped. *)
Definition clearTimeout (id : Z) (s : State) : State :=
  {| timeout := timeout s;
     pending := filter (fun p => negb (timer p =? id)) (pending s);
     next := next s; clock := clock s; invoked := invoked s |}.

(** [setTimeout(later, wait)]: a timeout is added, due [wait] from now,
    and its id returned. *)
Definition setTimeout (a : A) (s : State) : Z * State :=
  (next s,
   {| timeout := timeout s;
      pending := (pending s ++ [{| timer := next s; due := clock s + wait; args := a |}])%list;
      next := next s + 1; clock := clock s; invoked := invoked s |}).

(** The function [debounce] returns, called with [a]. *)
Definition debounced (a : A) (s : State) : State :=
  let s1 := match timeout s with
            | Some id => clearTimeout id s
            | None => s
            end in
  let '(id, s2) := setTimeout a s1 in
  {| timeout := Some id; pending := pending s2; next := next s2; clock := clock s2;
     invoked := invoked s2 |}.

(** A timeout fires: it leaves the event loop and its [later] runs, which
    resets [timeout] and calls [func] with the arguments of the call that
    set the timeout. *)
Definition later (p : Timer) (s : State) : State :=
  {| timeout := None;
     pending := filter (fun q => negb (timer q =? timer p)) (pending s);
     next := next s; clock := clock s; invoked := (invoked s ++ [args p])%list |}.

Definition advance (d : Z) (s : State) : State :=
  {| timeout := timeout s; pending := pending s; next := next s; clock := clock s + d;
     invoked := invoked s |}.

(** What can happen: a call, time passing, or a timeout that is due
    firing, however late. *)
Inductive step : State -> State -> Prop :=
| step_call (a : A) (s : State) : step s (debounced a s)
| step_time (d : Z) (s : State) : 0 <= d -> step s (advance d s)
| step_fire (p : Timer) (s : State) :
    In p (pending s) -> due p <= clock s -> step s (later p s).

(** The states [debounce] can be in, [t] being the time it was called. *)
Inductive reachable (t : Z) : State -> Prop :=
| reach_start : reachable t (start t)
| reach_step (s s' : State) : reachable t s -> step s s' -> reachable t s'.

(** An event loop that fires every timeout as soon as it is due: the
    clock is moved to [t] and the timeouts due by then fire in the order
    they were set. *)
Definition elapse (t : Z) (s : State) : State :=
  fold_left (fun s p => later p s)
    (filter (fun p => due p <=? t) (pending s))
    {| timeout := timeout s; pending := pending s; next := next s;
       clock := Z.max (clock s) t; invoked := invoked s |}.

(** Calls at given times, then the time [finish]. *)
Fixpoint play (calls : list (Z * A)) (finish : Z) (s : State) : State :=
  match calls with
  | [] => elapse finish s
  | (t, a) :: rest => play rest finish (debounced a (elapse t s))
  end.

(** The calls that are followed by [wait] without another call. *)
Fixpoint settled (calls : list (Z * A)) (finish : Z) : list A :=
  match calls with
  | [] => []
  | (t, a) :: rest =>
      let following := match rest with
                       | [] => finish
                       | (t', _) :: _ => t'
                       end in
      if wait <=? following - t then a :: settled rest finish else settled rest finish
  end.

(** The times of the calls do not decrease, and end before [finish]. *)
Fixpoint in_order (from : Z) (calls : list (Z * A)) (finish : Z) : Prop :=
  match calls with
  | [] => from <= finish
  | (t, _) :: rest => from <= t /\ in_order t rest finish
  end.

End Debounced.

Arguments start {A} t.
Arguments clearTimeout {A} id s.
Arguments setTimeout {A} wait a s.
Arguments debounced {A} wait a s.
Arguments later {A} p s.
Arguments advance {A} d s.
Arguments step {A} wait s s'.
Arguments step_call {A} wait a s.
Arguments step_time {A} wait d s.
Arguments step_fire {A} wait p s.
Arguments reachable {A} wait t s.
Arguments reach_start {A} wait t.
Arguments reach_step {A} wait t s s'.
Arguments elapse {A} t s.
Arguments play {A} wait calls finish s.
Arguments settled {A} wait calls finish.
Arguments in_order {A} from calls finish.
Arguments timer {A} t.
Arguments due {A} t.
Arguments args {A} t.
Arguments timeout {A} s.
Arguments pending {A} s.
Arguments next {A} s.
Arguments clock {A} s.
Arguments invoked {A} s.

End Debounce.

(* ================================================================== *)
(** * What the properties of the page speak of                         *)
(* ================================================================== *)

(** A quantity the page records: a Number that is not NaN and not below
    zero. *)
Definition recordable (x : number) : bool := negb (isNaN x) && leb pos_zero x.

(** A Number [JSON] carries as it is. *)
Definition finite (x : number) : bool :=
  match x with
  | S754_finite _ _ _ | S754_zero _ => true
  | _ => false
  end.

(** An id as the loader returns it: a string, or missing. *)
Definition optional_id (v : value) : bool :=
  match v with
  | Str _ | Undefined => true
  | _ => false
  end.

Definition has_item (update : value) : bool := truthy (field update "inventoryItemId").

(** The variants of the products, each with its product, in the order of
    the table. *)
Definition listed (products : list Page.Product) : list (Page.Product * Page.Variant) :=
  flat_map (fun product => map (pair product) (Page.variants product)) products.

(** Sample products and views. *)
Definition shirt_small : Page.Variant :=
  {| Page.id := "gid://shopify/ProductVariant/1"; Page.inventoryQuantity := of_Z 4;
     Page.inventoryItemId := Str "gid://shopify/InventoryItem/1";
     Page.locationId := Str "gid://shopify/Location/1" |}.

Definition shirt_large : Page.Variant :=
  {| Page.id := "gid://shopify/ProductVariant/2"; Page.inventoryQuantity := of_Z 7;
     Page.inventoryItemId := Str "gid://shopify/InventoryItem/2";
     Page.locationId := Undefined |}.

Definition gift_card : Page.Variant :=
  {| Page.id := "gid://shopify/ProductVariant/3"; Page.inventoryQuantity := of_Z 0;
     Page.inventoryItemId := Undefined; Page.locationId := Undefined |}.

Definition catalogue : list Page.Product :=
  [{| Page.productId := "gid://shopify/Product/1";
      Page.variants := [shirt_small; shirt_large] |};
   {| Page.productId := "gid://shopify/Product/2"; Page.variants := [gift_card] |}].

Definition edits : Page.Changes :=
  Page.handleQuantityChange
    (Page.handleQuantityChange
       (Page.handleQuantityChange [] "gid://shopify/ProductVariant/1" "9")
       "gid://shopify/ProductVariant/2" "7")
    "gid://shopify/ProductVariant/3" "5".

Definition third_page : Page.View :=
  {| Page.searchValue := "shirt"; Page.endCursor := Some "c3";
     Page.cursorStack := ["c1"; "c2"] |}.

(** Nothing is pending and [timeout] is [null], or one timeout is pending
    and [timeout] holds its id. *)
Definition idle_or_waiting {A : Type} (s : Debounce.State A) : Prop :=
  (Debounce.timeout s = None /\ Debounce.pending s = [])
  \/ (exists p, Debounce.timeout s = Some (Debounce.timer p)
                /\ Debounce.pending s = [p]
                /\ Debounce.timer p < Debounce.next s).

(** The same at the time [c] of the latest call, the pending timeout
    being due [wait] later. *)
Definition waiting_since {A : Type} (wait c : Z) (s : Debounce.State A) : Prop :=
  Debounce.clock s = c
  /\ ((Debounce.timeout s = None /\ Debounce.pending s = [])
      \/ (exists p, Debounce.timeout s = Some (Debounce.timer p)
                    /\ Debounce.pending s = [p]
                    /\ Debounce.due p = c + wait)).

(** A burst of searches. *)
Definition typing : list (Z * string) :=
  [(0, "s"); (120, "sh"); (260, "shi"); (900, "shir"); (1000, "shirt")].

(* ================================================================== *)
(** * The loyalty manager: listing customers                           *)
(* ================================================================== *)

Module Listing.
Import Js Lang.

Section Loader.

(** [Date.prototype.toISOString], of a time. *)
Variable toISOString : Z -> string.

(** What the loader keeps of a ledger row in [pointsMap]. *)
Record Points : Type := {
  points : number;
  updatedAt : string
}.

(** [pointsMap]: an object that starts as [{}].  Its own properties, and
    the object an assignment to ["__proto__"] has made its prototype, if
    there was one. *)
Record PointsMap : Type := {
  own : list (string * Points);
  prototype : option Points
}.

(** What reading a property of [pointsMap] can yield. *)
Variant Member : Type :=
| Entry (p : Points)
| Balance (x : number)
| Stamp (s : string)
| Inherited
| Missing.

Fixpoint put (l : list (string * Points)) (k : string) (p : Points)
  : list (string * Points) :=
  match l with
  | [] => [(k, p)]
  | (k', p') :: rest =>
      if (k' =? k)%string then (k, p) :: rest else (k', p') :: put rest k p
  end.

(** [acc[k] = p]: the setter of ["__proto__"] makes [p] the prototype;
    any other key becomes an own property. *)
Definition assign (acc : PointsMap) (k : string) (p : Points) : PointsMap :=
  if (k =? "__proto__")%string
  then {| own := own acc; prototype := Some p |}
  else {| own := put (own acc) k p; prototype := prototype acc |}.

(** The other names of [Object.prototype]: its methods. *)
Definition method (k : string) : bool :=
  existsb (String.eqb k)
    ["constructor"; "hasOwnProperty"; "isPrototypeOf"; "propertyIsEnumerable";
     "toLocaleString"; "toString"; "valueOf"; "__defineGetter__";
     "__defineSetter__"; "__lookupGetter__"; "__lookupSetter__"].

(** [pointsMap[k]]: the own property; else what the prototype chain
    gives: the [points] and [updatedAt] of a prototype that was set, the
    prototype itself under ["__proto__"], a method of
    [Object.prototype]; else [undefined]. *)
Definition lookup (m : PointsMap) (k : string) : Member :=
  match find (fun kp => (fst kp =? k)%string) (own m) with
  | Some (_, p) => Entry p
  | None =>
      match prototype m with
      | Some p =>
          if (k =? "points")%string then Balance (points p)
          else if (k =? "updatedAt")%string then Stamp (updatedAt p)
          else if (k =? "__proto__")%string then Entry p
          else if method k then Inherited else Missing
      | None =>
          if ((k =? "__proto__")%string || method k)%bool then Inherited else Missing
      end
  end.

Definition member_truthy (x : Member) : bool :=
  match x with
  | Entry _ | Inherited => true
  | Balance n => truthy (Num n)
  | Stamp s => truthy (Str s)
  | Missing => false
  end.

(** [x?.points || 0] and [x?.updatedAt || new Date().toISOString()]. *)
Definition points_or_zero (x : Member) : number :=
  match x with
  | Entry p => if truthy (Num (points p)) then points p else pos_zero
  | _ => pos_zero
  end.

Definition stamp_or_now (x : Member) (now : Z) : string :=
  match x with
  | Entry p => if truthy (Str (updatedAt p)) then updatedAt p else toISOString now
  | _ => toISOString now
  end.

(** The [reduce] over the rows. *)
Definition points_map (loyaltyPoints : list Db.LoyaltyPoints) : PointsMap :=
  fold_left
    (fun acc curr =>
       assign acc (Db.customerId curr)
         {| points := of_Z (Db.points curr);
            updatedAt := toISOString (Db.updatedAt curr) |})
    loyaltyPoints {| own := []; prototype := None |}.

(** [s.replace(pattern, "")]: the first occurrence of [pattern] in [s] is
    cut out. *)
Fixpoint drop (n : nat) (s : string) : string :=
  match n, s with
  | S n', String _ rest => drop n' rest
  | _, _ => s
  end.

Fixpoint cut_first (pattern s : string) : string :=
  if String.prefix pattern s then drop (String.length pattern) s
  else match s with
       | String c rest => String c (cut_first pattern rest)
       | EmptyString => s
       end.

(** [l.join(separator)] of strings. *)
Fixpoint join (separator : string) (l : list string) : string :=
  match l with
  | [] => ""
  | [s] => s
  | s :: rest => s ++ separator ++ join separator rest
  end.

Definition customer_filter (customerIds : list string) : string :=
  join " OR "
    (map (fun id => "id:" ++ cut_first "gid://shopify/Customer/" id) customerIds).

(** The variables of the customers query. *)
Record Variables : Type := {
  first : Z;
  after : option string;
  query : string
}.

(** What the API answers: the [customers] of [data], with the [id],
    [email] and [displayName] of each node, and [pageInfo]. *)
Record Node : Type := {
  id : string;
  email : value;
  displayName : value
}.

Record Customers : Type := {
  nodes : list Node;
  pageInfo : value
}.

Record CustomerWithPoints : Type := {
  customer : string;
  customerEmail : value;
  customerName : value;
  customerPoints : number;
  customerUpdatedAt : string
}.

Record LoaderData : Type := {
  customers : list CustomerWithPoints;
  page : value;
  searchTerm : string
}.

(** The loader returns, or asks the API and goes on with its answer:
    [None] for a response without [data], whose destructuring throws. *)
Variant Step : Type :=
| Return (data : LoaderData)
| Ask (variables : Variables) (resume : Error + option Customers -> Error + LoaderData).

Definition no_data : Error :=
  {| message := "Cannot destructure property 'customers' of 'responseJson.data'" |}.

Definition with_points (pointsMap : PointsMap) (now : Z) (node : Node)
  : CustomerWithPoints :=
  {| customer := id node;
     customerEmail := email node;
     customerName := or_else (displayName node) (email node);
     customerPoints := points_or_zero (lookup pointsMap (id node));
     customerUpdatedAt := stamp_or_now (lookup pointsMap (id node)) now |}.

(** The loader.  [cursor] and [term] are what [searchParams.get] yields,
    [loyaltyPoints] what [findMany] resolves to, and [now] the time. *)
Definition loader (cursor term : option string) (loyaltyPoints : list Db.LoyaltyPoints)
    (now : Z) : Step :=
  let searchTerm := match term with Some s => s | None => "" end in
  if Z.of_nat (List.length loyaltyPoints) =? 0
  then Return {| customers := [];
                 page := Obj [("hasNextPage", Bool false)];
                 searchTerm := searchTerm |}
  else
    let pointsMap := points_map loyaltyPoints in
    let customerIds := map Db.customerId loyaltyPoints in
    Ask {| first := 50;
           after := match cursor with
                    | Some c => if truthy (Str c) then Some c else None
                    | None => None
                    end;
           query := if truthy (Str searchTerm) then searchTerm
                    else customer_filter customerIds |}
        (fun answer =>
           match answer with
           | inl e => inl e
           | inr None => inl no_data
           | inr (Some found) =>
               inr {| customers :=
                        map (with_points pointsMap now)
                          (filter (fun node => member_truthy (lookup pointsMap (id node)))
                             (nodes found));
                      page := pageInfo found;
                      searchTerm := searchTerm |}
           end).

End Loader.

End Listing.

(* ================================================================== *)
(** * What the properties of the listing speak of                      *)
(* ================================================================== *)

Definition customer_prefix : string := "gid://shopify/Customer/".

(** What [pointsMap] holds for a ledger row. *)
Definition points_of (toISOString : Z -> string) (r : LoyaltyPoints) : Listing.Points :=
  {| Listing.points := of_Z (points r);
     Listing.updatedAt := toISOString (updatedAt r) |}.

(** Whether the ledger has a row of customer [k]. *)
Definition in_ledger (rows : list LoyaltyPoints) (k : string) : bool :=
  existsb (is_customer k) rows.

(** An id that is no name an empty object inherits; the ids of the API,
    gid://shopify/Customer/n, are such. *)
Definition plain_id (k : string) : bool :=
  negb (Listing.method k) && negb (k =? "__proto__")%string.

(** A stand-in for [toISOString] in the samples. *)
Definition sample_stamp (t : Z) : string := "T" ++ decimal_string t.

Definition ann : Listing.Node :=
  {| Listing.id := "gid://shopify/Customer/1"; Listing.email := Str "ann@example.com";
     Listing.displayName := Str "Ann" |}.

Definition bob : Listing.Node :=
  {| Listing.id := "gid://shopify/Customer/2"; Listing.email := Str "bob@example.com";
     Listing.displayName := Null |}.

Definition gid_ledger : list LoyaltyPoints :=
  [{| customerId := "gid://shopify/Customer/1"; points := 12; updatedAt := 40 |};
   {| customerId := "gid://shopify/Customer/7"; points := 0; updatedAt := 30 |}].

Definition found_customers : Listing.Customers :=
  {| Listing.nodes := [bob; ann]; Listing.pageInfo := Obj [("hasNextPage", Bool false)] |}.

(* ================================================================== *)
(** * Proof steps that recur                                           *)
(* ================================================================== *)

(** Split on what the world answers to the next statement. *)
Ltac next_answer w :=
  match goal with
  | |- context [answer w ?q ?s] =>
      let r := fresh "r" in
      let s' := fresh "s" in
      destruct (answer w q s) as [r s']
  end.

(** A run that has ended: name its response, final state and log. *)
Ltac ended := do 3 eexists; split; [reflexivity|].

(** Every rejection in an explicit log is the one the response carries. *)
Ltac rejections :=
  let Hin := fresh "Hin" in
  intros ? ? Hin;
  repeat (destruct Hin as [Hin|Hin]);
  try contradiction; try discriminate Hin;
  inversion Hin; subst; split; reflexivity.

(** A response that is not the one a hypothesis equates it with. *)
Ltac absurd_response :=
  let H := fresh "H" in intros H; inversion H.

(* ================================================================== *)
(** * Binary64 arithmetic                                              *)
(* ================================================================== *)

Section Binary64.

(** The number of bits of a mantissa. *)
Lemma digits2_pos_bounds (m : positive) :
  2 ^ (Z.pos (digits2_pos m) - 1) <= Z.pos m < 2 ^ Z.pos (digits2_pos m).
Proof.
  induction m as [m IH|m IH|]; cbn [digits2_pos].
  - rewrite Pos2Z.inj_succ.
    replace (Z.succ (Z.pos (digits2_pos m)) - 1)
      with (Z.succ (Z.pos (digits2_pos m) - 1)) by lia.
    rewrite !Z.pow_succ_r by lia. lia.
  - rewrite Pos2Z.inj_succ.
    replace (Z.succ (Z.pos (digits2_pos m)) - 1)
      with (Z.succ (Z.pos (digits2_pos m) - 1)) by lia.
    rewrite !Z.pow_succ_r by lia. lia.
  - simpl. lia.
Qed.

Lemma digits2_pos_unique (m : positive) (d : Z) :
  2 ^ (d - 1) <= Z.pos m < 2 ^ d -> Z.pos (digits2_pos m) = d.
Proof.
  intros [H1 H2]. pose proof (digits2_pos_bounds m) as [B1 B2].
  set (d' := Z.pos (digits2_pos m)) in *.
  assert (0 < d') by (unfold d'; lia).
  assert (0 < d).
  { destruct (Z.ltb_spec 0 d); [assumption|].
    exfalso. assert (2 ^ d <= 2 ^ 0) by (apply Z.pow_le_mono_r; lia). simpl in *. lia. }
  destruct (Z.lt_trichotomy d d') as [L|[E|L]]; [|exact (eq_sym E)|].
  - exfalso. assert (2 ^ d <= 2 ^ (d' - 1)) by (apply Z.pow_le_mono_r; lia). lia.
  - exfalso. assert (2 ^ d' <= 2 ^ (d - 1)) by (apply Z.pow_le_mono_r; lia). lia.
Qed.

Lemma iter_xO (m d : positive) : Z.pos (Pos.iter xO m d) = Z.pos m * 2 ^ Z.pos d.
Proof.
  revert m. induction d as [|d IH] using Pos.peano_ind; intros m.
  - simpl. lia.
  - rewrite Pos.iter_succ, Pos2Z.inj_succ, Z.pow_succ_r by lia.
    rewrite Pos2Z.inj_xO, IH. lia.
Qed.

(** Aligning a mantissa to a smaller exponent multiplies it. *)
Lemma shl_align_spec (m : positive) (e e' : Z) :
  let '(m', e0) := shl_align m e e' in
  e0 = Z.min e e' /\ Z.pos m' = Z.pos m * 2 ^ (e - e0).
Proof.
  unfold shl_align. destruct (e' - e) as [|d|d] eqn:E.
  - split; [lia|]. replace (e - e) with 0 by lia. simpl. lia.
  - split; [lia|]. replace (e - e) with 0 by lia. simpl. lia.
  - split; [lia|]. rewrite iter_xO. f_equal. f_equal. lia.
Qed.

(** [iter_pos f n] is [n] applications of [f]. *)
Lemma iter_pos_invariant {A : Type} (f : A -> A) (Q : Z -> A -> Prop) :
  (forall k x, 0 <= k -> Q k x -> Q (k + 1) (f x)) ->
  forall (n : positive) (k : Z) (x : A), 0 <= k -> Q k x -> Q (k + Z.pos n) (iter_pos f n x).
Proof.
  intros Hstep. induction n as [n IH|n IH|]; intros k x Hk Hx; cbn [iter_pos].
  - replace (k + Z.pos n~1) with ((k + 1 + Z.pos n) + Z.pos n) by lia.
    apply IH; [lia|]. apply IH; [lia|]. apply Hstep; assumption.
  - replace (k + Z.pos n~0) with ((k + Z.pos n) + Z.pos n) by lia.
    apply IH; [lia|]. apply IH; assumption.
  - apply Hstep; assumption.
Qed.

Lemma shr_1_spec (mrs : shr_record) :
  0 <= shr_m mrs ->
  shr_m (shr_1 mrs) = shr_m mrs / 2
  /\ (lost (shr_1 mrs) = false <-> (lost mrs = false /\ shr_m mrs mod 2 = 0)).
Proof.
  destruct mrs as [m r s]. unfold lost. cbn [shr_m shr_r shr_s]. intros Hm.
  destruct m as [|[p|p|]|p]; cbn [shr_1 shr_m shr_r shr_s]; try lia.
  - split; [reflexivity|]. destruct r, s; simpl; intuition congruence.
  - split.
    + rewrite Pos2Z.inj_xI. apply Z.div_unique with 1; lia.
    + rewrite Pos2Z.inj_xI.
      replace ((2 * Z.pos p + 1) mod 2) with 1
        by (apply Z.mod_unique with (Z.pos p); lia).
      destruct r, s; simpl; intuition (congruence || lia).
  - split.
    + rewrite Pos2Z.inj_xO. apply Z.div_unique with 0; lia.
    + rewrite Pos2Z.inj_xO.
      replace ((2 * Z.pos p) mod 2) with 0
        by (apply Z.mod_unique with (Z.pos p); lia).
      destruct r, s; simpl; intuition (congruence || lia).
  - split; [reflexivity|].
    replace (1 mod 2) with 1 by reflexivity.
    destruct r, s; simpl; intuition (congruence || lia).
Qed.

Lemma shr_iter_spec (m : Z) (r s : bool) (n : positive) :
  0 <= m ->
  let mrs := iter_pos shr_1 n {| shr_m := m; shr_r := r; shr_s := s |} in
  shr_m mrs = m / 2 ^ Z.pos n
  /\ (lost mrs = false <-> (r || s = false /\ m mod 2 ^ Z.pos n = 0)).
Proof.
  intros Hm.
  pose (init := {| shr_m := m; shr_r := r; shr_s := s |}).
  pose (Q := fun (k : Z) (x : shr_record) =>
               0 <= shr_m x /\ shr_m x = m / 2 ^ k
               /\ (lost x = false <-> (lost init = false /\ m mod 2 ^ k = 0))).
  assert (H : Q (0 + Z.pos n) (iter_pos shr_1 n init)).
  { apply iter_pos_invariant.
    - intros k x Hk (H0 & H1 & H2).
      destruct (shr_1_spec x H0) as [S1 S2].
      assert (P : 0 < 2 ^ k) by (apply Z.pow_pos_nonneg; lia).
      split; [rewrite S1; apply Z.div_pos; lia|].
      split.
      + rewrite S1, H1, Z.div_div by lia. f_equal.
        rewrite Z.pow_add_r by lia. reflexivity.
      + rewrite S2, H2, H1.
        rewrite (Z.pow_add_r 2 k 1) by lia. change (2 ^ 1) with 2.
        rewrite Z.rem_mul_r by lia.
        pose proof (Z.mod_pos_bound m (2 ^ k) P).
        pose proof (Z.mod_pos_bound (m / 2 ^ k) 2 ltac:(lia)).
        split.
        * intros [[A B] C]. split; [exact A|]. rewrite B, C. lia.
        * intros [A B]. split; [split; [exact A|]|]; nia.
    - lia.
    - unfold Q, init. cbn [shr_m]. rewrite Z.pow_0_r, Z.div_1_r, Z.mod_1_r. tauto. }
  destruct H as (_ & H1 & H2). split; [exact H1|exact H2].
Qed.

(** [shr] from an exact record. *)
Lemma shr_exact_spec (m e n : Z) :
  0 <= m -> 0 <= n ->
  let '(mrs, e') := shr {| shr_m := m; shr_r := false; shr_s := false |} e n in
  e' = e + n /\ shr_m mrs = m / 2 ^ n
  /\ (lost mrs = false <-> m mod 2 ^ n = 0).
Proof.
  intros Hm Hn. unfold shr. destruct n as [|p|p]; try lia.
  - split; [lia|]. cbn [shr_m]. rewrite Z.pow_0_r, Z.div_1_r, Z.mod_1_r.
    split; [reflexivity|]. unfold lost. simpl. tauto.
  - split; [reflexivity|].
    destruct (shr_iter_spec m false false p Hm) as [H1 H2].
    split; [exact H1|]. rewrite H2. simpl. tauto.
Qed.

Lemma shr_nonpos (mrs : shr_record) (e n : Z) : n <= 0 -> shr mrs e n = (mrs, e).
Proof. destruct n; try reflexivity. lia. Qed.

(** Rounding the shifted mantissa to nearest, ties to even. *)
Lemma round_nearest_even_bounds (mrs : shr_record) :
  let mr := round_nearest_even (shr_m mrs) (loc_of_shr_record mrs) in
  shr_m mrs <= mr <= shr_m mrs + 1 /\ (lost mrs = false -> mr = shr_m mrs).
Proof.
  destruct mrs as [m [|] [|]]; unfold lost; cbn;
    try (split; [lia|]; intros; try discriminate; reflexivity).
  destruct (Z.even m); split; try lia; intros; discriminate.
Qed.

Lemma fexp_unfold (d : Z) : fexp 53 1024 d = Z.max (d - 53) (-1074).
Proof. reflexivity. Qed.

Lemma digits2_pos_le (p : positive) (k : Z) :
  0 <= k -> Z.pos p < 2 ^ k -> Z.pos (digits2_pos p) <= k.
Proof.
  intros Hk H. pose proof (digits2_pos_bounds p) as [B _].
  destruct (Z.leb_spec (Z.pos (digits2_pos p)) k) as [L|L]; [exact L|].
  exfalso. assert (2 ^ k <= 2 ^ (Z.pos (digits2_pos p) - 1)) by (apply Z.pow_le_mono_r; lia).
  lia.
Qed.

Lemma binary_round_aux_exact (s : bool) (mz : positive) (e0 : Z) :
  let E := fexp 53 1024 (Z.pos (digits2_pos mz) + e0) in
  e0 <= E ->
  exists mr : Z,
    binary_round_aux 53 1024 s (Z.pos mz) e0 loc_Exact = pack s mr E
    /\ Z.pos mz / 2 ^ (E - e0) <= mr <= Z.pos mz / 2 ^ (E - e0) + 1
    /\ (Z.pos mz mod 2 ^ (E - e0) = 0 -> mr = Z.pos mz / 2 ^ (E - e0))
    /\ mr <= 2 ^ 53.
Proof.
  intros E HE.
  unfold binary_round_aux, shr_fexp.
  cbn [Zdigits2 shr_record_of_loc]. fold E.
  pose proof (shr_exact_spec (Z.pos mz) e0 (E - e0) ltac:(lia) ltac:(lia)) as H1.
  destruct (shr _ e0 (E - e0)) as [mrs' e'].
  destruct H1 as (He' & Hm1 & Hl1).
  assert (He : e' = E) by lia. clear He'. subst e'.
  pose proof (round_nearest_even_bounds mrs') as [Hb Hx].
  set (mr := round_nearest_even (shr_m mrs') (loc_of_shr_record mrs')) in *.
  rewrite Hm1 in Hb, Hx.
  set (fl := Z.pos mz / 2 ^ (E - e0)) in *.
  assert (P : 0 < 2 ^ (E - e0)) by (apply Z.pow_pos_nonneg; lia).
  assert (Hfl0 : 0 <= fl) by (apply Z.div_pos; lia).
  assert (Hfl : fl < 2 ^ 53).
  { apply Z.div_lt_upper_bound; [exact P|].
    pose proof (digits2_pos_bounds mz) as [_ B].
    rewrite <- Z.pow_add_r by lia.
    eapply Z.lt_le_trans; [exact B|]. apply Z.pow_le_mono_r; [lia|].
    unfold E. rewrite fexp_unfold. lia. }
  exists mr. split; [|split; [exact Hb|split; [|lia]]].
  2:{ intros H0. apply Hx, Hl1, H0. }
  assert (EE : -1074 <= E) by (unfold E; rewrite fexp_unfold; lia).
  destruct mr as [|p|p] eqn:Hmr; [| |lia].
  - cbn [Zdigits2]. rewrite shr_nonpos by (rewrite fexp_unfold; lia).
    reflexivity.
  - cbn [Zdigits2]. unfold pack.
    destruct (Z.ltb_spec (Z.pos p) (2 ^ 53)) as [L|L].
    + pose proof (digits2_pos_le p 53 ltac:(lia) L).
      rewrite shr_nonpos by (rewrite fexp_unfold; lia).
      cbn [shr_m]. reflexivity.
    + assert (Hp : Z.pos p = 2 ^ 53) by lia.
      assert (p = 9007199254740992%positive) by (apply Pos2Z.inj; rewrite Hp; reflexivity).
      subst p. change (Z.pos (digits2_pos 9007199254740992)) with 54.
      replace (fexp 53 1024 (54 + E) - E) with 1 by (rewrite fexp_unfold; lia).
      reflexivity.
Qed.

Lemma digits2_pos_shift (m m' : positive) (k : Z) :
  0 <= k -> Z.pos m' = Z.pos m * 2 ^ k ->
  Z.pos (digits2_pos m') = Z.pos (digits2_pos m) + k.
Proof.
  intros Hk H. apply digits2_pos_unique. rewrite H.
  pose proof (digits2_pos_bounds m) as [B1 B2].
  assert (P : 0 < 2 ^ k) by (apply Z.pow_pos_nonneg; lia).
  replace (Z.pos (digits2_pos m) + k - 1) with (Z.pos (digits2_pos m) - 1 + k) by lia.
  rewrite !Z.pow_add_r by lia. nia.
Qed.

(** Rounding [M·2^ez]: the result is the packed mantissa [mr] at the
    exponent [E] of the magnitude, where [mr] is the exact mantissa at that
    exponent rounded down or up, and untouched when it is an integer. *)
Lemma binary_round_spec (s : bool) (M : positive) (ez : Z) :
  let E := fexp 53 1024 (Z.pos (digits2_pos M) + ez) in
  let e0 := Z.min ez E in
  let mz := Z.pos M * 2 ^ (ez - e0) in
  exists mr : Z,
    binary_round 53 1024 s M ez = pack s mr E
    /\ mz / 2 ^ (E - e0) <= mr <= mz / 2 ^ (E - e0) + 1
    /\ (mz mod 2 ^ (E - e0) = 0 -> mr = mz / 2 ^ (E - e0))
    /\ mr <= 2 ^ 53.
Proof.
  intros E e0 mz. unfold binary_round. fold E.
  pose proof (shl_align_spec M ez E) as H.
  destruct (shl_align M ez E) as [m' e0']. destruct H as [H1 H2].
  fold e0 in H1. subst e0'. fold mz in H2.
  assert (Hd : Z.pos (digits2_pos m') + e0 = Z.pos (digits2_pos M) + ez).
  { rewrite (digits2_pos_shift M m' (ez - e0)); [lia|unfold e0; lia|exact H2]. }
  pose proof (binary_round_aux_exact s m' e0) as H. cbv zeta in H.
  rewrite Hd in H. fold E in H.
  rewrite <- H2. apply H. unfold e0. lia.
Qed.

(** What integer a packed mantissa denotes. *)
Lemma to_integer_pack (s : bool) (mr E z : Z) :
  0 <= mr <= 2 ^ 53 ->
  to_integer (pack s mr E) = Some z ->
  exists zabs, z = cond_Zopp s zabs /\ 0 <= zabs
    /\ (0 <= E -> zabs = mr * 2 ^ E)
    /\ (E < 0 -> mr = zabs * 2 ^ (- E)).
Proof.
  intros Hmr. unfold pack. destruct mr as [|p|p]; [| |lia].
  - simpl. intros H. inversion H. exists 0. destruct s; simpl; repeat split; lia.
  - destruct (Z.ltb_spec (Z.pos p) (2 ^ 53)) as [L|L].
    + destruct (E <=? 971); [|discriminate]. cbn [to_integer].
      destruct (Z.leb_spec 0 E) as [HE|HE].
      * intros H. inversion H. exists (Z.pos p * 2 ^ E).
        assert (0 <= Z.pos p * 2 ^ E)
          by (apply Z.mul_nonneg_nonneg; [lia|apply Z.pow_nonneg; lia]).
        repeat split; lia.
      * destruct (Z.eqb_spec (Z.pos p mod 2 ^ (- E)) 0) as [Hm|Hm]; [|discriminate].
        intros H. inversion H. exists (Z.pos p / 2 ^ (- E)).
        assert (P : 0 < 2 ^ (- E)) by (apply Z.pow_pos_nonneg; lia).
        assert (0 <= Z.pos p / 2 ^ (- E)) by (apply Z.div_pos; lia).
        pose proof (Z.div_mod (Z.pos p) (2 ^ (- E)) ltac:(lia)).
        repeat split; lia.
    + assert (Hp : Z.pos p = 2 ^ 53) by lia. rewrite Hp.
      destruct (E + 1 <=? 971); [|discriminate]. cbn [to_integer].
      change (Z.pos (2 ^ 52)) with (2 ^ 52).
      destruct (Z.leb_spec 0 (E + 1)) as [HE|HE].
      * intros H. inversion H. exists (2 ^ 52 * 2 ^ (E + 1)).
        assert (0 <= 2 ^ 52 * 2 ^ (E + 1))
          by (apply Z.mul_nonneg_nonneg; [lia|apply Z.pow_nonneg; lia]).
        split; [reflexivity|]. split; [assumption|]. split.
        -- intros HE0. replace (E + 1) with (Z.succ E) by lia.
           rewrite Z.pow_succ_r by lia. change (2 ^ 53) with (2 * 2 ^ 52). lia.
        -- intros HE0. assert (E = -1) by lia. subst E. reflexivity.
      * assert (P : 0 < 2 ^ (- (E + 1))) by (apply Z.pow_pos_nonneg; lia).
        destruct (Z.eqb_spec (2 ^ 52 mod 2 ^ (- (E + 1))) 0) as [Hm|Hm]; [|discriminate].
        intros H. inversion H. exists (2 ^ 52 / 2 ^ (- (E + 1))).
        assert (0 <= 2 ^ 52 / 2 ^ (- (E + 1))) by (apply Z.div_pos; lia).
        pose proof (Z.div_mod (2 ^ 52) (2 ^ (- (E + 1))) ltac:(lia)) as DM.
        split; [reflexivity|]. split; [assumption|]. split; [lia|].
        intros _. replace (- E) with (Z.succ (- (E + 1))) by lia.
        rewrite Z.pow_succ_r by lia. change (2 ^ 53) with (2 * 2 ^ 52).
        rewrite Hm in DM. lia.
Qed.

(** A packed mantissa that is a multiple of [2^(-E)] denotes an integer. *)
Lemma to_integer_pack_exact (s : bool) (N E : Z) :
  0 < N -> E <= 0 -> N * 2 ^ (- E) < 2 ^ 53 ->
  to_integer (pack s (N * 2 ^ (- E)) E) = Some (cond_Zopp s N).
Proof.
  intros HN HE Hb.
  assert (P : 0 < 2 ^ (- E)) by (apply Z.pow_pos_nonneg; lia).
  unfold pack. destruct (N * 2 ^ (- E)) as [|p|p] eqn:Hp; try nia.
  destruct (Z.ltb_spec (Z.pos p) (2 ^ 53)) as [L|L]; [|lia].
  destruct (Z.leb_spec E 971) as [L1|L1]; [|lia].
  cbn [to_integer]. destruct (Z.leb_spec 0 E) as [L2|L2].
  - assert (E = 0) by lia. subst E. simpl in Hp. f_equal. f_equal. simpl. lia.
  - rewrite <- Hp, Z.mod_mul by lia. rewrite Z.eqb_refl.
    rewrite Z.div_mul by lia. reflexivity.
Qed.

Lemma pow2_split (a b : Z) : 0 <= a -> 0 <= b -> 2 ^ (a + b) = 2 ^ a * 2 ^ b.
Proof. intros. apply Z.pow_add_r; assumption. Qed.

(** The Number of a nonzero integer below [2^53] is that integer. *)
Lemma of_Z_spec (a : Z) :
  0 < Z.abs a < 2 ^ 53 ->
  exists ma ea,
    of_Z a = S754_finite (a <? 0) ma ea /\ ea <= 0
    /\ Z.pos ma = Z.abs a * 2 ^ (- ea).
Proof.
  intros Ha.
  assert (G : forall (s : bool) (m : positive),
             Z.pos m < 2 ^ 53 ->
             exists ma ea, binary_round 53 1024 s m 0 = S754_finite s ma ea
                           /\ ea <= 0 /\ Z.pos ma = Z.pos m * 2 ^ (- ea)).
  { intros s m Hm.
    destruct (binary_round_spec s m 0) as (mr & R & Hb & Hx & _).
    cbv zeta in *. rewrite fexp_unfold in *.
    pose proof (digits2_pos_le m 53 ltac:(lia) Hm) as Hd.
    pose proof (digits2_pos_bounds m) as [_ B2].
    set (d := Z.pos (digits2_pos m)) in *. assert (0 < d) by (unfold d; lia).
    replace (Z.max (d + 0 - 53) (-1074)) with (d - 53) in * by lia.
    replace (Z.min 0 (d - 53)) with (d - 53) in * by lia.
    replace (d - 53 - (d - 53)) with 0 in * by lia.
    rewrite Z.pow_0_r, Z.div_1_r, Z.mod_1_r in *.
    specialize (Hx eq_refl). subst mr.
    replace (0 - (d - 53)) with (53 - d) in * by lia.
    assert (P : 0 < 2 ^ (53 - d)) by (apply Z.pow_pos_nonneg; lia).
    assert (U : Z.pos m * 2 ^ (53 - d) < 2 ^ 53).
    { replace 53 with (d + (53 - d)) at 2 by lia. rewrite pow2_split by lia. nia. }
    unfold pack in R. destruct (Z.pos m * 2 ^ (53 - d)) as [|q|q] eqn:Q; try nia.
    destruct (Z.ltb_spec (Z.pos q) (2 ^ 53)); [|lia].
    destruct (Z.leb_spec (d - 53) 971); [|lia].
    exists q, (d - 53). split; [exact R|]. split; [lia|].
    replace (- (d - 53)) with (53 - d) by lia. symmetry. exact Q. }
  unfold of_Z, binary_normalize. destruct a as [|m|m]; simpl in Ha; [lia| |].
  - apply G. lia.
  - apply G. lia.
Qed.

(** The sum of two finite Numbers rounds their exact sum. *)
Lemma add_finite (sa : bool) (ma : positive) (ea : Z) (m : positive) (e : Z) :
  let ez := Z.min ea e in
  add (S754_finite sa ma ea) (S754_finite false m e)
  = binary_normalize 53 1024
      (cond_Zopp sa (Z.pos ma * 2 ^ (ea - ez)) + Z.pos m * 2 ^ (e - ez)) ez false.
Proof.
  intros ez. unfold add, SFadd. fold ez.
  pose proof (shl_align_spec ma ea ez) as H1.
  pose proof (shl_align_spec m e ez) as H2.
  destruct (shl_align ma ea ez) as [m1 e1], (shl_align m e ez) as [m2 e2].
  destruct H1 as [E1 M1], H2 as [E2 M2]. cbn [fst cond_Zopp].
  replace e1 with ez in M1 by (unfold ez in *; lia).
  replace e2 with ez in M2 by (unfold ez in *; lia).
  rewrite M1, M2. reflexivity.
Qed.

Lemma to_integer_nonneg (m : positive) (e z : Z) :
  to_integer (S754_finite false m e) = Some z -> 0 <= z.
Proof.
  unfold to_integer, cond_Zopp. destruct (0 <=? e) eqn:E.
  - intros H. assert (Hz : z = Z.pos m * 2 ^ e) by congruence. rewrite Hz.
    apply Z.mul_nonneg_nonneg; [lia|apply Z.pow_nonneg; lia].
  - destruct (_ =? 0); [|discriminate]. intros H.
    assert (Hz : z = Z.pos m / 2 ^ (- e)) by congruence. rewrite Hz.
    apply Z.div_pos; [lia|]. apply Z.pow_pos_nonneg; lia.
Qed.

(** The exact sum, as an integer scaled by [2^(-ez)]. *)
Lemma aligned_sum (a : Z) (ma : positive) (ea : Z) (m : positive) (e : Z) :
  ea <= 0 -> Z.pos ma = Z.abs a * 2 ^ (- ea) ->
  let ez := Z.min ea e in
  cond_Zopp (a <? 0) (Z.pos ma * 2 ^ (ea - ez)) + Z.pos m * 2 ^ (e - ez)
  = a * 2 ^ (- ez) + Z.pos m * 2 ^ (e - ez).
Proof.
  intros Hea Hma ez. f_equal. rewrite Hma, <- Z.mul_assoc, <- pow2_split by lia.
  replace (- ea + (ea - ez)) with (- ez) by lia.
  unfold cond_Zopp. destruct (Z.ltb_spec a 0); lia.
Qed.

(** Adding a positive Number to the Number of a 32-bit integer never
    yields an integer below it. *)
Lemma add_positive_monotone (a : Z) (m : positive) (e z : Z) :
  Z.abs a <= 2 ^ 31 ->
  to_integer (add (of_Z a) (S754_finite false m e)) = Some z ->
  a <= z.
Proof.
  intros Ha.
  destruct (Z.eq_dec a 0) as [->|Na].
  { intros H. apply to_integer_nonneg in H. exact H. }
  destruct (of_Z_spec a ltac:(lia)) as (ma & ea & -> & Hea & Hma).
  rewrite add_finite. cbv zeta. rewrite (aligned_sum a ma ea m e Hea Hma).
  set (ez := Z.min ea e). assert (Hez : ez <= 0) by (unfold ez; lia).
  set (T := 2 ^ (- ez)). set (Pm := Z.pos m * 2 ^ (e - ez)).
  assert (HT : 0 < T) by (apply Z.pow_pos_nonneg; lia).
  assert (HP : 0 < Pm).
  { apply Z.mul_pos_pos; [lia|]. apply Z.pow_pos_nonneg; [lia|unfold ez; lia]. }
  unfold binary_normalize.
  destruct (a * T + Pm) as [|M|M] eqn:HS.
  - cbn. intros H. injection H as <-. nia.
  - destruct (binary_round_spec false M ez) as (mr & -> & Hb & _ & Hu).
    cbv zeta in Hb. rewrite fexp_unfold in *.
    set (E := Z.max (Z.pos (digits2_pos M) + ez - 53) (-1074)) in *.
    set (e0 := Z.min ez E) in *.
    assert (P0 : 0 < 2 ^ (E - e0)) by (apply Z.pow_pos_nonneg; unfold e0; lia).
    assert (P1 : 0 < 2 ^ (ez - e0)) by (apply Z.pow_pos_nonneg; unfold e0; lia).
    assert (Hfl : 0 <= Z.pos M * 2 ^ (ez - e0) / 2 ^ (E - e0))
      by (apply Z.div_pos; nia).
    intros H. apply to_integer_pack in H; [|lia].
    destruct H as (zabs & -> & Hz & H1 & H2). cbn [cond_Zopp].
    destruct (Z.ltb_spec a 0) as [Neg|Pos]; [lia|].
    destruct (Z.ltb_spec E 0) as [EN|EP].
    + specialize (H2 EN).
      assert (PE : 0 < 2 ^ (- E)) by (apply Z.pow_pos_nonneg; lia).
      assert (L : a * 2 ^ (- E) <= Z.pos M * 2 ^ (ez - e0) / 2 ^ (E - e0)).
      { apply Z.div_le_lower_bound; [exact P0|].
        rewrite Z.mul_comm, <- Z.mul_assoc, <- pow2_split by (unfold e0; lia).
        replace (- E + (E - e0)) with (- ez + (ez - e0)) by lia.
        rewrite pow2_split by (unfold e0; lia). fold T. nia. }
      nia.
    + specialize (H1 EP).
      assert (He0 : e0 = ez) by (unfold e0; lia). rewrite He0 in *.
      replace (ez - ez) with 0 in * by lia. rewrite Z.pow_0_r, Z.mul_1_r in *.
      pose proof (digits2_pos_bounds M) as [B1 _].
      set (d := Z.pos (digits2_pos M)) in *.
      assert (HE : E = d + ez - 53) by (unfold E; lia).
      assert (L : 2 ^ 52 <= Z.pos M / 2 ^ (E - ez)).
      { apply Z.div_le_lower_bound; [exact P0|].
        rewrite <- pow2_split by lia. replace (E - ez + 52) with (d - 1) by lia.
        exact B1. }
      assert (PE : 1 <= 2 ^ E) by (apply (Z.pow_le_mono_r 2 0 E); lia).
      assert (a < 2 ^ 52) by (assert (2 ^ 31 < 2 ^ 52) by reflexivity; lia).
      nia.
  - destruct (binary_round_spec true M ez) as (mr & -> & Hb & _ & Hu).
    cbv zeta in Hb. rewrite fexp_unfold in *.
    set (E := Z.max (Z.pos (digits2_pos M) + ez - 53) (-1074)) in *.
    set (e0 := Z.min ez E) in *.
    assert (P0 : 0 < 2 ^ (E - e0)) by (apply Z.pow_pos_nonneg; unfold e0; lia).
    assert (P1 : 0 < 2 ^ (ez - e0)) by (apply Z.pow_pos_nonneg; unfold e0; lia).
    assert (Hfl : 0 <= Z.pos M * 2 ^ (ez - e0) / 2 ^ (E - e0))
      by (apply Z.div_pos; nia).
    intros H. apply to_integer_pack in H; [|lia].
    destruct H as (zabs & -> & Hz & H1 & H2). cbn [cond_Zopp].
    assert (Neg : a < 0) by nia.
    assert (HM : Z.pos M < Z.abs a * T) by nia.
    assert (Hd : Z.pos (digits2_pos M) <= 31 - ez).
    { apply digits2_pos_le; [lia|]. replace (31 - ez) with (31 + (- ez)) by lia.
      rewrite pow2_split by lia. fold T. nia. }
    assert (EN : E < 0) by (unfold E; lia).
    specialize (H2 EN).
    assert (PE : 0 < 2 ^ (- E)) by (apply Z.pow_pos_nonneg; lia).
    assert (U : Z.pos M * 2 ^ (ez - e0) / 2 ^ (E - e0) < Z.abs a * 2 ^ (- E)).
    { apply Z.div_lt_upper_bound; [exact P0|].
      rewrite (Z.mul_comm (2 ^ (E - e0))), <- Z.mul_assoc, <- pow2_split
        by (unfold e0; lia).
      replace (- E + (E - e0)) with (- ez + (ez - e0)) by lia.
      rewrite pow2_split by (unfold e0; lia). fold T. nia. }
    nia.
Qed.

(** Rounding an integer below [2^53] is exact. *)
Lemma round_exact_integer (s : bool) (N M : positive) (ez : Z) :
  ez <= 0 -> Z.pos N < 2 ^ 53 -> Z.pos M = Z.pos N * 2 ^ (- ez) ->
  to_integer (binary_round 53 1024 s M ez) = Some (cond_Zopp s (Z.pos N)).
Proof.
  intros Hez HN HM.
  destruct (binary_round_spec s M ez) as (mr & -> & _ & Hx & _).
  cbv zeta in Hx. rewrite fexp_unfold in *.
  rewrite (digits2_pos_shift N M (- ez) ltac:(lia) HM) in *.
  pose proof (digits2_pos_le N 53 ltac:(lia) HN) as Hd.
  pose proof (digits2_pos_bounds N) as [_ B2].
  set (d := Z.pos (digits2_pos N)) in *. assert (0 < d) by (unfold d; lia).
  replace (Z.max (d + - ez + ez - 53) (-1074)) with (d - 53) in * by lia.
  set (E := d - 53) in *. set (e0 := Z.min ez E) in *.
  assert (Hmz : Z.pos M * 2 ^ (ez - e0) = Z.pos N * 2 ^ (- E) * 2 ^ (E - e0)).
  { rewrite HM, <- !Z.mul_assoc, <- !pow2_split by (unfold e0, E; lia).
    f_equal; f_equal; lia. }
  assert (P0 : 0 < 2 ^ (E - e0)) by (apply Z.pow_pos_nonneg; unfold e0; lia).
  rewrite Hmz, Z.mod_mul, Z.div_mul in Hx by lia.
  rewrite (Hx eq_refl).
  apply to_integer_pack_exact; [lia|unfold E; lia|].
  unfold E. replace (- (d - 53)) with (53 - d) by lia.
  assert (P : 0 < 2 ^ (53 - d)) by (apply Z.pow_pos_nonneg; lia).
  replace 53 with (d + (53 - d)) at 2 by lia. rewrite pow2_split by lia. nia.
Qed.

(** The mantissa of an integral positive Number, aligned. *)
Lemma aligned_integer (m : positive) (e b ez : Z) :
  to_integer (S754_finite false m e) = Some b -> ez <= e -> ez <= 0 ->
  Z.pos m * 2 ^ (e - ez) = b * 2 ^ (- ez).
Proof.
  unfold to_integer, cond_Zopp. intros H He Hz.
  destruct (Z.leb_spec 0 e) as [L|L].
  - assert (Hb : b = Z.pos m * 2 ^ e) by congruence. rewrite Hb.
    rewrite <- Z.mul_assoc, <- pow2_split by lia. f_equal; f_equal; lia.
  - destruct (Z.eqb_spec (Z.pos m mod 2 ^ (- e)) 0) as [Hm|Hm]; [|discriminate].
    assert (Hb : b = Z.pos m / 2 ^ (- e)) by congruence.
    assert (P : 0 < 2 ^ (- e)) by (apply Z.pow_pos_nonneg; lia).
    pose proof (Z.div_mod (Z.pos m) (2 ^ (- e)) ltac:(lia)) as DM.
    rewrite Hm, <- Hb in DM.
    replace (- ez) with (- e + (e - ez)) by lia. rewrite pow2_split by lia.
    nia.
Qed.

(** Adding an integral positive Number to the Number of a 32-bit integer
    is exact as long as the sum stays below [2^53]. *)
Lemma add_integers_exact (a b : Z) (m : positive) (e : Z) :
  Z.abs a <= 2 ^ 31 ->
  to_integer (S754_finite false m e) = Some b ->
  Z.abs (a + b) < 2 ^ 53 ->
  to_integer (add (of_Z a) (S754_finite false m e)) = Some (a + b).
Proof.
  intros Ha Hb Hab.
  destruct (Z.eq_dec a 0) as [->|Na].
  { exact Hb. }
  destruct (of_Z_spec a ltac:(lia)) as (ma & ea & -> & Hea & Hma).
  rewrite add_finite. cbv zeta. rewrite (aligned_sum a ma ea m e Hea Hma).
  set (ez := Z.min ea e). assert (Hez : ez <= 0) by (unfold ez; lia).
  rewrite (aligned_integer m e b ez Hb ltac:(unfold ez; lia) Hez).
  rewrite <- Z.mul_add_distr_r.
  assert (HT : 0 < 2 ^ (- ez)) by (apply Z.pow_pos_nonneg; lia).
  unfold binary_normalize.
  destruct (a + b) as [|N|N] eqn:Hc.
  - reflexivity.
  - destruct (Z.pos N * 2 ^ (- ez)) as [|M|M] eqn:HM; try nia.
    apply (round_exact_integer false N M ez); [exact Hez|lia|congruence].
  - destruct (Z.neg N * 2 ^ (- ez)) as [|M|M] eqn:HM; try nia.
    apply (round_exact_integer true N M ez); [exact Hez|lia|].
    change (Z.neg N) with (- Z.pos N) in HM. change (Z.neg M) with (- Z.pos M) in HM. lia.
Qed.

(** [shr] from any record: the mantissa is divided. *)
Lemma shr_m_spec (m : Z) (r s : bool) (e n : Z) :
  0 <= m ->
  let '(mrs, e') := shr {| shr_m := m; shr_r := r; shr_s := s |} e n in
  e' = e + Z.max n 0 /\ shr_m mrs = m / 2 ^ (Z.max n 0).
Proof.
  intros Hm. unfold shr. destruct n as [|p|p].
  - cbn [shr_m]. rewrite Z.div_1_r. split; [lia|reflexivity].
  - destruct (shr_iter_spec m r s p Hm) as [H1 _]. split; [lia|exact H1].
  - cbn [shr_m]. change (Z.max (Z.neg p) 0) with 0. rewrite Z.div_1_r.
    split; [lia|reflexivity].
Qed.

(** Every rounding of a nonnegative mantissa is a packed mantissa of at
    most 53 bits, with the sign it was given. *)
Lemma binary_round_aux_pack (s : bool) (mx ex : Z) (lx : location) :
  0 <= mx ->
  exists mr E, binary_round_aux 53 1024 s mx ex lx = pack s mr E
               /\ 0 <= mr <= 2 ^ 53.
Proof.
  intros Hmx. unfold binary_round_aux, shr_fexp.
  set (E := fexp 53 1024 (Zdigits2 mx + ex)).
  assert (EE : -1074 <= E) by (unfold E; rewrite fexp_unfold; lia).
  assert (Hrec : exists r0 s0, shr_record_of_loc mx lx
                               = {| shr_m := mx; shr_r := r0; shr_s := s0 |}).
  { destruct lx as [|[| |]]; simpl; eauto. }
  destruct Hrec as (r0 & s0 & ->).
  pose proof (shr_m_spec mx r0 s0 ex (E - ex) Hmx) as H1.
  destruct (shr _ ex (E - ex)) as [mrs' e'].
  destruct H1 as (He' & Hm1).
  pose proof (round_nearest_even_bounds mrs') as [Hb _].
  set (mr := round_nearest_even (shr_m mrs') (loc_of_shr_record mrs')) in *.
  rewrite Hm1 in Hb.
  set (n := Z.max (E - ex) 0) in *.
  assert (P : 0 < 2 ^ n) by (apply Z.pow_pos_nonneg; unfold n; lia).
  assert (Hfl0 : 0 <= mx / 2 ^ n) by (apply Z.div_pos; lia).
  assert (Hfl : mx / 2 ^ n < 2 ^ 53).
  { apply Z.div_lt_upper_bound; [exact P|].
    destruct mx as [|p|p]; [nia| |lia].
    pose proof (digits2_pos_bounds p) as [_ B].
    rewrite <- Z.pow_add_r by (unfold n; lia).
    eapply Z.lt_le_trans; [exact B|]. apply Z.pow_le_mono_r; [lia|].
    unfold n, E. cbn [Zdigits2]. rewrite fexp_unfold. lia. }
  assert (Ee : E <= e') by (unfold n in He'; lia).
  exists mr, e'. split; [|lia].
  destruct mr as [|p|p] eqn:Hmr; [| |lia].
  - cbn [Zdigits2]. rewrite shr_nonpos by (rewrite fexp_unfold; lia).
    reflexivity.
  - cbn [Zdigits2]. unfold pack.
    destruct (Z.ltb_spec (Z.pos p) (2 ^ 53)) as [L|L].
    + pose proof (digits2_pos_le p 53 ltac:(lia) L).
      rewrite shr_nonpos by (rewrite fexp_unfold; lia).
      cbn [shr_m]. reflexivity.
    + assert (Hp : Z.pos p = 2 ^ 53) by lia.
      assert (p = 9007199254740992%positive) by (apply Pos2Z.inj; rewrite Hp; reflexivity).
      subst p. change (Z.pos (digits2_pos 9007199254740992)) with 54.
      replace (fexp 53 1024 (54 + e') - e') with 1 by (rewrite fexp_unfold; lia).
      reflexivity.
Qed.

Lemma pack_wellformed (s : bool) (mr E : Z) : 0 <= mr <= 2 ^ 53 -> wellformed (pack s mr E).
Proof.
  intros H. unfold pack. destruct mr as [|p|p]; [exact I| |exact I].
  destruct (Z.ltb_spec (Z.pos p) (2 ^ 53)) as [L|L].
  - destruct (E <=? 971); [exact L|exact I].
  - destruct (E + 1 <=? 971); [reflexivity|exact I].
Qed.

Lemma pack_sign (s : bool) (mr E : Z) : 0 <= mr -> sign_of (pack s mr E) = Some s.
Proof.
  intros H. unfold pack. destruct mr as [|p|p]; [reflexivity| |lia].
  destruct (Z.pos p <? 2 ^ 53).
  - destruct (E <=? 971); reflexivity.
  - destruct (E + 1 <=? 971); reflexivity.
Qed.

Lemma binary_round_pack (s : bool) (m : positive) (e : Z) :
  exists mr E, binary_round 53 1024 s m e = pack s mr E /\ 0 <= mr <= 2 ^ 53.
Proof.
  unfold binary_round. destruct (shl_align m e _) as [mz ez].
  apply binary_round_aux_pack. lia.
Qed.

(** Dividing a finite Number by a finite Number. *)
Lemma div_finite_pack (s1 : bool) (m1 : positive) (e1 : Z)
    (s2 : bool) (m2 : positive) (e2 : Z) :
  exists mr E, div (S754_finite s1 m1 e1) (S754_finite s2 m2 e2)
               = pack (xorb s1 s2) mr E /\ 0 <= mr <= 2 ^ 53.
Proof.
  unfold div, SFdiv, SFdiv_core_binary.
  set (e' := Z.min _ _). set (m' := match e1 - e2 - e' with 0 => _ | _ => _ end).
  assert (Hm' : 0 <= m').
  { unfold m'. destruct (e1 - e2 - e'); try lia. rewrite Z.shiftl_mul_pow2 by lia.
    apply Z.mul_nonneg_nonneg; [lia|apply Z.pow_nonneg; lia]. }
  pose proof (Z.div_eucl_eq m' (Z.pos m2) ltac:(lia)) as DE.
  pose proof (Z.mod_pos_bound m' (Z.pos m2) ltac:(lia)) as MB.
  unfold Z.modulo in MB.
  destruct (Z.div_eucl m' (Z.pos m2)) as [q r].
  apply binary_round_aux_pack. nia.
Qed.

End Binary64.


(* ================================================================== *)
(** * [Math.floor], signs and the threshold test                       *)
(* ================================================================== *)

Section Threshold.

Lemma ten_eq : of_Z 10 = S754_finite false 5629499534213120 (-49).
Proof. reflexivity. Qed.

Lemma leb_negative (x : number) : sign_of x = Some true -> leb x pos_zero = true.
Proof. destruct x as [[|]|[|]| |[|] m e]; simpl; intros H; try discriminate; reflexivity. Qed.

Lemma leb_false_shape (x : number) :
  leb x pos_zero = false ->
  x = NaN \/ x = Infinity \/ exists m e, x = S754_finite false m e.
Proof.
  destruct x as [[|]|[|]| |[|] m e]; simpl; intros H; try discriminate; eauto.
Qed.

Lemma div_ten_sign (x : number) (s : bool) :
  sign_of x = Some s -> sign_of (div x (of_Z 10)) = Some s.
Proof.
  rewrite ten_eq.
  destruct x as [s0|s0| |s0 m e]; cbn [sign_of]; intros H; try discriminate;
    injection H as <-.
  - simpl. rewrite xorb_false_r. reflexivity.
  - simpl. rewrite xorb_false_r. reflexivity.
  - destruct (div_finite_pack s0 m e false 5629499534213120 (-49)) as (mr & E & -> & Hmr).
    rewrite xorb_false_r. apply pack_sign. lia.
Qed.

Lemma div_ten_wellformed (x : number) : wellformed (div x (of_Z 10)).
Proof.
  rewrite ten_eq. destruct x as [s0|s0| |s0 m e]; try exact I.
  destruct (div_finite_pack s0 m e false 5629499534213120 (-49)) as (mr & E & -> & Hmr).
  apply pack_wellformed, Hmr.
Qed.

Lemma binary_normalize_sign (z : Z) (s : bool) :
  (if s then z <= 0 else 0 <= z) ->
  sign_of (binary_normalize 53 1024 z 0 s) = Some s.
Proof.
  intros H. destruct z as [|p|p]; cbn [binary_normalize].
  - reflexivity.
  - destruct s; [lia|].
    destruct (binary_round_pack false p 0) as (mr & E & -> & Hmr). apply pack_sign. lia.
  - destruct s; [|lia].
    destruct (binary_round_pack true p 0) as (mr & E & -> & Hmr). apply pack_sign. lia.
Qed.

Lemma Math_floor_sign (x : number) (s : bool) :
  sign_of x = Some s -> sign_of (Math_floor x) = Some s.
Proof.
  destruct x as [s0|s0| |s0 m e]; cbn [sign_of Math_floor]; intros H; try exact H.
  destruct (Z.leb_spec 0 e) as [L|L]; [exact H|].
  destruct (Z.pos m mod 2 ^ (- e) =? 0); [exact H|].
  injection H as <-.
  assert (0 <= Z.pos m / 2 ^ (- e))
    by (apply Z.div_pos; [lia|apply Z.pow_pos_nonneg; lia]).
  destruct s0; apply binary_normalize_sign; lia.
Qed.

(** A negative subtotal never passes the threshold test. *)
Lemma negative_subtotal_no_points (subtotal : number) :
  sign_of subtotal = Some true ->
  leb (points_for subtotal) pos_zero = true.
Proof.
  intros H. unfold points_for. apply leb_negative, Math_floor_sign, div_ten_sign, H.
Qed.

(** [Math.floor] is the floor. *)
Lemma Math_floor_spec (x : number) :
  wellformed x -> to_integer (Math_floor x) = floor_of x.
Proof.
  destruct x as [s0|s0| |s m e]; try reflexivity.
  intros W. cbn [wellformed] in W. unfold Math_floor, floor_of.
  destruct (Z.leb_spec 0 e) as [L|L].
  { unfold to_integer. destruct (Z.leb_spec 0 e); [reflexivity|lia]. }
  assert (P : 0 < 2 ^ (- e)) by (apply Z.pow_pos_nonneg; lia).
  assert (P2 : 2 <= 2 ^ (- e)) by (apply (Z.pow_le_mono_r 2 1 (- e)); lia).
  set (d := 2 ^ (- e)) in *.
  assert (Q0 : 0 <= Z.pos m / d) by (apply Z.div_pos; lia).
  assert (Q1 : Z.pos m / d < 2 ^ 52).
  { apply Z.div_lt_upper_bound; [lia|]. change (2 ^ 53) with (2 * 2 ^ 52) in W. nia. }
  destruct (Z.eqb_spec (Z.pos m mod d) 0) as [R|R].
  - unfold to_integer. destruct (Z.leb_spec 0 e); [lia|]. fold d. rewrite R.
    cbn [Z.eqb]. f_equal. destruct s; cbn [cond_Zopp]; [|reflexivity].
    rewrite Z.div_opp_l_z by lia. reflexivity.
  - destruct s; cbn [cond_Zopp].
    + rewrite Z.div_opp_l_nz by lia.
      destruct (Z.pos m / d + 1) as [|N|N] eqn:HN; try lia.
      replace (- (Z.pos m / d) - 1) with (- Z.pos N) by lia.
      change (- Z.pos N) with (Z.neg N). cbn [binary_normalize].
      rewrite (round_exact_integer true N N 0); [reflexivity|lia| |simpl; lia].
      assert (2 ^ 52 < 2 ^ 53) by reflexivity. lia.
    + destruct (Z.pos m / d) as [|N|N] eqn:HN; try lia.
      * reflexivity.
      * cbn [binary_normalize].
        rewrite (round_exact_integer false N N 0); [reflexivity|lia| |simpl; lia].
        assert (2 ^ 52 < 2 ^ 53) by reflexivity. lia.
Qed.

(** The points are the floor of the quotient. *)
Lemma points_integral (subtotal : number) :
  to_integer (points_for subtotal) = floor_of (div subtotal (of_Z 10)).
Proof. unfold points_for. apply Math_floor_spec, div_ten_wellformed. Qed.

End Threshold.


(* ================================================================== *)
(** * Shape of the route                                               *)
(* ================================================================== *)

Section Shape.

Lemma get_field (v : value) (name : string) :
  nullish v = false -> get v name = inr (field v name).
Proof. destruct v; simpl; intros H; try discriminate; reflexivity. Qed.

Lemma truthy_not_nullish (v : value) : truthy v = true -> nullish v = false.
Proof. destruct v; simpl; intros H; try discriminate; reflexivity. Qed.

Lemma qualifies_inv (order : value) :
  qualifies order = true ->
  nullish order = false /\ has_customer order = true
  /\ convertible (subtotal_arg order) = true
  /\ leb (awarded_of order) pos_zero = false
  /\ convertible (order_id_of order) = true.
Proof.
  unfold qualifies. intros H.
  apply andb_prop in H as [H H5]. apply andb_prop in H as [H H4].
  apply andb_prop in H as [H H3]. apply andb_prop in H as [H1 H2].
  apply negb_true_iff in H1, H4. auto.
Qed.

Lemma qualifies_intro (order : value) :
  nullish order = false -> has_customer order = true ->
  convertible (subtotal_arg order) = true ->
  leb (awarded_of order) pos_zero = false ->
  convertible (order_id_of order) = true ->
  qualifies order = true.
Proof. unfold qualifies. intros -> -> -> -> ->. reflexivity. Qed.

Lemma action_unsupported (topic : string) (json : Error + value) :
  (topic =? orders_create)%string = false ->
  action topic json = Ret (unsupported_topic topic).
Proof. unfold action, orders_create. intros ->. reflexivity. Qed.

Lemma action_supported (json : Error + value) :
  action orders_create json = try_catch (process json) handler.
Proof. reflexivity. Qed.

Lemma action_rejected (e : Error) : action orders_create (inl e) = Ret (failed e).
Proof. reflexivity. Qed.

Lemma action_nullish (order : value) :
  nullish order = true -> exists e, action orders_create (inr order) = Ret (failed e).
Proof.
  destruct order; simpl; intros H; try discriminate; eexists; reflexivity.
Qed.

Lemma process_no_customer (order : value) :
  nullish order = false -> has_customer order = false ->
  process (inr order) = Ret no_customer.
Proof.
  intros Hn Hc. unfold process. cbn [eval bind].
  rewrite (get_field order "customer" Hn). cbn [eval bind].
  unfold has_customer, customer_id_of in Hc. fold (customer_of order).
  destruct (truthy (customer_of order)) eqn:Ht; cbn [negb]; [|reflexivity].
  rewrite (get_field _ "id" (truthy_not_nullish _ Ht)). cbn [eval bind].
  cbn [andb] in Hc. rewrite Hc. reflexivity.
Qed.

Lemma process_customer (order : value) :
  nullish order = false -> has_customer order = true ->
  process (inr order) =
    if convertible (subtotal_arg order) then
      if leb (awarded_of order) pos_zero then Ret no_points
      else award (customer_id_of order) (order_id_of order) (awarded_of order)
    else Throw cannot_convert.
Proof.
  intros Hn Hc. unfold process. cbn [eval bind].
  unfold has_customer in Hc. apply andb_prop in Hc as [Ht Hi].
  rewrite !(get_field order _ Hn). cbn [eval bind].
  fold (customer_of order). rewrite Ht. cbn [negb].
  rewrite (get_field _ "id" (truthy_not_nullish _ Ht)). cbn [eval bind].
  fold (customer_id_of order). rewrite Hi. cbn [negb].
  fold (subtotal_of order) (subtotal_arg order).
  unfold parseFloat, ToString.
  destruct (convertible (subtotal_arg order)); cbn [eval bind]; [|reflexivity].
  fold (subtotal_number order) (awarded_of order).
  destruct (leb (awarded_of order) pos_zero); [reflexivity|].
  rewrite ?(get_field order _ Hn). cbn [eval bind].
  fold (customer_of order).
  rewrite ?(get_field _ "id" (truthy_not_nullish _ Ht)). cbn [eval bind].
  reflexivity.
Qed.

Lemma action_no_customer (order : value) :
  nullish order = false -> has_customer order = false ->
  action orders_create (inr order) = Ret no_customer.
Proof.
  intros Hn Hc. rewrite action_supported, (process_no_customer _ Hn Hc). reflexivity.
Qed.

Lemma action_unconvertible (order : value) :
  nullish order = false -> has_customer order = true ->
  convertible (subtotal_arg order) = false ->
  action orders_create (inr order) = Ret (failed cannot_convert).
Proof.
  intros Hn Hc Hv. rewrite action_supported, (process_customer _ Hn Hc), Hv. reflexivity.
Qed.

Lemma action_no_points (order : value) :
  nullish order = false -> has_customer order = true ->
  convertible (subtotal_arg order) = true ->
  leb (awarded_of order) pos_zero = true ->
  action orders_create (inr order) = Ret no_points.
Proof.
  intros Hn Hc Hv Hp.
  rewrite action_supported, (process_customer _ Hn Hc), Hv, Hp. reflexivity.
Qed.

Lemma action_award (order : value) :
  nullish order = false -> has_customer order = true ->
  convertible (subtotal_arg order) = true ->
  leb (awarded_of order) pos_zero = false ->
  action orders_create (inr order) =
    try_catch (award (customer_id_of order) (order_id_of order) (awarded_of order))
              handler.
Proof.
  intros Hn Hc Hv Hp.
  rewrite action_supported, (process_customer _ Hn Hc), Hv, Hp. reflexivity.
Qed.

Lemma award_unconvertible (customerId orderId : value) (awarded : number) :
  convertible orderId = false ->
  try_catch (award customerId orderId awarded) handler = Ret (failed cannot_convert).
Proof. intros H. unfold award, ToString. rewrite H. reflexivity. Qed.

(** Every delivery ends early, or is the delivery of a qualifying order. *)
Lemma action_cases (topic : string) (json : Error + value) :
  (exists r, early_exit topic json r /\ action topic json = Ret r)
  \/ (exists order, topic = orders_create /\ json = inr order
                    /\ qualifies order = true
                    /\ action topic json
                       = try_catch (award (customer_id_of order) (order_id_of order)
                                      (awarded_of order)) handler).
Proof.
  destruct (topic =? orders_create)%string eqn:Ht.
  2:{ left. eexists. split; [apply exit_topic, Ht|apply action_unsupported, Ht]. }
  apply String.eqb_eq in Ht. subst topic.
  destruct json as [e|order].
  { left. eexists. split; [eapply exit_body; reflexivity|apply action_rejected]. }
  destruct (nullish order) eqn:Hn.
  { left. destruct (action_nullish _ Hn) as [e He]. exists (failed e).
    split; [eapply exit_nullish; eauto|exact He]. }
  destruct (has_customer order) eqn:Hc.
  2:{ left. eexists. split; [eapply exit_customer; eauto|].
      apply action_no_customer; assumption. }
  destruct (convertible (subtotal_arg order)) eqn:Hv.
  2:{ left. eexists. split; [eapply exit_subtotal; eauto|].
      apply action_unconvertible; assumption. }
  destruct (leb (awarded_of order) pos_zero) eqn:Hp.
  { left. eexists. split; [eapply exit_points; eauto|].
    apply action_no_points; assumption. }
  destruct (convertible (order_id_of order)) eqn:Hi.
  2:{ left. eexists. split; [eapply exit_id; eauto|].
      rewrite (action_award _ Hn Hc Hv Hp). apply award_unconvertible, Hi. }
  right. exists order. split; [reflexivity|]. split; [reflexivity|].
  split; [apply qualifies_intro; assumption|]. apply action_award; assumption.
Qed.

End Shape.

(* ================================================================== *)
(** * Running the route                                                *)
(* ================================================================== *)

Section Running.

Context {S : Type} (w : World S).

(** The duplicate check and the commit path, statement by statement. *)
Lemma interp_award (customerId orderId : value) (awarded : number) (s : S) :
  convertible orderId = true ->
  interp w (try_catch (award customerId orderId awarded) handler) s =
    let key := event_key (to_string orderId) in
    let '(r1, s1) := answer w (SelectMarker key) s in
    let e1 := (issue (SelectMarker key), rejection r1) in
    match r1 with
    | inl e => (inr (failed e), s1, [e1])
    | inr rows =>
        if 0 <? Z.of_nat (List.length rows) then (inr already_processed, s1, [e1])
        else
          let '(r2, s2) := answer w (InsertMarker key) s1 in
          let e2 := (issue (InsertMarker key), rejection r2) in
          match r2 with
          | inl e => (inr (failed e), s2, [e1; e2])
          | inr _ =>
              let '(r3, s3) := answer w (FindUnique customerId) s2 in
              let e3 := (issue (FindUnique customerId), rejection r3) in
              match r3 with
              | inl e => (inr (failed e), s3, [e1; e2; e3])
              | inr found =>
                  let '(t, s4) := clock w s3 in
                  let q :=
                    match found with
                    | Some row => Update customerId (add (of_Z (points row)) awarded) t
                    | None => Create customerId awarded t
                    end in
                  let '(r4, s5) := answer w q s4 in
                  (inr (match r4, ToString customerId with
                        | inl e, _ => failed e
                        | inr _, inl e => failed e
                        | inr _, inr customer => added awarded customer
                        end),
                   s5, [e1; e2; e3; (issue q, rejection r4)])
              end
          end
    end.
Proof.
  intros Hid. unfold award, await, new_Date.
  unfold ToString at 1 2. rewrite Hid. cbn [eval bind try_catch interp].
  destruct (answer w (SelectMarker _) s) as [[e|rows] s1];
    cbn [bind try_catch interp handler]; [reflexivity|].
  destruct (0 <? Z.of_nat (List.length rows)); cbn [bind try_catch interp]; [reflexivity|].
  destruct (answer w (InsertMarker _) s1) as [[e|n] s2];
    cbn [bind try_catch interp handler]; [reflexivity|].
  destruct (answer w (FindUnique customerId) s2) as [[e|[row|]] s3];
    cbn [bind try_catch interp handler]; [reflexivity| |].
  - destruct (clock w s3) as [t s4]. cbn [bind try_catch interp].
    destruct (answer w (Update _ _ _) s4) as [[e|x] s5];
      cbn [bind try_catch interp handler rejection]; [reflexivity|].
    destruct (ToString customerId); reflexivity.
  - destruct (clock w s3) as [t s4]. cbn [bind try_catch interp].
    destruct (answer w (Create _ _ _) s4) as [[e|x] s5];
      cbn [bind try_catch interp handler rejection]; [reflexivity|].
    destruct (ToString customerId); reflexivity.
Qed.

Lemma interp_qualifying (order : value) (s : S) :
  qualifies order = true ->
  interp w (action orders_create (inr order)) s =
  interp w (try_catch (award (customer_id_of order) (order_id_of order) (awarded_of order))
              handler) s.
Proof.
  intros H. apply qualifies_inv in H as (Hn & Hc & Hv & Hp & _).
  rewrite (action_award _ Hn Hc Hv Hp). reflexivity.
Qed.

(** A qualifying order starts with the marker query. *)
Lemma interp_qualifying_award (order : value) (s : S) :
  qualifies order = true ->
  interp w (action orders_create (inr order)) s =
    let key := key_of order in
    let customerId := customer_id_of order in
    let awarded := awarded_of order in
    let '(r1, s1) := answer w (SelectMarker key) s in
    let e1 := (issue (SelectMarker key), rejection r1) in
    match r1 with
    | inl e => (inr (failed e), s1, [e1])
    | inr rows =>
        if 0 <? Z.of_nat (List.length rows) then (inr already_processed, s1, [e1])
        else
          let '(r2, s2) := answer w (InsertMarker key) s1 in
          let e2 := (issue (InsertMarker key), rejection r2) in
          match r2 with
          | inl e => (inr (failed e), s2, [e1; e2])
          | inr _ =>
              let '(r3, s3) := answer w (FindUnique customerId) s2 in
              let e3 := (issue (FindUnique customerId), rejection r3) in
              match r3 with
              | inl e => (inr (failed e), s3, [e1; e2; e3])
              | inr found =>
                  let '(t, s4) := clock w s3 in
                  let q :=
                    match found with
                    | Some row => Update customerId (add (of_Z (points row)) awarded) t
                    | None => Create customerId awarded t
                    end in
                  let '(r4, s5) := answer w q s4 in
                  (inr (match r4, ToString customerId with
                        | inl e, _ => failed e
                        | inr _, inl e => failed e
                        | inr _, inr customer => added awarded customer
                        end),
                   s5, [e1; e2; e3; (issue q, rejection r4)])
              end
          end
    end.
Proof.
  intros H. rewrite (interp_qualifying _ _ H).
  apply qualifies_inv in H as (_ & _ & _ & _ & Hi).
  rewrite (interp_award _ _ _ _ Hi). reflexivity.
Qed.

End Running.

(* ================================================================== *)
(** * Early exits                                                      *)
(* ================================================================== *)

Lemma deliver_ret (st : Store) (fs : list (option Error)) (t : Z)
    (topic : string) (json : Error + value) (r : Response) :
  action topic json = Ret r ->
  deliver st fs t topic json = (inr r, st, []).
Proof. unfold deliver. intros ->. reflexivity. Qed.

(** C6. An order-created event without a customer reference (no
    [customer], or a customer without an [id]) is answered 200 "No customer
    associated with this order"; no statement is issued and the store is
    left as it was, whatever it holds and whatever faults are pending. *)
Theorem no_customer_is_noop (st : Store) (fs : list (option Error)) (t : Z)
    (order : value) :
  nullish order = false ->
  has_customer order = false ->
  deliver st fs t orders_create (inr order) = (inr no_customer, st, [])
  /\ status no_customer = 200.
Proof.
  intros Hn Hc. split; [|reflexivity].
  apply deliver_ret, action_no_customer; assumption.
Qed.

Lemma no_customer_is_noop_witness :
  deliver empty_store [] 0 orders_create (inr order_without_customer)
    = (inr no_customer, empty_store, [])
  /\ status no_customer = 200.
Proof.
  apply (no_customer_is_noop empty_store [] 0 order_without_customer); reflexivity.
Defined.

(** C7. The early exits are taken in the order topic, customer, threshold,
    duplicate check, and each is final.  A topic other than
    ["orders/create"] is answered 400 before the body is even read; with
    the right topic an order without customer is answered "No customer"
    whatever its subtotal; with a customer, points [<= 0] are answered "No
    points earned" whatever markers exist; only then is the first statement
    issued, and it is the marker query.  The first three hold in every
    world and issue no statement. *)
Theorem preconditions_in_order {S : Type} (w : World S) (s : S)
    (topic : string) (json : Error + value) :
  ((topic =? orders_create)%string = false ->
     interp w (action topic json) s = (inr (unsupported_topic topic), s, [])
     /\ status (unsupported_topic topic) = 400)
  /\ (forall order : value,
        topic = orders_create -> json = inr order -> nullish order = false ->
        (has_customer order = false ->
           interp w (action topic json) s = (inr no_customer, s, []))
        /\ (has_customer order = true ->
            convertible (subtotal_arg order) = true ->
            leb (awarded_of order) pos_zero = true ->
              interp w (action topic json) s = (inr no_points, s, []))
        /\ (qualifies order = true ->
              exists out s' r log,
                interp w (action topic json) s
                = (out, s', (issue (SelectMarker (key_of order)), r) :: log))).
Proof.
  split.
  - intros H. rewrite (action_unsupported _ _ H). split; reflexivity.
  - intros order -> -> Hn. repeat split.
    + intros Hc. rewrite (action_no_customer _ Hn Hc). reflexivity.
    + intros Hc Hv Hp. rewrite (action_no_points _ Hn Hc Hv Hp). reflexivity.
    + intros Hq. rewrite (interp_qualifying_award w _ s Hq). cbv zeta.
      destruct (answer w (SelectMarker (key_of order)) s) as [[e|rows] s1].
      * do 4 eexists. reflexivity.
      * destruct (0 <? Z.of_nat (List.length rows)); [do 4 eexists; reflexivity|].
        destruct (answer w (InsertMarker (key_of order)) s1) as [[e|n] s2];
          [do 4 eexists; reflexivity|].
        destruct (answer w (FindUnique (customer_id_of order)) s2) as [[e|found] s3];
          [do 4 eexists; reflexivity|].
        destruct (clock w s3) as [t s4].
        match goal with |- context [answer w ?q s4] =>
          destruct (answer w q s4) as [r4 s5] end.
        do 4 eexists. reflexivity.
Qed.

Lemma preconditions_in_order_witness :
  deliver empty_store [] 0 "orders/updated" (inr order_1001)
    = (inr (unsupported_topic "orders/updated"), empty_store, [])
  /\ deliver empty_store [] 0 orders_create (inr order_without_customer)
    = (inr no_customer, empty_store, [])
  /\ deliver empty_store [] 0 orders_create (inr order_below_threshold)
    = (inr no_points, empty_store, []).
Proof.
  pose (env := {| store := empty_store; faults := []; now := 0 |}).
  destruct (preconditions_in_order db env "orders/updated" (inr order_1001)) as [H1 _].
  destruct (preconditions_in_order db env orders_create (inr order_without_customer))
    as [_ H2].
  destruct (preconditions_in_order db env orders_create (inr order_below_threshold))
    as [_ H3].
  destruct (H1 eq_refl) as [H1' _].
  destruct (H2 _ eq_refl eq_refl eq_refl) as [H2' _].
  destruct (H3 _ eq_refl eq_refl eq_refl) as [_ [H3' _]].
  unfold deliver. fold env.
  rewrite H1', (H2' eq_refl), (H3' eq_refl eq_refl eq_refl).
  repeat split; reflexivity.
Defined.

(** C9. The route never throws: in every world, whatever the body and
    whatever the store answers, it returns one of its six responses.
    Whenever a statement was rejected (the marker insert and the ledger
    write among them) the response is the 500 "Error processing webhook"
    carrying the message of that very error. *)
Theorem failures_become_responses {S : Type} (w : World S) (s : S)
    (topic : string) (json : Error + value) :
  exists (r : Response) (s' : S) (log : list entry),
    interp w (action topic json) s = (inr r, s', log)
    /\ defined_outcome topic r
    /\ (forall i e, In (i, Some e) log -> r = failed e /\ status r = 500).
Proof.
  unfold defined_outcome.
  destruct (action_cases topic json)
    as [(r & Hx & ->)|(order & -> & -> & Hq & _)].
  { ended. split; [destruct Hx; eauto 10|rejections]. }
  rewrite (interp_qualifying_award w _ s Hq). cbv zeta.
  next_answer w. destruct r as [e|rows].
  { ended. split; [eauto 10|rejections]. }
  destruct (0 <? Z.of_nat (List.length rows)).
  { ended. split; [auto 10|rejections]. }
  next_answer w. destruct r as [e|n].
  { ended. split; [eauto 10|rejections]. }
  next_answer w. destruct r as [e|found].
  { ended. split; [eauto 10|rejections]. }
  destruct (clock w s2) as [t s3].
  next_answer w. destruct r as [e|row].
  - ended. split; [eauto 10|rejections].
  - ended. split; [destruct (ToString (customer_id_of order)); eauto 10|rejections].
Qed.

(* ================================================================== *)
(** * The store under the route's statements                           *)
(* ================================================================== *)

Section StoreFacts.

Lemma select_marker_marked (st : Store) (key : string) :
  marked st key = true ->
  exists row, select_marker st key = [row].
Proof.
  unfold marked, select_marker. induction (migrations st) as [|r l IH]; simpl.
  - discriminate.
  - destruct (has_key key r); simpl.
    + intros _. destruct (filter (has_key key) l); eexists; reflexivity.
    + exact IH.
Qed.

Lemma select_marker_unmarked (st : Store) (key : string) :
  marked st key = false -> select_marker st key = [].
Proof.
  unfold marked, select_marker. induction (migrations st) as [|r l IH]; simpl.
  - reflexivity.
  - destruct (has_key key r); simpl; [discriminate|exact IH].
Qed.

Lemma has_key_refl (key : string) (n : Z) :
  has_key key {| name := key; applied_steps_count := n |} = true.
Proof. unfold has_key. simpl. apply String.eqb_refl. Qed.

(** Markers are never removed. *)
Lemma exec_keeps_marker {X : Type} (q : stmt X) (st : Store) (key : string) :
  marked st key = true -> marked (snd (exec q st)) key = true.
Proof.
  unfold marked. intros H. destruct q; simpl.
  - exact H.
  - destruct (unique_name st && existsb (has_key key0) (migrations st)); simpl.
    + exact H.
    + rewrite existsb_app, H. reflexivity.
  - destruct customer; exact H.
  - destruct customer; try exact H.
    destruct (int32 newPoints); [|exact H].
    destruct (find_unique st s); exact H.
  - destruct customer; try exact H.
    destruct (int32 newPoints); [|exact H].
    destruct (find_unique st s); exact H.
Qed.

(** A marker insert that resolves has recorded the marker. *)
Lemma exec_insert_marks (st : Store) (key : string) (n : Z) :
  fst (exec (InsertMarker key) st) = inr n ->
  marked (snd (exec (InsertMarker key) st)) key = true.
Proof.
  unfold marked. simpl.
  destruct (unique_name st && existsb (has_key key) (migrations st)); simpl.
  - discriminate.
  - intros _. rewrite existsb_app. simpl. rewrite has_key_refl.
    rewrite orb_true_r. reflexivity.
Qed.

(** How the store with faults answers. *)
Lemma db_answer_spec {X : Type} (q : stmt X) (env : Env) :
  (exists e rest,
      faults env = Some e :: rest
      /\ answer db q env
         = (inl e, {| store := store env; faults := rest; now := now env |}))
  \/ (hd None (faults env) = None
      /\ answer db q env
         = (fst (exec q (store env)),
            {| store := snd (exec q (store env)); faults := tl (faults env);
               now := now env |})).
Proof.
  simpl. unfold db_answer. destruct (faults env) as [|[e|] rest]; simpl.
  - right. split; [reflexivity|]. destruct (exec q (store env)); reflexivity.
  - left. eauto.
  - right. split; [reflexivity|]. destruct (exec q (store env)); reflexivity.
Qed.

Lemma db_answer_keeps_marker {X : Type} (q : stmt X) (env : Env) (key : string) :
  marked (store env) key = true ->
  marked (store (snd (answer db q env))) key = true.
Proof.
  intros H. destruct (db_answer_spec q env) as [(e & rest & _ & ->)|[_ ->]]; simpl.
  - exact H.
  - apply exec_keeps_marker, H.
Qed.

Lemma db_insert_marks (key : string) (env env' : Env) (n : Z) :
  answer db (InsertMarker key) env = (inr n, env') ->
  marked (store env') key = true.
Proof.
  destruct (db_answer_spec (InsertMarker key) env) as [(e & rest & _ & ->)|[_ ->]].
  - discriminate.
  - intros H. inversion H as [[Hn He]]. simpl. apply exec_insert_marks with n. exact Hn.
Qed.

(** Whatever program runs against the store, recorded markers stay. *)
Lemma interp_keeps_marker {R : Type} (p : prog R) (env : Env) (key : string) :
  marked (store env) key = true ->
  marked (store (snd (fst (interp db p env)))) key = true.
Proof.
  revert env. induction p as [r|e|X q k IH|k IH]; intros env H.
  - exact H.
  - exact H.
  - cbn [interp].
    pose proof (db_answer_keeps_marker q env key H) as H1.
    destruct (answer db q env) as [r env1]. simpl in H1.
    specialize (IH r env1 H1).
    destruct (interp db (k r) env1) as [[out env2] log]. exact IH.
  - cbn [interp]. simpl. apply IH, H.
Qed.

Lemma deliver_keeps_marker (st : Store) (fs : list (option Error)) (t : Z)
    (topic : string) (json : Error + value) (key : string) :
  marked st key = true ->
  marked (snd (fst (deliver st fs t topic json))) key = true.
Proof.
  intros H. unfold deliver.
  pose proof (interp_keeps_marker (action topic json)
                {| store := st; faults := fs; now := t |} key H) as H1.
  destruct (interp db (action topic json) _) as [[out env] log]. exact H1.
Qed.

End StoreFacts.


(* ================================================================== *)
(** * Redelivery                                                       *)
(* ================================================================== *)

Section Redelivery.

Lemma failed_not_already (e : Error) : failed e <> already_processed.
Proof. unfold failed, already_processed. intros H. inversion H. Qed.

(** An early exit is never the "Added ..." response. *)
Lemma early_exit_not_added (topic : string) (json : Error + value) (r : Response)
    (a : number) (c : string) :
  early_exit topic json r -> r <> added a c.
Proof. intros Hx E. destruct Hx; inversion E. Qed.

(** A delivery of a qualifying order against a store that holds its
    marker: the query finds the marker, or is rejected; either way the
    store is left as it was. *)
Lemma deliver_marked (st : Store) (fs : list (option Error)) (t : Z) (order : value) :
  qualifies order = true ->
  marked st (key_of order) = true ->
  deliver st fs t orders_create (inr order)
  = match fs with
    | Some e :: _ =>
        (inr (failed e), st, [(issue (SelectMarker (key_of order)), Some e)])
    | _ =>
        (inr already_processed, st, [(issue (SelectMarker (key_of order)), None)])
    end.
Proof.
  intros Hq Hm. unfold deliver.
  rewrite (interp_qualifying_award db _ _ Hq). cbv zeta.
  destruct (db_answer_spec (SelectMarker (key_of order))
              {| store := st; faults := fs; now := t |})
    as [(e & rest & Hf & ->)|[Hf ->]]; simpl in Hf.
  - subst fs. reflexivity.
  - cbn [exec fst snd store].
    destruct (select_marker_marked _ _ Hm) as [row ->]. cbn.
    destruct fs as [|[e|] rest]; try discriminate; reflexivity.
Qed.

(** A delivery that answered "Added ..." was a delivery of a qualifying
    order, and has recorded the order's marker. *)
Lemma award_marks (st0 : Store) (fs0 : list (option Error)) (t0 : Z) (order : value)
    (a : number) (c : string) (st : Store) (log : list entry) :
  deliver st0 fs0 t0 orders_create (inr order) = (inr (added a c), st, log) ->
  qualifies order = true /\ marked st (key_of order) = true.
Proof.
  destruct (action_cases orders_create (inr order))
    as [(r & Hx & Hr)|(order' & _ & Ho & Hq & _)].
  { rewrite (deliver_ret _ _ _ _ _ _ Hr). intros H.
    assert (E : r = added a c) by congruence.
    destruct (early_exit_not_added _ _ _ a c Hx E). }
  injection Ho as <-. split; [exact Hq|]. revert H. unfold deliver.
  rewrite (interp_qualifying_award db _ _ Hq). cbv zeta.
  destruct (answer db (SelectMarker (key_of order)) _) as [[e|rows] env1].
  { absurd_response. }
  destruct (0 <? Z.of_nat (List.length rows)).
  { absurd_response. }
  destruct (answer db (InsertMarker (key_of order)) env1) as [[e|n] env2] eqn:A2.
  { absurd_response. }
  apply db_insert_marks in A2.
  pose proof (db_answer_keeps_marker (FindUnique (customer_id_of order)) env2 _ A2) as A3.
  destruct (answer db (FindUnique (customer_id_of order)) env2) as [[e|found] env3].
  { absurd_response. }
  simpl in A3. cbn [clock db].
  match goal with |- context [answer db ?q env3] =>
    pose proof (db_answer_keeps_marker q env3 _ A3) as A4;
    destruct (answer db q env3) as [r4 env4] end.
  simpl in A4. intros H. inversion H as [[H1 H2 H3]]. subst st. exact A4.
Qed.

(** C1. Once the marker of a qualifying order is recorded, a delivery of
    that order whose marker query is answered returns 200 "Order already
    processed", issues the query alone and leaves both tables as they
    were; any number of further deliveries, under any faults, leave the
    store unchanged and return that response (or the 500 of a rejected
    query).  The marker is recorded by every delivery that answered
    "Added ...", so a second award for the same order never happens when
    deliveries follow one another. *)
Theorem redelivery_is_noop (st : Store) (order : value) :
  (qualifies order = true -> marked st (key_of order) = true ->
     (forall fs t, hd None fs = None ->
        deliver st fs t orders_create (inr order)
        = (inr already_processed, st, [(issue (SelectMarker (key_of order)), None)]))
     /\ (forall attempts,
           snd (redeliver st attempts orders_create (inr order)) = st
           /\ Forall (fun out => out = inr already_processed
                                 \/ exists e, out = inr (failed e))
                (fst (redeliver st attempts orders_create (inr order))))
     /\ status already_processed = 200)
  /\ (forall st0 fs0 t0 a c log,
        deliver st0 fs0 t0 orders_create (inr order) = (inr (added a c), st, log) ->
        qualifies order = true /\ marked st (key_of order) = true).
Proof.
  split.
  - intros Hq Hm. split; [|split; [|reflexivity]].
    + intros fs t Hf. rewrite (deliver_marked _ _ _ _ Hq Hm).
      destruct fs as [|[e|] rest]; try discriminate; reflexivity.
    + intros attempts. induction attempts as [|[fs t] rest [IH1 IH2]]; simpl.
      * split; [reflexivity|constructor].
      * rewrite (deliver_marked _ _ _ _ Hq Hm).
        destruct fs as [|[e|] fs'];
          destruct (redeliver st rest orders_create (inr order)) as [outs st2];
          simpl in *; (split; [exact IH1|constructor; eauto]).
  - intros st0 fs0 t0 a c log H. eapply award_marks, H.
Qed.

Lemma redelivery_is_noop_witness :
  let st := snd (fst (deliver empty_store [] 7 orders_create (inr order_1001))) in
  deliver st [] 8 orders_create (inr order_1001)
  = (inr already_processed, st, [(issue (SelectMarker "order_1001_processed"), None)])
  /\ snd (redeliver st [([], 9); ([Some unique_violation], 10); ([], 11)]
            orders_create (inr order_1001)) = st.
Proof.
  intros st.
  destruct (redelivery_is_noop st order_1001) as [H _].
  destruct (H eq_refl eq_refl) as (H1 & H2 & _).
  split.
  - exact (H1 [] 8 eq_refl).
  - exact (proj1 (H2 [([], 9); ([Some unique_violation], 10); ([], 11)])).
Defined.

End Redelivery.


(* ================================================================== *)
(** * The marker key and the marker insert                             *)
(* ================================================================== *)

Section Markers.

(** C10. The marker's name interpolates the order's [id] as it is: an
    order without [id] gets the name ["order_undefined_processed"], the
    same for every such order.  So once one of them has been awarded (its
    delivery answered "Added ..."), every later qualifying order without
    [id] whose marker query is answered gets 200 "Order already processed":
    only the query is issued, the store is unchanged, no points are
    awarded. *)
Theorem orders_without_id_share_a_key (first second : value) :
  order_id_of first = Undefined ->
  order_id_of second = Undefined ->
  key_of first = "order_undefined_processed"
  /\ key_of second = key_of first
  /\ (forall st0 fs0 t0 a c st log,
        deliver st0 fs0 t0 orders_create (inr first) = (inr (added a c), st, log) ->
        qualifies second = true ->
        forall fs t, hd None fs = None ->
          deliver st fs t orders_create (inr second)
          = (inr already_processed, st,
             [(issue (SelectMarker "order_undefined_processed"), None)])).
Proof.
  intros H1 H2.
  assert (K1 : key_of first = "order_undefined_processed")
    by (unfold key_of; rewrite H1; reflexivity).
  assert (K2 : key_of second = "order_undefined_processed")
    by (unfold key_of; rewrite H2; reflexivity).
  split; [exact K1|]. split; [congruence|].
  intros st0 fs0 t0 a c st log Hd Hq fs t Hf.
  apply award_marks in Hd as [_ Hm]. rewrite K1, <- K2 in Hm.
  rewrite (deliver_marked _ _ _ _ Hq Hm), K2.
  destruct fs as [|[e|] rest]; try discriminate; reflexivity.
Qed.

Lemma orders_without_id_share_a_key_witness :
  let st := snd (fst (deliver empty_store [] 7 orders_create (inr no_id_order_a))) in
  find_unique st "c1"
    = Some {| customerId := "c1"; points := 5; updatedAt := 7 |}
  /\ deliver st [] 8 orders_create (inr no_id_order_b)
     = (inr already_processed, st,
        [(issue (SelectMarker "order_undefined_processed"), None)])
  /\ find_unique st "c2" = None.
Proof.
  intros st. split; [reflexivity|]. split; [|reflexivity].
  destruct (orders_without_id_share_a_key no_id_order_a no_id_order_b eq_refl eq_refl)
    as (_ & _ & H).
  refine (H empty_store [] 7 _ _ st _ _ eq_refl [] 8 eq_refl).
  reflexivity.
Defined.

(** C3, as the code has it.  When the marker insert is rejected, with a
    duplicate-key error or any other, the route answers the 500 "Error
    processing webhook" carrying that error's message, which is not the
    200 "Order already processed"; the insert is the last statement it
    issues, so the ledger is not touched. *)
Theorem rejected_insert_is_failure {S : Type} (w : World S) (s s1 s2 : S)
    (order : value) (e : Error) :
  qualifies order = true ->
  answer w (SelectMarker (key_of order)) s = (inr [], s1) ->
  answer w (InsertMarker (key_of order)) s1 = (inl e, s2) ->
  let log := [(issue (SelectMarker (key_of order)), None);
              (issue (InsertMarker (key_of order)), Some e)] in
  interp w (action orders_create (inr order)) s = (inr (failed e), s2, log)
  /\ existsb wrote_ledger log = false
  /\ status (failed e) = 500
  /\ failed e <> already_processed.
Proof.
  intros Hq A1 A2 log.
  split; [|split; [reflexivity|split; [reflexivity|apply failed_not_already]]].
  rewrite (interp_qualifying_award w _ _ Hq). cbv zeta. rewrite A1.
  cbn [List.length Z.of_nat Z.ltb Z.compare rejection]. rewrite A2. reflexivity.
Qed.

Lemma rejected_insert_is_failure_witness :
  deliver empty_store [None; Some unique_violation] 7 orders_create (inr order_1001)
  = (inr (failed unique_violation), empty_store,
     [(issue (SelectMarker "order_1001_processed"), None);
      (issue (InsertMarker "order_1001_processed"), Some unique_violation)]).
Proof.
  unfold deliver.
  rewrite (proj1 (rejected_insert_is_failure db
             {| store := empty_store; faults := [None; Some unique_violation]; now := 7 |}
             {| store := empty_store; faults := [Some unique_violation]; now := 7 |}
             {| store := empty_store; faults := []; now := 7 |}
             order_1001 unique_violation eq_refl eq_refl eq_refl)).
  reflexivity.
Defined.

(** C3 as stated fails.  Two deliveries of one order race against a store
    whose marker table enforces unique names: both query before either
    inserts.  The second insert is rejected as a duplicate key, and that
    delivery is answered 500, not the 200 of "Order already processed". *)
Lemma duplicate_key_is_not_already_processed :
  let '(_, (out, log), _) :=
    race [true; false; true; false] empty_store 7
      orders_create (inr order_1001) orders_create (inr order_1001) in
  In (issue (InsertMarker "order_1001_processed"), Some unique_violation) log
  /\ out = inr (failed unique_violation)
  /\ out <> inr already_processed.
Proof.
  vm_compute. split; [right; left; reflexivity|]. split; [reflexivity|].
  intros H. discriminate H.
Qed.

End Markers.

(* ================================================================== *)
(** * The commit path                                                  *)
(* ================================================================== *)

Section Commit.

Lemma db_answer_nofault {X : Type} (q : stmt X) (st : Store) (t : Z) :
  answer db q {| store := st; faults := []; now := t |}
  = (fst (exec q st), {| store := snd (exec q st); faults := []; now := t |}).
Proof. simpl. unfold db_answer. simpl. destruct (exec q st); reflexivity. Qed.

Lemma is_customer_refl (c : string) (z t : Z) :
  is_customer c {| customerId := c; points := z; updatedAt := t |} = true.
Proof. unfold is_customer. simpl. apply String.eqb_refl. Qed.

Lemma find_replace_row (row : LoyaltyPoints) (l : list LoyaltyPoints) (old : LoyaltyPoints) :
  find (is_customer (customerId row)) l = Some old ->
  find (is_customer (customerId row)) (replace_row row l) = Some row.
Proof.
  unfold replace_row. induction l as [|r l IH]; simpl; [discriminate|].
  destruct (is_customer (customerId row) r) eqn:E.
  - intros _. destruct row as [c z t]. simpl. rewrite is_customer_refl. reflexivity.
  - rewrite E. exact IH.
Qed.

Lemma find_append_row (c : string) (z t : Z) (l : list LoyaltyPoints) :
  find (is_customer c) l = None ->
  find (is_customer c) (l ++ [{| customerId := c; points := z; updatedAt := t |}])
  = Some {| customerId := c; points := z; updatedAt := t |}.
Proof.
  induction l as [|r l IH]; simpl.
  - intros _. rewrite is_customer_refl. reflexivity.
  - destruct (is_customer c r); [discriminate|exact IH].
Qed.

Lemma find_typed (st : Store) (c : string) (row : LoyaltyPoints) :
  ledger_typed st -> find_unique st c = Some row -> - 2 ^ 31 <= points row < 2 ^ 31.
Proof.
  unfold ledger_typed, find_unique. intros T F.
  apply find_some in F as [F _]. rewrite Forall_forall in T. apply T, F.
Qed.

(** The delivery of a qualifying order of a customer with a string id,
    against a store without its marker and without faults: the marker is
    inserted, then the ledger write is attempted. *)
Lemma deliver_commit (st : Store) (t : Z) (order : value) (c : string) :
  qualifies order = true ->
  customer_id_of order = Str c ->
  marked st (key_of order) = false ->
  let st1 := set_migrations st (migrations st ++ [marker (key_of order)]) in
  let q :=
    match find_unique st c with
    | Some row => Update (Str c) (add (of_Z (points row)) (awarded_of order)) t
    | None => Create (Str c) (awarded_of order) t
    end in
  deliver st [] t orders_create (inr order)
  = (inr (match fst (exec q st1) with
          | inl e => failed e
          | inr _ => added (awarded_of order) c
          end),
     snd (exec q st1),
     [(issue (SelectMarker (key_of order)), None);
      (issue (InsertMarker (key_of order)), None);
      (issue (FindUnique (Str c)), None);
      (issue q, rejection (fst (exec q st1)))]).
Proof.
  intros Hq Hc Hm st1 q. unfold deliver.
  rewrite (interp_qualifying_award db _ _ Hq). cbv zeta. rewrite Hc.
  change (ToString (Str c)) with (@inr Error string c).
  rewrite db_answer_nofault. cbn [exec fst snd].
  rewrite (select_marker_unmarked _ _ Hm).
  cbn [List.length Z.of_nat Z.ltb Z.compare rejection].
  rewrite db_answer_nofault.
  assert (Hi : exec (InsertMarker (key_of order)) st = (inr 1, st1)).
  { cbn [exec]. unfold marked in Hm. rewrite Hm, andb_false_r. reflexivity. }
  rewrite Hi. cbn [fst snd rejection].
  rewrite db_answer_nofault. cbn [exec fst snd rejection clock db now].
  change (find_unique st1 c) with (find_unique st c).
  fold q. rewrite db_answer_nofault.
  subst q. destruct (find_unique st c); cbn [fst snd store].
  - destruct (fst (exec _ st1)); reflexivity.
  - destruct (fst (exec _ st1)); reflexivity.
Qed.

Lemma int32_of_integer (x : number) (z : Z) :
  to_integer x = Some z -> - 2 ^ 31 <= z < 2 ^ 31 -> int32 x = Some z.
Proof.
  intros H R. unfold int32. rewrite H.
  destruct (Z.leb_spec (- 2 ^ 31) z); [|lia].
  destruct (Z.ltb_spec z (2 ^ 31)); [|lia]. reflexivity.
Qed.

Lemma to_integer_positive (m : positive) (e z : Z) :
  to_integer (S754_finite false m e) = Some z -> 0 < z.
Proof.
  unfold to_integer, cond_Zopp. destruct (Z.leb_spec 0 e) as [L|L].
  - intros H. assert (Hz : z = Z.pos m * 2 ^ e) by congruence. rewrite Hz.
    apply Z.mul_pos_pos; [lia|apply Z.pow_pos_nonneg; lia].
  - destruct (Z.eqb_spec (Z.pos m mod 2 ^ (- e)) 0) as [R|R]; [|discriminate].
    intros H. assert (Hz : z = Z.pos m / 2 ^ (- e)) by congruence.
    assert (P : 0 < 2 ^ (- e)) by (apply Z.pow_pos_nonneg; lia).
    pose proof (Z.div_mod (Z.pos m) (2 ^ (- e)) ltac:(lia)) as DM.
    rewrite R, <- Hz in DM. nia.
Qed.

(** Points that pass the threshold test and denote an integer are a
    positive finite Number. *)
Lemma awarded_shape (x : number) (p : Z) :
  leb x pos_zero = false -> to_integer x = Some p ->
  0 < p /\ exists m e, x = S754_finite false m e.
Proof.
  intros L I. destruct (leb_false_shape x L) as [->|[->|(m & e & ->)]];
    try discriminate.
  split; [eapply to_integer_positive, I|eauto].
Qed.

End Commit.


(** C5. On the commit path (right topic, customer with id [c], points [p]
    above zero, no marker recorded), with no statement rejected: when the
    customer has a row with balance [points row] and the [INTEGER] column
    takes the sum, the row becomes [points row + p] with [updatedAt] the
    current time; when the customer has no row, one is created with
    balance [p].  The response is 200 "Added p points to customer c". *)
Theorem commit_path_upserts (st : Store) (t : Z) (order : value) (c : string) (p : Z) :
  qualifies order = true ->
  customer_id_of order = Str c ->
  to_integer (awarded_of order) = Some p ->
  marked st (key_of order) = false ->
  ledger_typed st ->
  0 < p
  /\ (forall row, find_unique st c = Some row -> points row + p < 2 ^ 31 ->
        let row' := {| customerId := c; points := points row + p; updatedAt := t |} in
        exists log st',
          deliver st [] t orders_create (inr order)
          = (inr (added (awarded_of order) c), st', log)
          /\ loyaltyPoints st' = replace_row row' (loyaltyPoints st)
          /\ find_unique st' c = Some row')
  /\ (find_unique st c = None -> p < 2 ^ 31 ->
        let row' := {| customerId := c; points := p; updatedAt := t |} in
        exists log st',
          deliver st [] t orders_create (inr order)
          = (inr (added (awarded_of order) c), st', log)
          /\ loyaltyPoints st' = (loyaltyPoints st ++ [row'])%list
          /\ find_unique st' c = Some row').
Proof.
  intros Hq Hc Hp Hm Ht.
  pose proof (qualifies_inv _ Hq) as (_ & _ & _ & Hl & _).
  destruct (awarded_shape _ _ Hl Hp) as (Hpos & m & e & Ha).
  split; [exact Hpos|]. split.
  - intros row Hf Hs row'.
    pose proof (find_typed _ _ _ Ht Hf) as Hr.
    assert (Hi : int32 (add (of_Z (points row)) (awarded_of order)) = Some (points row + p)).
    { apply int32_of_integer; [|lia].
      rewrite Ha. apply add_integers_exact; [lia|rewrite <- Ha; exact Hp|].
      assert (2 ^ 31 < 2 ^ 53) by reflexivity. lia. }
    rewrite (deliver_commit _ _ _ _ Hq Hc Hm). cbv zeta. rewrite Hf.
    cbn [exec]. rewrite Hi.
    change (find_unique (set_migrations st _) c) with (find_unique st c). rewrite Hf.
    cbn [fst snd]. do 2 eexists. split; [reflexivity|].
    split; [reflexivity|].
    unfold find_unique. cbn [loyaltyPoints set_loyaltyPoints set_migrations].
    apply (find_replace_row row' (loyaltyPoints st) row). exact Hf.
  - intros Hf Hs row'.
    assert (Hi : int32 (awarded_of order) = Some p)
      by (apply int32_of_integer; [exact Hp|lia]).
    rewrite (deliver_commit _ _ _ _ Hq Hc Hm). cbv zeta. rewrite Hf.
    cbn [exec]. rewrite Hi.
    change (find_unique (set_migrations st _) c) with (find_unique st c). rewrite Hf.
    cbn [fst snd]. do 2 eexists. split; [reflexivity|].
    split; [reflexivity|].
    unfold find_unique. cbn [loyaltyPoints set_loyaltyPoints set_migrations].
    apply find_append_row. exact Hf.
Qed.

Lemma commit_path_upserts_witness :
  find_unique (snd (fst (deliver store_with_5 [] 9 orders_create (inr order_30)))) "c1"
  = Some {| customerId := "c1"; points := 8; updatedAt := 9 |}
  /\ find_unique (snd (fst (deliver empty_store [] 7 orders_create (inr order_1001)))) "c1"
     = Some {| customerId := "c1"; points := 5; updatedAt := 7 |}.
Proof.
  split.
  - assert (T : ledger_typed store_with_5) by (repeat constructor; simpl; lia).
    destruct (commit_path_upserts store_with_5 9 order_30 "c1" 3
                eq_refl eq_refl eq_refl eq_refl T) as (_ & H & _).
    destruct (H {| customerId := "c1"; points := 5; updatedAt := 1 |} eq_refl eq_refl)
      as (log & st' & D & _ & F).
    rewrite D. exact F.
  - assert (T : ledger_typed empty_store) by constructor.
    destruct (commit_path_upserts empty_store 7 order_1001 "c1" 5
                eq_refl eq_refl eq_refl eq_refl T) as (_ & _ & H).
    destruct (H eq_refl eq_refl) as (log & st' & D & _ & F).
    rewrite D. exact F.
Defined.


(* ================================================================== *)
(** * The ledger invariant                                             *)
(* ================================================================== *)

Section Ledger.

Lemma add_nan (x : number) : add x NaN = NaN.
Proof. destruct x; reflexivity. Qed.

Lemma of_Z_finite_or_zero (a : Z) :
  Z.abs a <= 2 ^ 31 ->
  of_Z a = S754_zero false \/ exists s m e, of_Z a = S754_finite s m e.
Proof.
  intros Ha. destruct (Z.eq_dec a 0) as [->|N]; [left; reflexivity|right].
  assert (B : 2 ^ 31 < 2 ^ 53) by reflexivity.
  destruct (of_Z_spec a ltac:(lia)) as (m & e & -> & _). eauto.
Qed.

Lemma int32_inv (x : number) (z : Z) :
  int32 x = Some z -> to_integer x = Some z /\ - 2 ^ 31 <= z < 2 ^ 31.
Proof.
  unfold int32. destruct (to_integer x) as [y|]; [|discriminate].
  destruct (Z.leb_spec (- 2 ^ 31) y) as [L1|L1]; [|discriminate].
  destruct (Z.ltb_spec y (2 ^ 31)) as [L2|L2]; [|discriminate].
  cbn [andb]. intros E. injection E as <-. auto.
Qed.

(** The balance written for a customer with a row is never below the
    balance read. *)
Lemma new_balance_not_below (old : Z) (awarded : number) (z : Z) :
  - 2 ^ 31 <= old < 2 ^ 31 ->
  leb awarded pos_zero = false ->
  int32 (add (of_Z old) awarded) = Some z ->
  old <= z.
Proof.
  intros Ho Hl Hi. apply int32_inv in Hi as [Hi _].
  destruct (leb_false_shape _ Hl) as [->|[->|(m & e & ->)]].
  - rewrite add_nan in Hi. discriminate.
  - destruct (of_Z_finite_or_zero old ltac:(lia)) as [E|(s & m & e & E)];
      rewrite E in Hi; discriminate.
  - eapply add_positive_monotone; [|exact Hi]. lia.
Qed.

Lemma exec_award_write (st : Store) (c : string) (awarded : number) (t : Z) :
  ledger_typed st ->
  leb awarded pos_zero = false ->
  ledger_step (loyaltyPoints st)
    (loyaltyPoints
       (snd (exec (match find_unique st c with
                   | Some row => Update (Str c) (add (of_Z (points row)) awarded) t
                   | None => Create (Str c) awarded t
                   end) st))).
Proof.
  intros Ht Hl. destruct (find_unique st c) as [row|] eqn:Hf; cbn [exec].
  - destruct (int32 _) as [z|] eqn:Hi; [|apply step_none].
    rewrite Hf. cbn [snd set_loyaltyPoints loyaltyPoints].
    pose proof (int32_inv _ _ Hi) as [_ Hr].
    apply (step_update _ c row z t Hf); [|exact Hr].
    eapply new_balance_not_below; [|exact Hl|exact Hi].
    eapply find_typed; eassumption.
  - destruct (int32 awarded) as [z|] eqn:Hi; [|apply step_none].
    rewrite Hf. cbn [snd set_loyaltyPoints loyaltyPoints].
    pose proof (int32_inv _ _ Hi) as [_ Hr].
    apply (step_create _ c z t Hf Hr).
Qed.

Lemma exec_insert_ledger (st : Store) (key : string) :
  loyaltyPoints (snd (exec (InsertMarker key) st)) = loyaltyPoints st.
Proof.
  cbn [exec]. destruct (unique_name st && existsb (has_key key) (migrations st)); reflexivity.
Qed.

Lemma exec_find_unique (st : Store) (customer : value) (found : option LoyaltyPoints) :
  fst (exec (FindUnique customer) st) = inr found ->
  exists c, customer = Str c /\ found = find_unique st c.
Proof.
  destruct customer; cbn [exec fst]; intros H; try discriminate.
  injection H as <-. eauto.
Qed.

Lemma exec_find_unique_store (st : Store) (customer : value) :
  snd (exec (FindUnique customer) st) = st.
Proof. destruct customer; reflexivity. Qed.

Lemma customer_unique (l : list LoyaltyPoints) (r row : LoyaltyPoints) :
  NoDup (map customerId l) -> In r l -> In row l ->
  customerId r = customerId row -> r = row.
Proof.
  induction l as [|x l IH]; simpl; [intros _ []|].
  intros N [->|Hr] [->|Hrow] E.
  - reflexivity.
  - inversion N as [|? ? Hx _]. exfalso. apply Hx. rewrite E. apply in_map, Hrow.
  - inversion N as [|? ? Hx _]. exfalso. apply Hx. rewrite <- E. apply in_map, Hr.
  - inversion N. apply IH; assumption.
Qed.

Lemma NoDup_snoc {A : Type} (l : list A) (x : A) :
  NoDup l -> ~ In x l -> NoDup (l ++ [x]).
Proof.
  induction l as [|y l IH]; simpl; intros N Hx.
  - constructor; [intros []|constructor].
  - inversion N as [|? ? Hy N']. constructor.
    + rewrite in_app_iff. simpl. intros [Hin|[Hin|[]]]; [exact (Hy Hin)|].
      apply Hx. left. symmetry. exact Hin.
    + apply IH; [exact N'|]. intros Hin. apply Hx. right. exact Hin.
Qed.

Lemma replace_row_customers (row : LoyaltyPoints) (l : list LoyaltyPoints) :
  map customerId (replace_row row l) = map customerId l.
Proof.
  unfold replace_row. rewrite map_map. apply map_ext. intros r.
  destruct (is_customer (customerId row) r) eqn:E; [|reflexivity].
  apply String.eqb_eq in E. symmetry. exact E.
Qed.

(** A step keeps the ledger unique and typed, and makes it grow. *)
Lemma ledger_step_sound (l l' : list LoyaltyPoints) :
  ledger_step l l' ->
  NoDup (map customerId l) ->
  Forall (fun r => - 2 ^ 31 <= points r < 2 ^ 31) l ->
  NoDup (map customerId l')
  /\ Forall (fun r => - 2 ^ 31 <= points r < 2 ^ 31) l'
  /\ ledger_grows l l'.
Proof.
  intros [|c row z t Hf Hz Hr|c z t Hf Hr] N T.
  - split; [exact N|]. split; [exact T|]. intros r Hin. exists r.
    split; [exact Hin|]. split; [reflexivity|lia].
  - split; [rewrite replace_row_customers; exact N|]. split.
    + unfold replace_row. rewrite Forall_forall in *. intros r Hin.
      apply in_map_iff in Hin as (r0 & <- & Hin0).
      destruct (is_customer _ r0); [exact Hr|apply T, Hin0].
    + intros r Hin. apply find_some in Hf as [Hrow Hc].
      exists (if is_customer c r
              then {| customerId := c; points := z; updatedAt := t |} else r).
      split.
      { unfold replace_row. cbn [customerId].
        exact (in_map (fun r0 => if is_customer c r0
                                 then {| customerId := c; points := z; updatedAt := t |}
                                 else r0) l r Hin). }
      destruct (is_customer c r) eqn:E; [|split; [reflexivity|lia]].
      apply String.eqb_eq in E, Hc. split; [symmetry; exact E|]. cbn [points].
      rewrite (customer_unique l r row N Hin Hrow) by congruence. exact Hz.
  - split; [|split].
    + rewrite map_app. apply NoDup_snoc; [exact N|]. cbn [map customerId].
      intros Hin. apply in_map_iff in Hin as (r & E & Hin).
      pose proof (find_none _ _ Hf r Hin) as Hn. unfold is_customer in Hn.
      rewrite E, String.eqb_refl in Hn. discriminate.
    + apply Forall_app. split; [exact T|]. constructor; [exact Hr|constructor].
    + intros r Hin. exists r. split; [apply in_or_app; left; exact Hin|].
      split; [reflexivity|lia].
Qed.

End Ledger.


Section LedgerInvariant.

(** What any delivery does to the ledger, under any faults. *)
Lemma deliver_ledger_step (st : Store) (fs : list (option Error)) (t : Z)
    (topic : string) (json : Error + value) :
  ledger_typed st ->
  ledger_step (loyaltyPoints st)
    (loyaltyPoints (snd (fst (deliver st fs t topic json)))).
Proof.
  intros Ht.
  destruct (action_cases topic json)
    as [(r & _ & Hr)|(order & -> & -> & Hq & _)].
  { rewrite (deliver_ret _ _ _ _ _ _ Hr). apply step_none. }
  pose proof (qualifies_inv _ Hq) as (_ & _ & _ & Hp & _).
  unfold deliver. rewrite (interp_qualifying_award db _ _ Hq). cbv zeta.
  set (key := key_of order).
  set (customer := customer_id_of order).
  destruct (db_answer_spec (SelectMarker key) {| store := st; faults := fs; now := t |})
    as [(e & rest & _ & ->)|[_ ->]]; [apply step_none|].
  cbn [exec fst snd store faults now].
  destruct (0 <? Z.of_nat (List.length (select_marker st key))); [apply step_none|].
  destruct (db_answer_spec (InsertMarker key) {| store := st; faults := tl fs; now := t |})
    as [(e & rest & _ & ->)|[_ ->]]; [apply step_none|].
  cbn [store faults now].
  pose proof (exec_insert_ledger st key) as L1.
  set (st1 := snd (exec (InsertMarker key) st)) in *.
  destruct (fst (exec (InsertMarker key) st)) as [e|n];
    [cbn [fst snd store]; rewrite L1; apply step_none|].
  destruct (db_answer_spec (FindUnique customer)
              {| store := st1; faults := tl (tl fs); now := t |})
    as [(e & rest & _ & ->)|[_ ->]];
    [cbn [fst snd store]; rewrite L1; apply step_none|].
  cbn [store faults now]. rewrite exec_find_unique_store.
  destruct (fst (exec (FindUnique customer) st1)) as [e|found] eqn:F;
    [cbn [fst snd store]; rewrite L1; apply step_none|].
  apply exec_find_unique in F as (c & Hcust & ->). rewrite Hcust.
  cbn [clock db now].
  assert (T1 : ledger_typed st1) by (unfold ledger_typed; rewrite L1; exact Ht).
  pose proof (exec_award_write st1 c (awarded_of order) t T1 Hp) as W.
  rewrite L1 in W.
  set (q := match find_unique st1 c with
            | Some row => Update (Str c) (add (of_Z (points row)) (awarded_of order)) t
            | None => Create (Str c) (awarded_of order) t
            end) in *.
  destruct (db_answer_spec q {| store := st1; faults := tl (tl (tl fs)); now := t |})
    as [(e & rest & _ & ->)|[_ ->]]; cbn [fst snd store].
  - rewrite L1. apply step_none.
  - exact W.
Qed.

(** C8. Every delivery, whatever the event and whatever the faults,
    keeps at most one row per customer and every balance within its
    column, leaves every customer's row in the ledger with a balance that
    is equal or larger, and deletes nothing: it leaves the ledger as it
    was, or rewrites one customer's row in place, or appends a row for a
    customer who had none. *)
Theorem ledger_invariant (st : Store) (fs : list (option Error)) (t : Z)
    (topic : string) (json : Error + value) :
  ledger_unique st ->
  ledger_typed st ->
  let st' := snd (fst (deliver st fs t topic json)) in
  ledger_unique st'
  /\ ledger_typed st'
  /\ ledger_grows (loyaltyPoints st) (loyaltyPoints st')
  /\ ledger_step (loyaltyPoints st) (loyaltyPoints st').
Proof.
  intros Hu Ht st'.
  pose proof (deliver_ledger_step st fs t topic json Ht) as Hs. fold st' in Hs.
  destruct (ledger_step_sound _ _ Hs Hu Ht) as (A & B & C).
  repeat split; assumption.
Qed.

Lemma ledger_invariant_witness :
  let st' := snd (fst (deliver store_two_customers [] 9 orders_create (inr order_30))) in
  ledger_unique st'
  /\ ledger_typed st'
  /\ ledger_grows (loyaltyPoints store_two_customers) (loyaltyPoints st')
  /\ ledger_step (loyaltyPoints store_two_customers) (loyaltyPoints st').
Proof.
  apply (ledger_invariant store_two_customers [] 9 orders_create (inr order_30)).
  - unfold ledger_unique. simpl. repeat constructor; simpl; intuition discriminate.
  - unfold ledger_typed. simpl. repeat constructor; simpl; lia.
Defined.

End LedgerInvariant.


(* ================================================================== *)
(** * Subtotals                                                        *)
(* ================================================================== *)

Section Subtotals.

(** An order with a customer whose subtotal parses to a negative Number
    is answered 200 "No points earned"; nothing is issued. *)
Lemma negative_subtotal_is_noop (st : Store) (fs : list (option Error)) (t : Z)
    (order : value) :
  nullish order = false -> has_customer order = true ->
  convertible (subtotal_arg order) = true ->
  sign_of (subtotal_number order) = Some true ->
  deliver st fs t orders_create (inr order) = (inr no_points, st, []).
Proof.
  intros Hn Hc Hv Hs. apply deliver_ret, action_no_points; try assumption.
  apply negative_subtotal_no_points, Hs.
Qed.

Example negative_subtotal_example :
  deliver empty_store [] 7 orders_create (inr order_negative)
  = (inr no_points, empty_store, []).
Proof.
  apply (negative_subtotal_is_noop empty_store [] 7 order_negative); reflexivity.
Qed.

(** An order with a customer whose subtotal does not parse: the points
    are [NaN], and [NaN <= 0] is false, so the order qualifies.  Against a
    store without its marker and without faults the marker is inserted;
    the ledger write is then rejected, since [NaN] is no [INTEGER], and the
    answer is 500. *)
Lemma unparsable_subtotal_is_marked (st : Store) (t : Z) (order : value) (c : string) :
  nullish order = false -> has_customer order = true ->
  customer_id_of order = Str c ->
  convertible (subtotal_arg order) = true ->
  subtotal_number order = NaN ->
  convertible (order_id_of order) = true ->
  marked st (key_of order) = false ->
  qualifies order = true
  /\ exists log,
       deliver st [] t orders_create (inr order)
       = (inr (failed invalid_argument),
          set_migrations st (migrations st ++ [marker (key_of order)]), log).
Proof.
  intros Hn Hc Hi Hv Hp Ho Hm.
  assert (Ha : awarded_of order = NaN).
  { unfold awarded_of, points_for. rewrite Hp. reflexivity. }
  assert (Hq : qualifies order = true).
  { apply qualifies_intro; try assumption. rewrite Ha. reflexivity. }
  split; [exact Hq|].
  rewrite (deliver_commit _ _ _ _ Hq Hi Hm). cbv zeta. rewrite Ha.
  destruct (find_unique st c) as [row|]; cbn [exec].
  - rewrite add_nan. cbn [int32 to_integer NaN fst snd]. eexists. reflexivity.
  - cbn [int32 to_integer NaN fst snd]. eexists. reflexivity.
Qed.

(** C2, at the input where the code departs from it.  The order has a
    customer and the subtotal ["abc"].  Its points are [NaN], which the
    test [points <= 0] lets through: the marker is inserted, the ledger
    write is rejected and the answer is 500, not a 200 no-op.  A
    redelivery then finds the marker and answers "Order already
    processed". *)
Theorem non_numeric_subtotal_is_marked :
  awarded_of order_non_numeric = NaN
  /\ leb (awarded_of order_non_numeric) pos_zero = false
  /\ deliver empty_store [] 7 orders_create (inr order_non_numeric)
     = (inr (failed invalid_argument),
        {| unique_name := true;
           migrations := [marker "order_1003_processed"];
           loyaltyPoints := [] |},
        [(issue (SelectMarker "order_1003_processed"), None);
         (issue (InsertMarker "order_1003_processed"), None);
         (issue (FindUnique (Str "c1")), None);
         (issue (Create (Str "c1") NaN 7), Some invalid_argument)])
  /\ fst (fst (deliver
                 (snd (fst (deliver empty_store [] 7 orders_create (inr order_non_numeric))))
                 [] 8 orders_create (inr order_non_numeric)))
     = inr already_processed.
Proof. repeat split; reflexivity. Qed.

(** C4. The points of an order with a customer and the subtotal string
    [s] are [Math.floor(parseFloat(s) / 10)], an integral Number whenever
    finite.  When they are [<= 0] the answer is 200 "No points earned" and
    nothing is issued.  Otherwise they are the amount awarded: on the
    fault-free path of an unmarked order the balance written is the
    balance read plus the points (the points alone for a new customer),
    whenever the [INTEGER] column takes it.  The points of ["9.99"] are
    [0] and those of ["10.00"] are [1]. *)
Theorem points_are_floor_of_tenth (st : Store) (fs : list (option Error)) (t : Z)
    (order : value) (s : string) :
  nullish order = false ->
  has_customer order = true ->
  subtotal_of order = Str s ->
  s <> "" ->
  let awarded := Math_floor (div (parseFloat_string s) (of_Z 10)) in
  awarded_of order = awarded
  /\ to_integer awarded = floor_of (div (parseFloat_string s) (of_Z 10))
  /\ (leb awarded pos_zero = true ->
        deliver st fs t orders_create (inr order) = (inr no_points, st, []))
  /\ (leb awarded pos_zero = false ->
        forall c z,
          customer_id_of order = Str c ->
          convertible (order_id_of order) = true ->
          marked st (key_of order) = false ->
          int32 (match find_unique st c with
                 | Some row => add (of_Z (points row)) awarded
                 | None => awarded
                 end) = Some z ->
          exists st' log,
            deliver st [] t orders_create (inr order)
            = (inr (added awarded c), st', log)
            /\ find_unique st' c
               = Some {| customerId := c; points := z; updatedAt := t |})
  /\ points_for (parseFloat_string "9.99") = pos_zero
  /\ points_for (parseFloat_string "10.00") = of_Z 1.
Proof.
  intros Hn Hc Hs Hne awarded.
  assert (Harg : subtotal_arg order = Str s).
  { unfold subtotal_arg, or_else. rewrite Hs. cbn [truthy].
    destruct s; [congruence|reflexivity]. }
  assert (Hv : convertible (subtotal_arg order) = true) by (rewrite Harg; reflexivity).
  assert (Ha : awarded_of order = awarded).
  { unfold awarded_of, subtotal_number. rewrite Harg. reflexivity. }
  split; [exact Ha|]. split; [apply Math_floor_spec, div_ten_wellformed|].
  split; [|split; [|split; reflexivity]].
  - intros Hl. apply deliver_ret, action_no_points; try assumption.
    rewrite Ha. exact Hl.
  - intros Hl c z Hi Ho Hm Hz.
    assert (Hq : qualifies order = true)
      by (apply qualifies_intro; try assumption; rewrite Ha; exact Hl).
    rewrite (deliver_commit _ _ _ _ Hq Hi Hm). cbv zeta. rewrite Ha.
    destruct (find_unique st c) as [row|] eqn:Hf; cbn [exec]; rewrite Hz.
    + change (find_unique (set_migrations st _) c) with (find_unique st c). rewrite Hf.
      cbn [fst snd]. do 2 eexists. split; [reflexivity|].
      unfold find_unique. cbn [loyaltyPoints set_loyaltyPoints set_migrations].
      apply (find_replace_row {| customerId := c; points := z; updatedAt := t |}
               (loyaltyPoints st) row). exact Hf.
    + change (find_unique (set_migrations st _) c) with (find_unique st c). rewrite Hf.
      cbn [fst snd]. do 2 eexists. split; [reflexivity|].
      unfold find_unique. cbn [loyaltyPoints set_loyaltyPoints set_migrations].
      apply find_append_row. exact Hf.
Qed.

Lemma points_are_floor_of_tenth_witness :
  deliver empty_store [] 7 orders_create (inr order_below_threshold)
  = (inr no_points, empty_store, [])
  /\ exists st' log,
       deliver empty_store [] 7 orders_create (inr order_10)
       = (inr (added (of_Z 1) "c1"), st', log)
       /\ find_unique st' "c1" = Some {| customerId := "c1"; points := 1; updatedAt := 7 |}.
Proof.
  split.
  - destruct (points_are_floor_of_tenth empty_store [] 7 order_below_threshold "9.99"
                eq_refl eq_refl eq_refl ltac:(discriminate)) as (_ & _ & H & _).
    exact (H eq_refl).
  - destruct (points_are_floor_of_tenth empty_store [] 7 order_10 "10.00"
                eq_refl eq_refl eq_refl ltac:(discriminate)) as (_ & _ & _ & H & _).
    exact (H eq_refl "c1" 1 eq_refl eq_refl eq_refl eq_refl).
Defined.

End Subtotals.

(* ================================================================== *)
(** * Deliveries that overlap                                          *)
(* ================================================================== *)

Section Races.

(** The statements of one delivery are not one transaction.  Two
    deliveries for one customer that both read the balance [5] before
    either writes: the first writes [5 + 3], the second then writes
    [5 + 2] over it.  Both answer "Added ...", and the balance ends at
    [7]. *)
Remark overlapping_awards_overwrite :
  let '((out1, _), (out2, _), st) :=
    race [true; true; true; false; false; false] store_with_5 7
      orders_create (inr order_30) orders_create (inr order_20) in
  out1 = inr (added (of_Z 3) "c1")
  /\ out2 = inr (added (of_Z 2) "c1")
  /\ find_unique st "c1" = Some {| customerId := "c1"; points := 7; updatedAt := 7 |}.
Proof. vm_compute. repeat split; reflexivity. Qed.

(** Where the marker table does not enforce unique names, two
    overlapping deliveries of one order both insert the marker and both
    award. *)
Remark overlapping_deliveries_award_twice :
  let '((out1, _), (out2, _), st) :=
    race [true; false; true; false] loose_store 7
      orders_create (inr order_1001) orders_create (inr order_1001) in
  out1 = inr (added (of_Z 5) "c1")
  /\ out2 = inr (added (of_Z 5) "c1")
  /\ find_unique st "c1" = Some {| customerId := "c1"; points := 10; updatedAt := 7 |}
  /\ List.length (migrations st) = 2%nat.
Proof. vm_compute. repeat split; reflexivity. Qed.

End Races.

Section MoreArithmetic.

Lemma to_integer_opp (m : positive) (e b : Z) :
  to_integer (S754_finite false m e) = Some b ->
  to_integer (S754_finite true m e) = Some (- b).
Proof.
  unfold to_integer, cond_Zopp. destruct (0 <=? e).
  - intros H. f_equal. assert (b = Z.pos m * 2 ^ e) by congruence. lia.
  - destruct (_ =? 0); [|discriminate]. intros H. f_equal.
    assert (b = Z.pos m / 2 ^ (- e)) by congruence. lia.
Qed.

Lemma sub_finite (sa : bool) (ma : positive) (ea : Z) (m : positive) (e : Z) :
  let ez := Z.min ea e in
  sub (S754_finite sa ma ea) (S754_finite false m e)
  = binary_normalize 53 1024
      (cond_Zopp sa (Z.pos ma * 2 ^ (ea - ez)) - Z.pos m * 2 ^ (e - ez)) ez false.
Proof.
  intros ez. unfold sub, SFsub. fold ez.
  pose proof (shl_align_spec ma ea ez) as H1.
  pose proof (shl_align_spec m e ez) as H2.
  destruct (shl_align ma ea ez) as [m1 e1], (shl_align m e ez) as [m2 e2].
  destruct H1 as [E1 M1], H2 as [E2 M2]. cbn [fst cond_Zopp].
  replace e1 with ez in M1 by (unfold ez in *; lia).
  replace e2 with ez in M2 by (unfold ez in *; lia).
  rewrite M1, M2. reflexivity.
Qed.

(** Rounding [c·2^(-ez)] at exponent [ez], for an integer [c] below
    [2^53], yields [c]. *)
Lemma normalize_exact_integer (c ez : Z) :
  ez <= 0 -> Z.abs c < 2 ^ 53 ->
  to_integer (binary_normalize 53 1024 (c * 2 ^ (- ez)) ez false) = Some c.
Proof.
  intros Hez Hc.
  assert (HT : 0 < 2 ^ (- ez)) by (apply Z.pow_pos_nonneg; lia).
  unfold binary_normalize. destruct c as [|N|N].
  - reflexivity.
  - destruct (Z.pos N * 2 ^ (- ez)) as [|M|M] eqn:HM; try nia.
    apply (round_exact_integer false N M ez); [exact Hez|lia|congruence].
  - destruct (Z.neg N * 2 ^ (- ez)) as [|M|M] eqn:HM; try nia.
    apply (round_exact_integer true N M ez); [exact Hez|lia|].
    change (Z.neg N) with (- Z.pos N) in HM. change (Z.neg M) with (- Z.pos M) in HM. lia.
Qed.

(** Subtracting an integral positive Number from the Number of a 32-bit
    integer is exact. *)
Lemma sub_integers_exact (a b : Z) (m : positive) (e : Z) :
  Z.abs a <= 2 ^ 31 ->
  to_integer (S754_finite false m e) = Some b ->
  Z.abs (a - b) < 2 ^ 53 ->
  to_integer (sub (of_Z a) (S754_finite false m e)) = Some (a - b).
Proof.
  intros Ha Hb Hab.
  destruct (Z.eq_dec a 0) as [->|Na].
  { cbn [of_Z sub SFsub binary_normalize negb]. apply to_integer_opp. exact Hb. }
  destruct (of_Z_spec a ltac:(lia)) as (ma & ea & -> & Hea & Hma).
  rewrite sub_finite. cbv zeta.
  set (ez := Z.min ea e). assert (Hez : ez <= 0) by (unfold ez; lia).
  rewrite (aligned_integer m e b ez Hb ltac:(unfold ez; lia) Hez).
  replace (cond_Zopp (a <? 0) (Z.pos ma * 2 ^ (ea - ez))) with (a * 2 ^ (- ez)).
  - rewrite <- Z.mul_sub_distr_r. apply normalize_exact_integer; assumption.
  - rewrite Hma, <- Z.mul_assoc, <- pow2_split by (unfold ez; lia).
    replace (- ea + (ea - ez)) with (- ez) by lia.
    unfold cond_Zopp. destruct (Z.ltb_spec a 0); lia.
Qed.

Lemma to_integer_negative (m : positive) (e z : Z) :
  to_integer (S754_finite true m e) = Some z -> z < 0.
Proof.
  intros H.
  assert (P : to_integer (S754_finite false m e) = Some (- z)).
  { revert H. unfold to_integer, cond_Zopp. destruct (0 <=? e).
    - intros H. f_equal. assert (z = - (Z.pos m * 2 ^ e)) by congruence. lia.
    - destruct (_ =? 0); [|discriminate]. intros H. f_equal.
      assert (z = - (Z.pos m / 2 ^ (- e))) by congruence. lia. }
  apply to_integer_positive in P. lia.
Qed.

(** A Number that is neither NaN nor below zero. *)
Lemma not_below_zero (x : number) :
  isNaN x = false -> ltb x pos_zero = false ->
  (exists s, x = S754_zero s) \/ x = Infinity \/ exists m e, x = S754_finite false m e.
Proof.
  destruct x as [s|[|]| |[|] m e]; cbn; intros; try discriminate; eauto.
Qed.

Lemma integral_not_below_zero (x : number) (v : Z) :
  to_integer x = Some v -> 0 <= v ->
  isNaN x = false /\ ltb x pos_zero = false
  /\ ((exists s, x = S754_zero s /\ v = 0) \/ (0 < v /\ exists m e, x = S754_finite false m e)).
Proof.
  destruct x as [s|s| |s m e]; intros H Hv; try discriminate.
  - cbn in H. injection H as <-. repeat split; eauto.
  - destruct s.
    + apply to_integer_negative in H. lia.
    + pose proof (to_integer_positive _ _ _ H). repeat split; eauto.
Qed.

Lemma add_zero_r (a : Z) (s : bool) :
  Z.abs a <= 2 ^ 31 -> to_integer (add (of_Z a) (S754_zero s)) = to_integer (of_Z a).
Proof.
  intros Ha. destruct (of_Z_finite_or_zero a Ha) as [->|(s' & m & e & ->)].
  - destruct s; reflexivity.
  - reflexivity.
Qed.

Lemma sub_zero_r (a : Z) (s : bool) :
  Z.abs a <= 2 ^ 31 -> to_integer (sub (of_Z a) (S754_zero s)) = to_integer (of_Z a).
Proof.
  intros Ha. destruct (of_Z_finite_or_zero a Ha) as [->|(s' & m & e & ->)].
  - destruct s; reflexivity.
  - reflexivity.
Qed.

Lemma to_integer_of_Z (a : Z) : Z.abs a < 2 ^ 53 -> to_integer (of_Z a) = Some a.
Proof.
  intros Ha. replace a with (a * 2 ^ (- 0)) at 1 by (cbn; lia).
  apply normalize_exact_integer; lia.
Qed.

Lemma max_zero_integer (y : number) (z : Z) :
  to_integer y = Some z -> to_integer (Math_max pos_zero y) = Some (Z.max 0 z).
Proof.
  destruct y as [s|s| |s m e]; intros H; try discriminate.
  - cbn in H. injection H as <-. destruct s; reflexivity.
  - destruct s.
    + pose proof (to_integer_negative _ _ _ H).
      replace (Z.max 0 z) with 0 by lia. reflexivity.
    + pose proof (to_integer_positive _ _ _ H).
      replace (Z.max 0 z) with z by lia. exact H.
Qed.

End MoreArithmetic.

Section AdjustShape.
Import Loyalty.

Lemma report_reported (graphql : Error + value) (n : number) :
  try_catch (report graphql n) handler = Ret (reported graphql n).
Proof.
  unfold reported, report. destruct graphql as [e|v]; [reflexivity|].
  cbn. destruct (get v "data") as [e|data]; [reflexivity|].
  cbn. destruct (get data "customer") as [e|customer]; [reflexivity|].
  cbn. destruct (get customer "displayName") as [e|displayName]; [reflexivity|].
  cbn. destruct (truthy displayName).
  - cbn. destruct (ToString displayName); reflexivity.
  - destruct (get customer "email") as [e|email]; [reflexivity|].
    cbn. destruct (ToString email); reflexivity.
Qed.

Lemma reported_rejected (e : Error) (n : number) :
  reported (inl e) n = update_failed e.
Proof. reflexivity. Qed.

Lemma try_catch_bind_ret {A R : Type} (p : prog A) (f : A -> prog R) (h : Error -> prog R) (a : A) :
  p = Ret a -> try_catch (bind p f) h = try_catch (f a) h.
Proof. intros ->. reflexivity. Qed.

Context {S : Type} (w : World S).

Lemma interp_refused (customer amount operation : option FormDataEntryValue)
    (graphql : Error + value) (s : S) :
  negb (truthy (entry_value customer))
  || isNaN (parseInt (entry_string amount))
  || ltb (parseInt (entry_string amount)) pos_zero = true ->
  interp w (action customer amount operation graphql) s = (inr invalid, s, []).
Proof. intros H. unfold action. rewrite H. reflexivity. Qed.

Lemma interp_accepted (customer amount operation : option FormDataEntryValue)
    (graphql : Error + value) (s : S) :
  negb (truthy (entry_value customer))
  || isNaN (parseInt (entry_string amount))
  || ltb (parseInt (entry_string amount)) pos_zero = false ->
  interp w (action customer amount operation graphql) s =
    let who := entry_value customer in
    let pointsChange := parseInt (entry_string amount) in
    let '(r1, s1) := answer w (FindUnique who) s in
    let e1 := (issue (FindUnique who), rejection r1) in
    match r1 with
    | inl e => (inr (update_failed e), s1, [e1])
    | inr found =>
        let '(t, s2) := clock w s1 in
        let q := ledger_write who (entry_value operation) pointsChange found t in
        let '(r2, s3) := answer w q s2 in
        (inr (match r2 with
              | inl e => update_failed e
              | inr _ => reported graphql (written (entry_value operation) pointsChange found)
              end),
         s3, [e1; (issue q, rejection r2)])
    end.
Proof.
  intros H. unfold action. rewrite H. cbv zeta. cbn [interp try_catch bind await].
  destruct (answer w (FindUnique (entry_value customer)) s) as [[e|found] s1].
  { reflexivity. }
  destruct found as [row|]; cbn [interp try_catch bind new_Date await ledger_write written].
  - destruct (clock w s1) as [t s2]. cbn [interp try_catch bind await].
    destruct (answer w _ s2) as [[e|row'] s3]; cbn [interp try_catch bind rejection].
    + reflexivity.
    + rewrite report_reported. reflexivity.
  - destruct (clock w s1) as [t s2]. cbn [interp try_catch bind await].
    destruct (answer w _ s2) as [[e|row'] s3]; cbn [interp try_catch bind rejection].
    + reflexivity.
    + rewrite report_reported. reflexivity.
Qed.

End AdjustShape.

(* ================================================================== *)
(** * Adjusting points by hand                                         *)
(* ================================================================== *)

Section Adjusting.
Import Loyalty.

Lemma truthy_text (c : string) : c <> "" -> truthy (Str c) = true.
Proof.
  intros H. cbn. destruct (String.eqb_spec c ""); [contradiction|reflexivity].
Qed.

Lemma operation_is_equal (operation : option FormDataEntryValue) (name : string) :
  strict_equal (entry_value operation) (Str name) = operation_is operation name.
Proof. destruct operation as [[s|]|]; reflexivity. Qed.

Lemma new_balance_cases (operation : option FormDataEntryValue) (b : Z) (p : number) :
  new_balance (entry_value operation) b p =
    if operation_is operation "add" then add (of_Z b) p
    else if operation_is operation "subtract" then Math_max pos_zero (sub (of_Z b) p)
    else p.
Proof.
  unfold new_balance. rewrite !operation_is_equal.
  destruct (operation_is operation "add"); [reflexivity|].
  destruct (operation_is operation "subtract"); [reflexivity|].
  destruct (operation_is operation "set"); reflexivity.
Qed.

(** The new balance, as an integer. *)
Lemma new_balance_integer (operation : option FormDataEntryValue) (b v : Z) (p : number) :
  - 2 ^ 31 <= b < 2 ^ 31 ->
  to_integer p = Some v -> 0 <= v < 2 ^ 52 ->
  to_integer (new_balance (entry_value operation) b p)
  = Some (balance_after operation b v).
Proof.
  intros Hb Hp Hv. rewrite new_balance_cases. unfold balance_after.
  assert (B : 2 ^ 31 < 2 ^ 52) by reflexivity.
  assert (B' : 2 ^ 52 < 2 ^ 53) by reflexivity.
  destruct (integral_not_below_zero p v Hp ltac:(lia))
    as (_ & _ & [(s & -> & ->)|(Pv & m & e & ->)]).
  - destruct (operation_is operation "add").
    { rewrite add_zero_r, Z.add_0_r by lia. apply to_integer_of_Z. lia. }
    destruct (operation_is operation "subtract"); [|reflexivity].
    apply max_zero_integer. rewrite sub_zero_r, Z.sub_0_r by lia.
    apply to_integer_of_Z. lia.
  - destruct (operation_is operation "add").
    { apply add_integers_exact; [lia|exact Hp|lia]. }
    destruct (operation_is operation "subtract"); [|exact Hp].
    apply max_zero_integer. apply sub_integers_exact; [lia|exact Hp|lia].
Qed.

(** A new balance that the column takes is not below zero when the balance
    read is not. *)
Lemma new_balance_nonnegative (operation : value) (b z : Z) (p : number) :
  0 <= b < 2 ^ 31 ->
  isNaN p = false -> ltb p pos_zero = false ->
  int32 (new_balance operation b p) = Some z -> 0 <= z.
Proof.
  intros Hb N L Hi. apply int32_inv in Hi as [Hi _].
  assert (Hset : to_integer p = Some z -> 0 <= z).
  { destruct (not_below_zero p N L) as [(s & ->)|[->|(m & e & ->)]]; intros H.
    - cbn in H. injection H as <-. lia.
    - discriminate.
    - apply to_integer_nonneg in H. exact H. }
  unfold new_balance in Hi.
  destruct (strict_equal operation (Str "add")).
  { destruct (not_below_zero p N L) as [(s & ->)|[->|(m & e & ->)]].
    - rewrite add_zero_r, to_integer_of_Z in Hi.
      + injection Hi as <-. lia.
      + assert (2 ^ 31 < 2 ^ 53) by reflexivity. lia.
      + lia.
    - destruct (of_Z_finite_or_zero b ltac:(lia)) as [E|(s & m & e & E)];
        rewrite E in Hi; discriminate.
    - apply add_positive_monotone in Hi; lia. }
  destruct (strict_equal operation (Str "subtract")).
  { destruct (sub (of_Z b) p) as [s|s| |s m e]; try discriminate.
    - destruct s; cbn in Hi; injection Hi as <-; lia.
    - destruct s; cbn in Hi; [injection Hi as <-; lia|discriminate].
    - destruct s; cbn in Hi.
      + injection Hi as <-. lia.
      + change (to_integer (S754_finite false m e) = Some z) in Hi.
        apply to_integer_nonneg in Hi. exact Hi. }
  destruct (strict_equal operation (Str "set")); apply Hset; exact Hi.
Qed.

Lemma created_nonnegative (p : number) (z : Z) :
  isNaN p = false -> ltb p pos_zero = false -> int32 p = Some z -> 0 <= z.
Proof.
  intros N L Hi. apply int32_inv in Hi as [Hi _].
  destruct (not_below_zero p N L) as [(s & ->)|[->|(m & e & ->)]].
  - cbn in Hi. injection Hi as <-. lia.
  - discriminate.
  - apply to_integer_nonneg in Hi. exact Hi.
Qed.

Lemma guard_inv (customer amount : option FormDataEntryValue) :
  negb (truthy (entry_value customer))
  || isNaN (parseInt (entry_string amount))
  || ltb (parseInt (entry_string amount)) pos_zero = false ->
  truthy (entry_value customer) = true
  /\ isNaN (parseInt (entry_string amount)) = false
  /\ ltb (parseInt (entry_string amount)) pos_zero = false.
Proof.
  intros H. apply orb_false_iff in H as [H L]. apply orb_false_iff in H as [T N].
  apply negb_false_iff in T. auto.
Qed.

Lemma guard_intro (c s : string) (v : Z) :
  c <> "" -> to_integer (parseInt s) = Some v -> 0 <= v ->
  negb (truthy (entry_value (Some (Text c))))
  || isNaN (parseInt (entry_string (Some (Text s))))
  || ltb (parseInt (entry_string (Some (Text s)))) pos_zero = false.
Proof.
  intros Hc Hp Hv. cbn [entry_value entry_string].
  rewrite (truthy_text c Hc).
  destruct (integral_not_below_zero _ v Hp Hv) as (-> & -> & _). reflexivity.
Qed.

(** The ledger after a statement that writes it. *)
Lemma exec_ledger_write (st : Store) (c : string) (operation : value) (p : number) (t : Z) :
  let found := find_unique st c in
  let q := ledger_write (Str c) operation p found t in
  match int32 (written operation p found) with
  | Some z =>
      let row := {| customerId := c; points := z; updatedAt := t |} in
      fst (exec q st) = inr row
      /\ snd (exec q st)
         = set_loyaltyPoints st
             (match found with
              | Some _ => replace_row row (loyaltyPoints st)
              | None => (loyaltyPoints st ++ [row])%list
              end)
  | None => fst (exec q st) = inl invalid_argument /\ snd (exec q st) = st
  end.
Proof.
  cbv zeta. destruct (find_unique st c) as [old|] eqn:F; cbn [ledger_write written exec].
  - destruct (int32 _) as [z|]; [|split; reflexivity].
    rewrite F. split; reflexivity.
  - destruct (int32 p) as [z|]; [|split; reflexivity].
    rewrite F. split; reflexivity.
Qed.

(** A submission without faults, for a customer id that is a text. *)
Lemma adjust_accepted (st : Store) (t : Z) (c : string)
    (amount operation : option FormDataEntryValue) (graphql : Error + value) :
  negb (truthy (entry_value (Some (Text c))))
  || isNaN (parseInt (entry_string amount))
  || ltb (parseInt (entry_string amount)) pos_zero = false ->
  let p := parseInt (entry_string amount) in
  let found := find_unique st c in
  let q := ledger_write (Str c) (entry_value operation) p found t in
  adjust st [] t (Some (Text c)) amount operation graphql
  = (inr (match fst (exec q st) with
          | inl e => update_failed e
          | inr _ => reported graphql (written (entry_value operation) p found)
          end),
     snd (exec q st),
     [(issue (FindUnique (Str c)), None); (issue q, rejection (fst (exec q st)))]).
Proof.
  intros G. cbv zeta. unfold adjust. rewrite (interp_accepted db _ _ _ _ _ G).
  cbv zeta. cbn [entry_value]. rewrite db_answer_nofault. cbn [exec fst snd clock db now].
  rewrite db_answer_nofault.
  destruct (exec _ st) as [[e|row] st']; reflexivity.
Qed.

Lemma find_other_replace_row (row : LoyaltyPoints) (l : list LoyaltyPoints) (c : string) :
  c <> customerId row ->
  find (is_customer c) (replace_row row l) = find (is_customer c) l.
Proof.
  intros Hc. unfold replace_row. induction l as [|r l IH]; [reflexivity|].
  cbn [map find]. destruct (is_customer (customerId row) r) eqn:E.
  - apply String.eqb_eq in E.
    replace (is_customer c row) with false.
    + replace (is_customer c r) with false; [exact IH|].
      symmetry. apply String.eqb_neq. congruence.
    + symmetry. apply String.eqb_neq. congruence.
  - destruct (is_customer c r); [reflexivity|exact IH].
Qed.

Lemma find_other_append_row (row : LoyaltyPoints) (l : list LoyaltyPoints) (c : string) :
  c <> customerId row ->
  find (is_customer c) (l ++ [row]) = find (is_customer c) l.
Proof.
  intros Hc. induction l as [|r l IH]; cbn [app find].
  - replace (is_customer c row) with false; [reflexivity|].
    symmetry. apply String.eqb_neq. congruence.
  - destruct (is_customer c r); [reflexivity|exact IH].
Qed.

Lemma find_none_not_in (l : list LoyaltyPoints) (c : string) :
  find (is_customer c) l = None -> ~ In c (map customerId l).
Proof.
  intros Hf Hin. apply in_map_iff in Hin as (r & E & Hin).
  pose proof (find_none _ _ Hf r Hin) as Hn. unfold is_customer in Hn.
  rewrite E, String.eqb_refl in Hn. discriminate.
Qed.

(** What any submission does to the store, under any faults: nothing, or
    the one write of a submission that passed the check. *)
Lemma adjust_store (st : Store) (fs : list (option Error)) (t : Z)
    (customer amount operation : option FormDataEntryValue) (graphql : Error + value) :
  let st' := snd (fst (adjust st fs t customer amount operation graphql)) in
  st' = st
  \/ exists c,
       customer = Some (Text c)
       /\ isNaN (parseInt (entry_string amount)) = false
       /\ ltb (parseInt (entry_string amount)) pos_zero = false
       /\ st' = snd (exec (ledger_write (Str c) (entry_value operation)
                             (parseInt (entry_string amount)) (find_unique st c) t) st).
Proof.
  cbv zeta. unfold adjust.
  destruct (negb (truthy (entry_value customer))
            || isNaN (parseInt (entry_string amount))
            || ltb (parseInt (entry_string amount)) pos_zero) eqn:G.
  { rewrite (interp_refused db _ _ _ _ _ G). left. reflexivity. }
  rewrite (interp_accepted db _ _ _ _ _ G). cbv zeta.
  apply guard_inv in G as (_ & N & L).
  destruct (db_answer_spec (FindUnique (entry_value customer))
              {| store := st; faults := fs; now := t |})
    as [(e & rest & _ & ->)|[_ ->]]; [left; reflexivity|].
  cbn [store faults now]. rewrite exec_find_unique_store.
  destruct (fst (exec (FindUnique (entry_value customer)) st)) as [e|found] eqn:F;
    [left; reflexivity|].
  apply exec_find_unique in F as (c & Hc & ->).
  cbn [clock db now]. rewrite Hc.
  destruct (db_answer_spec
              (ledger_write (Str c) (entry_value operation)
                 (parseInt (entry_string amount)) (find_unique st c) t)
              {| store := st; faults := tl fs; now := t |})
    as [(e & rest & _ & ->)|[_ ->]]; [left; reflexivity|].
  right. exists c. cbn [fst snd store].
  destruct customer as [[c'|]|]; cbn in Hc; try discriminate.
  injection Hc as ->. auto.
Qed.

End Adjusting.

(** X1. A submission without a customer id, with an empty one, or whose
    points field does not start with a number or starts with a negative
    one, is answered "Invalid customer ID or points value" without a
    statement being issued; a missing points field and a file in its place
    are such fields. *)
Theorem invalid_adjustment_is_refused {S : Type} (w : World S) (s : S)
    (customer amount operation : option Loyalty.FormDataEntryValue)
    (graphql : Error + value) :
  customer = None \/ customer = text ""
  \/ isNaN (parseInt (Loyalty.entry_string amount)) = true
  \/ ltb (parseInt (Loyalty.entry_string amount)) pos_zero = true ->
  interp w (Loyalty.action customer amount operation graphql) s
  = (inr Loyalty.invalid, s, [])
  /\ isNaN (parseInt (Loyalty.entry_string None)) = true
  /\ isNaN (parseInt (Loyalty.entry_string (Some Loyalty.File))) = true.
Proof.
  intros H. split; [|split; reflexivity].
  apply interp_refused.
  destruct H as [->|[->|[H|H]]]; try reflexivity; rewrite H.
  - rewrite orb_true_r. reflexivity.
  - apply orb_true_r.
Qed.

Lemma invalid_adjustment_is_refused_witness :
  interp db (Loyalty.action (text "c1") (text "-5") (text "add") customer_ann)
    {| store := store_with_5; faults := []; now := 9 |}
  = (inr Loyalty.invalid, {| store := store_with_5; faults := []; now := 9 |}, [])
  /\ isNaN (parseInt (Loyalty.entry_string None)) = true
  /\ isNaN (parseInt (Loyalty.entry_string (Some Loyalty.File))) = true.
Proof.
  apply (invalid_adjustment_is_refused db _ (text "c1") (text "-5") (text "add")).
  right. right. right. reflexivity.
Defined.

(** An accepted submission for a customer with a row. *)
Lemma adjust_rewrites (st : Store) (t : Z) (c s : string)
    (operation : option Loyalty.FormDataEntryValue) (graphql : Error + value)
    (row : LoyaltyPoints) (v : Z) :
  c <> "" ->
  find_unique st c = Some row ->
  - 2 ^ 31 <= points row < 2 ^ 31 ->
  to_integer (parseInt s) = Some v ->
  0 <= v < 2 ^ 52 ->
  balance_after operation (points row) v < 2 ^ 31 ->
  let row' := {| customerId := c;
                 points := balance_after operation (points row) v;
                 updatedAt := t |} in
  exists out log,
    Loyalty.adjust st [] t (text c) (text s) operation graphql
    = (inr out, set_loyaltyPoints st (replace_row row' (loyaltyPoints st)), log)
    /\ find_unique (set_loyaltyPoints st (replace_row row' (loyaltyPoints st))) c
       = Some row'.
Proof.
  intros Hc Hf Hb Hp Hv Ht row'.
  pose proof (guard_intro c s v Hc Hp ltac:(lia)) as G.
  unfold text. rewrite (adjust_accepted st t c _ operation graphql G). cbv zeta.
  pose proof (exec_ledger_write st c (Loyalty.entry_value operation)
                (parseInt (Loyalty.entry_string (Some (Loyalty.Text s)))) t) as W.
  cbv zeta in W. rewrite Hf in *. cbn [written Loyalty.entry_string] in *.
  rewrite (int32_of_integer _ (balance_after operation (points row) v)) in W.
  - destruct W as [W1 W2]. rewrite W1, W2. do 2 eexists. split; [reflexivity|].
    unfold find_unique. cbn [loyaltyPoints set_loyaltyPoints].
    apply (find_replace_row row' (loyaltyPoints st) row). exact Hf.
  - apply new_balance_integer; assumption.
  - unfold balance_after in *.
    destruct (operation_is operation "add"); [lia|].
    destruct (operation_is operation "subtract"); lia.
Qed.


(** X2. For a customer with a row, a submission of [v] points rewrites the
    balance [b] of the row to [b + v] under "add", to [max 0 (b - v)] under
    "subtract" and to [v] under any other operation, "set" among them;
    the row takes the time of the submission and the other rows stay. *)
Theorem adjustment_applies_operation (st : Store) (t : Z) (c s : string)
    (operation : option Loyalty.FormDataEntryValue) (graphql : Error + value)
    (row : LoyaltyPoints) (v : Z) :
  c <> "" ->
  find_unique st c = Some row ->
  - 2 ^ 31 <= points row < 2 ^ 31 ->
  to_integer (parseInt s) = Some v ->
  0 <= v < 2 ^ 52 ->
  balance_after operation (points row) v < 2 ^ 31 ->
  let row' := {| customerId := c;
                 points := balance_after operation (points row) v;
                 updatedAt := t |} in
  let st' := set_loyaltyPoints st (replace_row row' (loyaltyPoints st)) in
  (exists out log,
     Loyalty.adjust st [] t (text c) (text s) operation graphql = (inr out, st', log))
  /\ find_unique st' c = Some row'
  /\ (forall other, other <> c -> find_unique st' other = find_unique st other)
  /\ List.length (loyaltyPoints st') = List.length (loyaltyPoints st).
Proof.
  intros Hc Hf Hb Hp Hv Ht row' st'.
  destruct (adjust_rewrites st t c s operation graphql row v Hc Hf Hb Hp Hv Ht)
    as (out & log & E & F).
  split; [exists out, log; exact E|]. split; [exact F|]. split.
  - intros other Ho. unfold find_unique, st'. cbn [loyaltyPoints set_loyaltyPoints].
    apply find_other_replace_row. exact Ho.
  - unfold st'. cbn [loyaltyPoints set_loyaltyPoints]. unfold replace_row.
    apply length_map.
Qed.

Lemma adjustment_applies_operation_witness :
  exists out log,
    Loyalty.adjust store_with_5 [] 9 (text "c1") (text "30") (text "subtract") customer_ann
    = (inr out,
       set_loyaltyPoints store_with_5
         (replace_row {| customerId := "c1"; points := 0; updatedAt := 9 |}
            (loyaltyPoints store_with_5)), log)
    /\ find_unique
         (set_loyaltyPoints store_with_5
            (replace_row {| customerId := "c1"; points := 0; updatedAt := 9 |}
               (loyaltyPoints store_with_5))) "c1"
       = Some {| customerId := "c1"; points := 0; updatedAt := 9 |}.
Proof.
  destruct (adjustment_applies_operation store_with_5 9 "c1" "30" (text "subtract")
              customer_ann {| customerId := "c1"; points := 5; updatedAt := 1 |} 30)
    as ((out & log & E) & F & _).
  - discriminate.
  - reflexivity.
  - simpl. lia.
  - reflexivity.
  - lia.
  - reflexivity.
  - exists out, log. split; [exact E|exact F].
Defined.

(** X3. For a customer without a row the operation is not looked at: the
    row that is created holds the points submitted, under "subtract" as
    under "add" or "set". *)
Theorem new_customer_ignores_operation (st : Store) (t : Z) (c s : string)
    (operation : option Loyalty.FormDataEntryValue) (graphql : Error + value) (v : Z) :
  c <> "" ->
  find_unique st c = None ->
  to_integer (parseInt s) = Some v ->
  0 <= v < 2 ^ 31 ->
  let row := {| customerId := c; points := v; updatedAt := t |} in
  Loyalty.adjust st [] t (text c) (text s) operation graphql
  = (inr (reported graphql (parseInt s)),
     set_loyaltyPoints st (loyaltyPoints st ++ [row]),
     [(issue (FindUnique (Str c)), None);
      (issue (Create (Str c) (parseInt s) t), None)]).
Proof.
  intros Hc Hf Hp Hv row.
  pose proof (guard_intro c s v Hc Hp ltac:(lia)) as G.
  unfold text. rewrite (adjust_accepted st t c _ operation graphql G). cbv zeta.
  pose proof (exec_ledger_write st c (Loyalty.entry_value operation)
                (parseInt (Loyalty.entry_string (Some (Loyalty.Text s)))) t) as W.
  cbv zeta in W. rewrite Hf in *. cbn [written ledger_write Loyalty.entry_string] in *.
  rewrite (int32_of_integer _ v Hp ltac:(lia)) in W. destruct W as [W1 W2].
  rewrite W1, W2. reflexivity.
Qed.

Lemma new_customer_ignores_operation_witness :
  Loyalty.adjust store_with_5 [] 9 (text "c7") (text "12") (text "subtract") customer_ann
  = (inr (reported customer_ann (parseInt "12")),
     set_loyaltyPoints store_with_5
       (loyaltyPoints store_with_5
        ++ [{| customerId := "c7"; points := 12; updatedAt := 9 |}]),
     [(issue (FindUnique (Str "c7")), None);
      (issue (Create (Str "c7") (parseInt "12") 9), None)]).
Proof.
  apply (new_customer_ignores_operation store_with_5 9 "c7" "12" (text "subtract")
           customer_ann 12).
  - discriminate.
  - reflexivity.
  - reflexivity.
  - lia.
Defined.

Section LedgerUnderAdjustment.

Lemma ledger_write_keeps_sound (st : Store) (c : string) (operation : value)
    (p : number) (t : Z) :
  ledger_unique st -> ledger_typed st -> ledger_nonnegative st ->
  isNaN p = false -> ltb p pos_zero = false ->
  let st' := snd (exec (ledger_write (Str c) operation p (find_unique st c) t) st) in
  ledger_unique st' /\ ledger_typed st' /\ ledger_nonnegative st'.
Proof.
  intros U T N Hn Hl. cbv zeta.
  pose proof (exec_ledger_write st c operation p t) as W.
  cbv zeta in W.
  destruct (int32 _) as [z|] eqn:Hi; [|destruct W as [_ ->]; auto].
  destruct W as [_ ->].
  pose proof (int32_inv _ _ Hi) as [_ Hr].
  unfold ledger_unique, ledger_typed, ledger_nonnegative in *.
  cbn [loyaltyPoints set_loyaltyPoints].
  destruct (find_unique st c) as [old|] eqn:F; cbn [written] in Hi.
  - assert (Hz : 0 <= z).
    { eapply new_balance_nonnegative; [|exact Hn|exact Hl|exact Hi].
      pose proof F as F'. apply find_some in F' as [Hin _].
      rewrite Forall_forall in T, N. specialize (T _ Hin). specialize (N _ Hin). lia. }
    split; [rewrite replace_row_customers; exact U|].
    unfold replace_row. split; rewrite Forall_forall in *; intros r Hin;
      apply in_map_iff in Hin as (r0 & <- & Hin0);
      destruct (is_customer _ r0); cbn [points]; auto.
  - assert (Hz : 0 <= z) by (eapply created_nonnegative; eassumption).
    split; [|split].
    + rewrite map_app. apply NoDup_snoc; [exact U|]. apply find_none_not_in. exact F.
    + apply Forall_app. split; [exact T|]. constructor; [exact Hr|constructor].
    + apply Forall_app. split; [exact N|]. constructor; [exact Hz|constructor].
Qed.

End LedgerUnderAdjustment.

(** X4. A submission, whatever its fields and whatever the faults, keeps
    at most one row per customer, every balance within its column and no
    balance below zero. *)
Theorem adjustment_keeps_ledger_sound (st : Store) (fs : list (option Error)) (t : Z)
    (customer amount operation : option Loyalty.FormDataEntryValue)
    (graphql : Error + value) :
  ledger_unique st -> ledger_typed st -> ledger_nonnegative st ->
  let st' := snd (fst (Loyalty.adjust st fs t customer amount operation graphql)) in
  ledger_unique st' /\ ledger_typed st' /\ ledger_nonnegative st'.
Proof.
  intros U T N st'.
  destruct (adjust_store st fs t customer amount operation graphql)
    as [E|(c & _ & Hn & Hl & E)]; fold st' in E; rewrite E.
  - split; [exact U|]. split; [exact T|exact N].
  - apply ledger_write_keeps_sound; assumption.
Qed.

Lemma adjustment_keeps_ledger_sound_witness :
  let st' := snd (fst (Loyalty.adjust store_two_customers [] 9
                         (text "c2") (text "100") (text "subtract") customer_ann)) in
  ledger_unique st' /\ ledger_typed st' /\ ledger_nonnegative st'.
Proof.
  apply (adjustment_keeps_ledger_sound store_two_customers [] 9
           (text "c2") (text "100") (text "subtract") customer_ann).
  - unfold ledger_unique. simpl. repeat constructor; simpl; intuition discriminate.
  - unfold ledger_typed. simpl. repeat constructor; simpl; lia.
  - unfold ledger_nonnegative. simpl. repeat constructor; simpl; lia.
Defined.

(** X5. A submission writes at most the row of the customer it names:
    the row of every other customer and the marker table are as before,
    and the ledger has the same rows or one more. *)
Theorem adjustment_touches_one_customer (st : Store) (fs : list (option Error)) (t : Z)
    (customer amount operation : option Loyalty.FormDataEntryValue)
    (graphql : Error + value) :
  let st' := snd (fst (Loyalty.adjust st fs t customer amount operation graphql)) in
  (forall c, customer <> text c -> find_unique st' c = find_unique st c)
  /\ migrations st' = migrations st
  /\ unique_name st' = unique_name st
  /\ (List.length (loyaltyPoints st) <= List.length (loyaltyPoints st')
      <= S (List.length (loyaltyPoints st)))%nat.
Proof.
  intros st'.
  destruct (adjust_store st fs t customer amount operation graphql)
    as [E|(c & Hc & _ & _ & E)]; fold st' in E; rewrite E.
  { repeat split; auto. }
  pose proof (exec_ledger_write st c (Loyalty.entry_value operation)
                (parseInt (Loyalty.entry_string amount)) t) as W.
  cbv zeta in W.
  destruct (int32 _) as [z|]; [|destruct W as [_ ->]; repeat split; auto].
  destruct W as [_ ->]. cbn [migrations unique_name loyaltyPoints set_loyaltyPoints].
  split; [|split; [reflexivity|split; [reflexivity|]]].
  - intros c' Hc'.
    assert (c' <> c) by (unfold text in Hc'; congruence).
    destruct (find_unique st c); unfold find_unique;
      cbn [loyaltyPoints set_loyaltyPoints].
    + apply find_other_replace_row. exact H.
    + apply find_other_append_row. exact H.
  - destruct (find_unique st c).
    + unfold replace_row. rewrite length_map. lia.
    + rewrite length_app. cbn [List.length]. lia.
Qed.

(** X6. What a submission writes does not depend on what the Admin API
    answers afterwards: the store and the statements are the same under
    any answer.  When the API call is rejected the response is a failure,
    and it is "Failed to update points" with the API's message when both
    statements were accepted, so a failure is reported although the
    balance was written. *)
Theorem api_failure_does_not_undo (st : Store) (fs : list (option Error)) (t : Z)
    (customer amount operation : option Loyalty.FormDataEntryValue)
    (e : Error) (graphql : Error + value) :
  let '(out, st', log) := Loyalty.adjust st fs t customer amount operation (inl e) in
  snd (fst (Loyalty.adjust st fs t customer amount operation graphql)) = st'
  /\ snd (Loyalty.adjust st fs t customer amount operation graphql) = log
  /\ (exists text, out = inr (Loyalty.Failure text))
  /\ (List.length log = 2%nat -> Forall (fun i => snd i = None) log ->
      out = inr (update_failed e)).
Proof.
  unfold Loyalty.adjust.
  destruct (negb (truthy (Loyalty.entry_value customer))
            || isNaN (parseInt (Loyalty.entry_string amount))
            || ltb (parseInt (Loyalty.entry_string amount)) pos_zero) eqn:G.
  { rewrite !(interp_refused db _ _ _ _ _ G). cbn.
    split; [reflexivity|]. split; [reflexivity|]. split; [eexists; reflexivity|].
    intros H. discriminate H. }
  rewrite !(interp_accepted db _ _ _ _ _ G). cbv zeta.
  destruct (answer db (FindUnique _) _) as [[e1|found] env1].
  { cbn. split; [reflexivity|]. split; [reflexivity|]. split; [eexists; reflexivity|].
    intros H. discriminate H. }
  destruct (clock db env1) as [t' env2].
  destruct (answer db _ env2) as [[e2|row] env3]; cbn [fst snd rejection].
  - split; [reflexivity|]. split; [reflexivity|]. split; [eexists; reflexivity|].
    intros _ F. inversion F as [|? ? _ F']. inversion F' as [|? ? X _].
    cbn in X. discriminate X.
  - rewrite reported_rejected. split; [reflexivity|]. split; [reflexivity|].
    split; [eexists; reflexivity|]. reflexivity.
Qed.

(** X7. "add" and then "subtract" of the same points restores a balance
    that was not below zero, and leaves every other customer's row as it
    was; "subtract" and then "add" leaves the larger of the balance and
    the points, so it restores the balance only when the points do not
    exceed it. *)
Theorem add_then_subtract_restores (st : Store) (t1 t2 : Z) (c s : string)
    (g1 g2 : Error + value) (row : LoyaltyPoints) (v : Z) :
  c <> "" ->
  find_unique st c = Some row ->
  0 <= points row ->
  to_integer (parseInt s) = Some v ->
  0 <= v ->
  points row + v < 2 ^ 31 ->
  let after (first second : string) :=
    snd (fst (Loyalty.adjust
                (snd (fst (Loyalty.adjust st [] t1 (text c) (text s) (text first) g1)))
                [] t2 (text c) (text s) (text second) g2)) in
  find_unique (after "add" "subtract") c
  = Some {| customerId := c; points := points row; updatedAt := t2 |}
  /\ find_unique (after "subtract" "add") c
     = Some {| customerId := c; points := Z.max (points row) v; updatedAt := t2 |}
  /\ (forall c', c' <> c ->
        find_unique (after "add" "subtract") c' = find_unique st c'
        /\ find_unique (after "subtract" "add") c' = find_unique st c').
Proof.
  intros Hc Hf Hb Hp Hv Hs after.
  assert (B : 2 ^ 31 < 2 ^ 52) by reflexivity.
  assert (Two : forall first second : string,
            let b1 := balance_after (text first) (points row) v in
            let b2 := balance_after (text second) b1 v in
            0 <= b1 < 2 ^ 31 -> b2 < 2 ^ 31 ->
            find_unique (after first second) c
            = Some {| customerId := c; points := b2; updatedAt := t2 |}
            /\ forall c', c' <> c -> find_unique (after first second) c' = find_unique st c').
  { intros first second b1 b2 H1 H2. unfold after.
    destruct (adjust_rewrites st t1 c s (text first) g1 row v Hc Hf ltac:(lia) Hp
                ltac:(lia) ltac:(fold b1; lia)) as (out1 & log1 & E1 & F1).
    fold b1 in E1, F1. rewrite E1. cbn [fst snd].
    set (row1 := {| customerId := c; points := b1; updatedAt := t1 |}) in *.
    set (st1 := set_loyaltyPoints st (replace_row row1 (loyaltyPoints st))) in *.
    destruct (adjust_rewrites st1 t2 c s (text second) g2 row1 v Hc F1
                ltac:(cbn [points row1]; lia) Hp ltac:(lia)
                ltac:(cbn [points row1]; fold b2; lia)) as (out2 & log2 & E2 & F2).
    cbn [points row1] in E2, F2. fold b2 in E2, F2. rewrite E2. cbn [fst snd].
    split; [exact F2|]. intros c' Hc'. unfold find_unique, st1.
    cbn [loyaltyPoints set_loyaltyPoints].
    rewrite !find_other_replace_row by (cbn [customerId]; exact Hc'). reflexivity. }
  pose proof (Two "add" "subtract") as A. pose proof (Two "subtract" "add") as Bw.
  cbv zeta in A, Bw. unfold balance_after in A, Bw. cbn in A, Bw.
  destruct A as [A1 A2]; [lia|lia|]. destruct Bw as [B1 B2]; [lia|lia|].
  replace (Z.max 0 (points row + v - v)) with (points row) in A1 by lia.
  replace (Z.max 0 (points row - v) + v) with (Z.max (points row) v) in B1 by lia.
  repeat split; auto.
Qed.

Lemma add_then_subtract_restores_witness :
  let after (first second : string) :=
    snd (fst (Loyalty.adjust
                (snd (fst (Loyalty.adjust store_with_5 [] 8
                             (text "c1") (text "30") (text first) customer_ann)))
                [] 9 (text "c1") (text "30") (text second) customer_ann)) in
  find_unique (after "add" "subtract") "c1"
  = Some {| customerId := "c1"; points := 5; updatedAt := 9 |}
  /\ find_unique (after "subtract" "add") "c1"
     = Some {| customerId := "c1"; points := 30; updatedAt := 9 |}
  /\ (forall c', c' <> "c1" ->
        find_unique (after "add" "subtract") c' = find_unique store_with_5 c'
        /\ find_unique (after "subtract" "add") c' = find_unique store_with_5 c').
Proof.
  apply (add_then_subtract_restores store_with_5 8 9 "c1" "30" customer_ann customer_ann
           {| customerId := "c1"; points := 5; updatedAt := 1 |} 30).
  - discriminate.
  - reflexivity.
  - simpl. lia.
  - reflexivity.
  - lia.
  - reflexivity.
Defined.

Section BothRoutes.

Lemma exec_award_nonnegative (st : Store) (c : string) (awarded : number) (t : Z) :
  ledger_typed st -> ledger_nonnegative st ->
  leb awarded pos_zero = false ->
  ledger_nonnegative
    (snd (exec (match find_unique st c with
                | Some row => Update (Str c) (add (of_Z (points row)) awarded) t
                | None => Create (Str c) awarded t
                end) st)).
Proof.
  intros T N Hl. unfold ledger_nonnegative in *.
  destruct (find_unique st c) as [row|] eqn:Hf; cbn [exec].
  - destruct (int32 _) as [z|] eqn:Hi; [|exact N].
    rewrite Hf. cbn [snd set_loyaltyPoints loyaltyPoints].
    pose proof (find_typed st c row T Hf) as Hr.
    pose proof (new_balance_not_below _ _ _ Hr Hl Hi) as Hz.
    pose proof Hf as Hin. apply find_some in Hin as [Hin _].
    rewrite Forall_forall in *. intros r Hr'.
    apply in_map_iff in Hr' as (r0 & <- & Hin0).
    destruct (is_customer c r0); [cbn [points]; specialize (N _ Hin); lia|auto].
  - destruct (int32 awarded) as [z|] eqn:Hi; [|exact N].
    rewrite Hf. cbn [snd set_loyaltyPoints loyaltyPoints].
    apply Forall_app. split; [exact N|]. constructor; [|constructor]. cbn [points].
    apply int32_inv in Hi as [Hi _].
    destruct (leb_false_shape _ Hl) as [->|[->|(m & e & ->)]]; try discriminate.
    apply to_integer_nonneg in Hi. exact Hi.
Qed.

Lemma deliver_keeps_nonnegative (st : Store) (fs : list (option Error)) (t : Z)
    (topic : string) (json : Error + value) :
  ledger_typed st -> ledger_nonnegative st ->
  ledger_nonnegative (snd (fst (deliver st fs t topic json))).
Proof.
  intros Ht Hn.
  destruct (action_cases topic json)
    as [(r & _ & Hr)|(order & -> & -> & Hq & _)].
  { rewrite (deliver_ret _ _ _ _ _ _ Hr). exact Hn. }
  pose proof (qualifies_inv _ Hq) as (_ & _ & _ & Hp & _).
  unfold deliver. rewrite (interp_qualifying_award db _ _ Hq). cbv zeta.
  set (key := key_of order).
  set (who := customer_id_of order).
  destruct (db_answer_spec (SelectMarker key) {| store := st; faults := fs; now := t |})
    as [(e & rest & _ & ->)|[_ ->]]; [exact Hn|].
  cbn [exec fst snd store faults now].
  destruct (0 <? Z.of_nat (List.length (select_marker st key))); [exact Hn|].
  destruct (db_answer_spec (InsertMarker key) {| store := st; faults := tl fs; now := t |})
    as [(e & rest & _ & ->)|[_ ->]]; [exact Hn|].
  cbn [store faults now].
  pose proof (exec_insert_ledger st key) as L1.
  set (st1 := snd (exec (InsertMarker key) st)) in *.
  assert (T1 : ledger_typed st1) by (unfold ledger_typed; rewrite L1; exact Ht).
  assert (N1 : ledger_nonnegative st1) by (unfold ledger_nonnegative; rewrite L1; exact Hn).
  destruct (fst (exec (InsertMarker key) st)) as [e|n]; [exact N1|].
  destruct (db_answer_spec (FindUnique who)
              {| store := st1; faults := tl (tl fs); now := t |})
    as [(e & rest & _ & ->)|[_ ->]]; [exact N1|].
  cbn [store faults now]. rewrite exec_find_unique_store.
  destruct (fst (exec (FindUnique who) st1)) as [e|found] eqn:F; [exact N1|].
  apply exec_find_unique in F as (c & Hcust & ->). rewrite Hcust.
  cbn [clock db now].
  pose proof (exec_award_nonnegative st1 c (awarded_of order) t T1 N1 Hp) as W.
  set (q := match find_unique st1 c with
            | Some row => Update (Str c) (add (of_Z (points row)) (awarded_of order)) t
            | None => Create (Str c) (awarded_of order) t
            end) in *.
  destruct (db_answer_spec q {| store := st1; faults := tl (tl (tl fs)); now := t |})
    as [(e & rest & _ & ->)|[_ ->]]; cbn [fst snd store]; [exact N1|exact W].
Qed.

Lemma serve_one_sound (st : Store) (r : request) :
  ledger_unique st /\ ledger_typed st /\ ledger_nonnegative st ->
  ledger_unique (serve_one st r) /\ ledger_typed (serve_one st r)
  /\ ledger_nonnegative (serve_one st r).
Proof.
  intros (U & T & N). destruct r as [fs t topic json|fs t customer amount operation graphql];
    cbn [serve_one].
  - pose proof (deliver_ledger_step st fs t topic json T) as Hs.
    destruct (ledger_step_sound _ _ Hs U T) as (A & B & _).
    split; [exact A|]. split; [exact B|]. apply deliver_keeps_nonnegative; assumption.
  - destruct (adjust_store st fs t customer amount operation graphql)
      as [E|(c & _ & Hn & Hl & E)]; cbv zeta in E; rewrite E.
    + split; [exact U|]. split; [exact T|exact N].
    + apply ledger_write_keeps_sound; assumption.
Qed.

End BothRoutes.

(** X8. Any sequence of webhook deliveries and form submissions, served
    one after the other under any faults, keeps at most one row per
    customer, every balance within its column and no balance below
    zero. *)
Theorem ledger_sound_under_all_requests (st : Store) (requests : list request) :
  ledger_unique st -> ledger_typed st -> ledger_nonnegative st ->
  ledger_unique (serve st requests)
  /\ ledger_typed (serve st requests)
  /\ ledger_nonnegative (serve st requests).
Proof.
  intros U T N. unfold serve.
  assert (H : ledger_unique st /\ ledger_typed st /\ ledger_nonnegative st) by auto.
  clear U T N. revert st H.
  induction requests as [|r rs IH]; intros st H; cbn [fold_left]; [exact H|].
  apply IH. apply serve_one_sound. exact H.
Qed.

Lemma ledger_sound_under_all_requests_witness :
  let requests :=
    [Delivery [] 7 orders_create (inr order_30);
     Adjustment [] 8 (text "c1") (text "100") (text "subtract") customer_ann;
     Adjustment [None; Some unique_violation] 9 (text "c3") (text "4") (text "add")
       customer_unknown;
     Delivery [] 10 orders_create (inr order_30)] in
  ledger_unique (serve store_two_customers requests)
  /\ ledger_typed (serve store_two_customers requests)
  /\ ledger_nonnegative (serve store_two_customers requests).
Proof.
  apply (ledger_sound_under_all_requests store_two_customers).
  - unfold ledger_unique. simpl. repeat constructor; simpl; intuition discriminate.
  - unfold ledger_typed. simpl. repeat constructor; simpl; lia.
  - unfold ledger_nonnegative. simpl. repeat constructor; simpl; lia.
Defined.

(** X9. The check of the page and the check of the route agree: a form for
    which the page shows its toast would be refused by the route, and a
    form the page posts reaches the ledger lookup for the customer it
    names. *)
Theorem posted_form_passes_the_check {S : Type} (w : World S) (s : S)
    (form : Loyalty.Form) (graphql : Error + value) :
  let run :=
    interp w (Loyalty.action (text (Loyalty.selectedCustomerId form))
                (text (Loyalty.pointsValue form)) (text (Loyalty.operationValue form))
                graphql) s in
  match Loyalty.handleAdjustPoints form with
  | Loyalty.Toast _ => run = (inr Loyalty.invalid, s, [])
  | Loyalty.Submit c p o =>
      c = Loyalty.selectedCustomerId form /\ p = Loyalty.pointsValue form
      /\ o = Loyalty.operationValue form /\ c <> ""
      /\ exists out s' r log,
           run = (out, s', (issue (FindUnique (Str c)), r) :: log)
  end.
Proof.
  cbv zeta. unfold Loyalty.handleAdjustPoints.
  destruct (negb (truthy (Str (Loyalty.selectedCustomerId form)))
            || isNaN (parseInt (Loyalty.pointsValue form))
            || ltb (parseInt (Loyalty.pointsValue form)) pos_zero) eqn:G.
  - apply interp_refused. exact G.
  - repeat split.
    + intros E. rewrite E in G. discriminate G.
    + rewrite (interp_accepted w (text _) (text _) _ _ _ G). cbv zeta.
      cbn [Loyalty.entry_value text].
      destruct (answer w (FindUnique _) s) as [[e|found] s1]; [eauto 10|].
      destruct (clock w s1) as [t s2].
      destruct (answer w _ s2) as [r2 s3]. eauto 10.
Qed.

(* ================================================================== *)
(** * Saving quantities                                                *)
(* ================================================================== *)

Section Rounding.

(** The Number of a positive integer is positive: finite or infinite. *)
Lemma of_Z_positive (n : Z) :
  0 < n ->
  (exists m e, of_Z n = S754_finite false m e) \/ of_Z n = S754_infinity false.
Proof.
  intros Hn. destruct n as [|M|M]; try lia. unfold of_Z, binary_normalize.
  destruct (binary_round_spec false M 0) as (mr & -> & Hb & _ & Hu).
  cbv zeta in Hb. rewrite fexp_unfold in *.
  pose proof (digits2_pos_bounds M) as [B1 _].
  set (d := Z.pos (digits2_pos M)) in *. assert (Hd : 0 < d) by (unfold d; lia).
  replace (Z.max (d + 0 - 53) (-1074)) with (d - 53) in * by lia.
  set (E := d - 53) in *. set (e0 := Z.min 0 E) in *.
  assert (P0 : 0 < 2 ^ (E - e0)) by (apply Z.pow_pos_nonneg; unfold e0; lia).
  assert (L : 1 <= Z.pos M * 2 ^ (0 - e0) / 2 ^ (E - e0)).
  { apply Z.div_le_lower_bound; [exact P0|]. rewrite Z.mul_1_r.
    destruct (Z.leb_spec E 0) as [N|N].
    - replace e0 with E by (unfold e0; lia). replace (E - E) with 0 by lia.
      assert (0 < 2 ^ (0 - E)) by (apply Z.pow_pos_nonneg; lia). cbn [Z.pow]. nia.
    - replace e0 with 0 by (unfold e0; lia). cbn [Z.sub Z.opp Z.add].
      rewrite Z.pow_0_r, Z.mul_1_r, Z.sub_0_r.
      assert (2 ^ E <= 2 ^ (d - 1)) by (apply Z.pow_le_mono_r; unfold E; lia). lia. }
  unfold pack. destruct mr as [|p|p]; try lia.
  destruct (Z.pos p <? 2 ^ 53).
  - destruct (E <=? 971); eauto.
  - destruct (E + 1 <=? 971); eauto.
Qed.

Lemma length_not_zero (n : Z) :
  strict_equal (Num (of_Z n)) (Num pos_zero) = (n =? 0) \/ n < 0.
Proof.
  destruct (Z.compare_spec n 0) as [ -> | N | N ]; [left; reflexivity|right; exact N|left].
  destruct (Z.eqb_spec n 0) as [->|_]; [lia|].
  destruct (of_Z_positive n N) as [(m & e & ->)| ->]; reflexivity.
Qed.

End Rounding.

Section Kept.
Import Inventory.

Lemma valid_field (update : value) :
  nullish update = false -> valid update = inr (changes_quantity update).
Proof.
  intros H. unfold valid, changes_quantity. rewrite !(get_field _ _ H).
  destruct (truthy (field update "inventoryItemId")); reflexivity.
Qed.

Lemma filter_valid_field (updates : list value) :
  forallb (fun u => negb (nullish u)) updates = true ->
  filter_valid updates = inr (filter changes_quantity updates).
Proof.
  induction updates as [|u l IH]; [reflexivity|]. cbn [forallb filter_valid filter].
  intros H. apply andb_true_iff in H as [Hu Hl]. apply negb_true_iff in Hu.
  rewrite (valid_field u Hu), (IH Hl). reflexivity.
Qed.

(** A [null] among the updates: reading its [inventoryItemId] throws. *)
Lemma filter_valid_null (updates : list value) :
  forallb (fun u => negb (nullish u)) updates = false ->
  exists e, filter_valid updates = inl e.
Proof.
  induction updates as [|u l IH]; [discriminate|]. cbn [forallb filter_valid].
  intros H. destruct (nullish u) eqn:Hu.
  - destruct u; try discriminate; eexists; reflexivity.
  - rewrite (valid_field u Hu). cbn [negb andb] in H. destruct (IH H) as (e & ->).
    eauto.
Qed.

Lemma kept_not_nullish (updates : list value) :
  forallb (fun u => negb (nullish u)) updates = true ->
  forallb (fun u => negb (nullish u)) (filter changes_quantity updates) = true.
Proof.
  rewrite !forallb_forall. intros H u Hin. apply filter_In in Hin as [Hin _]. auto.
Qed.

Lemma quantity_of_field (update : value) :
  nullish update = false -> quantity_of update = inr (quantity update).
Proof.
  intros H. unfold quantity_of, quantity. rewrite !(get_field _ _ H). reflexivity.
Qed.

Lemma quantities_of_field (updates : list value) :
  forallb (fun u => negb (nullish u)) updates = true ->
  quantities_of updates = inr (map quantity updates).
Proof.
  induction updates as [|u l IH]; [reflexivity|]. cbn [forallb quantities_of map].
  intros H. apply andb_true_iff in H as [Hu Hl]. apply negb_true_iff in Hu.
  rewrite (quantity_of_field u Hu), (IH Hl). reflexivity.
Qed.

Context {W : Type} (w : World W).

(** The outcome the route reads off its arrays at the end. *)
Lemma run_refused (parsed : Error + value) (s : W) :
  (exists updates, parsed = inr updates
     /\ (truthy updates = false
         \/ exists len, length_of updates = inr len
                        /\ strict_equal len (Num pos_zero) = true)) ->
  run w parsed s = (inr no_updates, s, []).
Proof.
  intros (updates & -> & [H|(len & Hl & Hz)]); unfold run, action, bind, eval, ret.
  - rewrite H. reflexivity.
  - destruct (truthy updates); [|reflexivity]. cbn [negb]. rewrite Hl, Hz. reflexivity.
Qed.

Lemma run_array (elements : list value) (s : W) :
  elements <> [] ->
  run w (inr (Arr elements)) s =
    match filter_valid elements with
    | inl e => (inl e, s, [])
    | inr validUpdates =>
        if 0 <? Z.of_nat (List.length validUpdates) then
          let '(r, s1) :=
            try_catch (attempt w validUpdates) (fun error => push_errors [failure error])
              {| results := []; errors := []; world := s; trace := [] |} in
          (inr (Outcome (Z.of_nat (List.length (errors s1)) =? 0) (results s1) (errors s1)),
           world s1, trace s1)
        else (inr (Outcome true [] []), s, [])
    end.
Proof.
  intros Hne. unfold run, action, bind, eval, ret, read.
  cbn [truthy negb length_of elements_of].
  destruct (length_not_zero (Z.of_nat (List.length elements))) as [->|N]; [|lia].
  destruct (Z.eqb_spec (Z.of_nat (List.length elements)) 0) as [Z0|_].
  { destruct elements; [contradiction|cbn in Z0; lia]. }
  destruct (filter_valid elements) as [e|validUpdates]; [reflexivity|].
  destruct (0 <? Z.of_nat (List.length validUpdates)); [|reflexivity].
  unfold try_catch.
  destruct (attempt w validUpdates _) as [[e|[]] s1].
  - unfold push_errors. reflexivity.
  - reflexivity.
Qed.

End Kept.

Section Attempt.
Import Inventory.
Context {W : Type} (w : World W).

Lemma log_update_arrays (update : value) (s : State W) :
  results (snd (log_update w update s)) = results s
  /\ errors (snd (log_update w update s)) = errors s.
Proof.
  unfold log_update, bind, eval, new_Date, await, ret.
  destruct (get update "productId"); [split; reflexivity|].
  destruct (get update "variantId"); [split; reflexivity|].
  destruct (get update "oldQty"); [split; reflexivity|].
  destruct (get update "newQty"); [split; reflexivity|].
  destruct (clock w (world s)) as [t w1]. cbn [world].
  destruct (answer w _ w1) as [[e'|row] w2]; split; reflexivity.
Qed.

Lemma log_updates_arrays (updates : list value) (s : State W) :
  results (snd (log_updates w updates s)) = results s
  /\ errors (snd (log_updates w updates s)) = errors s.
Proof.
  revert s. induction updates as [|u l IH]; intros s; [split; reflexivity|].
  cbn [log_updates]. unfold bind.
  pose proof (log_update_arrays u s) as [A1 A2].
  destruct (log_update w u s) as [[e|[]] s1]; cbn [snd] in *.
  - auto.
  - destruct (IH s1) as [R1 R2]. rewrite R1, R2. auto.
Qed.

(** A request whose updates are an array without [null] that keeps at
    least one of them. *)
Lemma run_kept (elements : list value) (s : W) :
  forallb (fun u => negb (nullish u)) elements = true ->
  filter changes_quantity elements <> [] ->
  run w (inr (Arr elements)) s =
    let validUpdates := filter changes_quantity elements in
    let q := SetQuantities (map quantity validUpdates) in
    let '(r, s1) := answer w q s in
    match r with
    | inl e => (inr (Outcome false [] [failure e]), s1, [(issue q, Some e)])
    | inr None => (inr (Outcome true [] []), s1, [(issue q, None)])
    | inr (Some payload) =>
        if 0 <? Z.of_nat (List.length (userErrors payload))
        then (inr (Outcome false [] (userErrors payload)), s1, [(issue q, None)])
        else
          match inventoryAdjustmentGroup payload with
          | None => (inr (Outcome true [] []), s1, [(issue q, None)])
          | Some group =>
              let '(r2, s2) :=
                log_updates w validUpdates (answered q (changes_or_none group) s1) in
              (inr (match r2 with
                    | inl e => Outcome false (changes_or_none group) [failure e]
                    | inr _ => Outcome true (changes_or_none group) []
                    end),
               world s2, trace s2)
          end
    end.
Proof.
  intros Hn Hk. cbv zeta.
  assert (Hne : elements <> []) by (intros ->; apply Hk; reflexivity).
  rewrite (run_array w elements s Hne), (filter_valid_field elements Hn).
  set (validUpdates := filter changes_quantity elements) in *.
  assert (L : (0 <? Z.of_nat (List.length validUpdates)) = true).
  { destruct validUpdates; [contradiction|]. cbn [List.length]. apply Z.ltb_lt. lia. }
  rewrite L. unfold try_catch, attempt, bind at 1, eval.
  rewrite (quantities_of_field validUpdates (kept_not_nullish elements Hn)).
  unfold bind at 1, await. cbn [world results errors trace app].
  destruct (answer w (SetQuantities (map quantity validUpdates)) s) as [[e|[payload|]] s1];
    cbn [rejection]; try reflexivity.
  destruct (0 <? Z.of_nat (List.length (userErrors payload))) eqn:U.
  { unfold push_errors. cbn [errors results world trace app].
    replace (Z.of_nat (List.length (userErrors payload)) =? 0) with false; [reflexivity|].
    symmetry. apply Z.eqb_neq. apply Z.ltb_lt in U. lia. }
  destruct (inventoryAdjustmentGroup payload) as [group|]; [|reflexivity].
  unfold bind, push_results. cbn [errors results world trace app].
  fold (changes_or_none group).
  change {| results := changes_or_none group; errors := []; world := s1;
            trace := [(issue (SetQuantities (map quantity validUpdates)), None)] |}
    with (answered (SetQuantities (map quantity validUpdates)) (changes_or_none group) s1).
  pose proof (log_updates_arrays validUpdates
                (answered (SetQuantities (map quantity validUpdates))
                   (changes_or_none group) s1)) as [R1 R2].
  destruct (log_updates w validUpdates _) as [[e|[]] s2]; cbn [snd] in R1, R2.
  - unfold push_errors. cbn [errors results world trace]. rewrite R1, R2. reflexivity.
  - rewrite R1, R2. reflexivity.
Qed.

End Attempt.

Section ShopLog.
Import Inventory.

Lemma log_update_shop (update : value) (st : State Shop) :
  nullish update = false ->
  let t := now (world st) in
  let q := LogCreate (field update "productId") (field update "variantId")
             (field update "oldQty") (field update "newQty") t in
  log_update shop update st =
    match faults (world st) with
    | Some e :: rest =>
        (inl e, {| results := results st; errors := errors st;
                   world := shop_after (world st) [] rest;
                   trace := trace st ++ [(issue q, Some e)] |})
    | fs =>
        match logged t update with
        | Some row =>
            (inr tt, {| results := results st; errors := errors st;
                        world := shop_after (world st) [row] (tl fs);
                        trace := trace st ++ [(issue q, None)] |})
        | None =>
            (inl invalid_argument,
             {| results := results st; errors := errors st;
                world := shop_after (world st) [] (tl fs);
                trace := trace st ++ [(issue q, Some invalid_argument)] |})
        end
    end.
Proof.
  intros Hn. cbv zeta.
  unfold log_update, bind, eval, new_Date, await, ret. rewrite !(get_field _ _ Hn).
  cbn [clock shop world results errors trace answer shop_answer].
  unfold logged, shop_after. rewrite app_nil_r.
  destruct (faults (world st)) as [|[e|] rest]; cbn [tl rejection].
  - destruct (row_of _ _ _ _ _); reflexivity.
  - reflexivity.
  - destruct (row_of _ _ _ _ _); reflexivity.
Qed.

Lemma shop_after_after (s : Shop) (rows rows' : list InventoryLog)
    (fs fs' : list (option Error)) :
  shop_after (shop_after s rows fs) rows' fs' = shop_after s (rows ++ rows') fs'.
Proof. unfold shop_after. cbn. rewrite app_assoc. reflexivity. Qed.

Lemma shop_after_nil (s : Shop) : shop_after s [] (faults s) = s.
Proof. unfold shop_after. rewrite app_nil_r. destruct s; reflexivity. Qed.

(** What the loop over the kept updates does to the shop: it adds the
    rows of the first [k] of them. *)
Lemma log_updates_shop (updates : list value) (st : State Shop) :
  forallb (fun u => negb (nullish u)) updates = true ->
  exists (k : nat) (rows : list InventoryLog) (fs : list (option Error)),
    world (snd (log_updates shop updates st)) = shop_after (world st) rows fs
    /\ map Some rows = map (logged (now (world st))) (firstn k updates).
Proof.
  revert st. induction updates as [|u l IH]; intros st Hn.
  - exists 0%nat, [], (faults (world st)). cbn [log_updates ret snd firstn map].
    rewrite shop_after_nil. split; reflexivity.
  - cbn [forallb] in Hn. apply andb_true_iff in Hn as [Hu Hl]. apply negb_true_iff in Hu.
    cbn [log_updates]. unfold bind. rewrite (log_update_shop u st Hu). cbv zeta.
    assert (Stop : forall (r : Error + unit) (s' : State Shop) fs,
              world s' = shop_after (world st) [] fs ->
              exists (k : nat) (rows : list InventoryLog) (fs : list (option Error)),
                world s' = shop_after (world st) rows fs
                /\ map Some rows = map (logged (now (world st))) (firstn k (u :: l))).
    { intros r s' fs E. exists 0%nat, [], fs. split; [exact E|reflexivity]. }
    assert (Go : forall (row : InventoryLog) (s' : State Shop) fs,
              logged (now (world st)) u = Some row ->
              world s' = shop_after (world st) [row] fs ->
              exists (k : nat) (rows : list InventoryLog) (fs : list (option Error)),
                world (snd (log_updates shop l s')) = shop_after (world st) rows fs
                /\ map Some rows = map (logged (now (world st))) (firstn k (u :: l))).
    { intros row s' fs L E. destruct (IH s' Hl) as (k & rows & fs' & W1 & R1).
      exists (S k), (row :: rows), fs'. rewrite W1, E, shop_after_after. cbn [app].
      split; [reflexivity|]. cbn [firstn map]. rewrite L. f_equal.
      rewrite R1, E. reflexivity. }
    destruct (faults (world st)) as [|[e|] rest].
    + destruct (logged (now (world st)) u) as [row|] eqn:L.
      * eapply Go; [reflexivity|reflexivity].
      * eapply (Stop (inl invalid_argument)). reflexivity.
    + eapply (Stop (inl e)). reflexivity.
    + destruct (logged (now (world st)) u) as [row|] eqn:L.
      * eapply Go; [reflexivity|reflexivity].
      * eapply (Stop (inl invalid_argument)). reflexivity.
Qed.

(** The loop with its first writes accepted. *)
Lemma log_updates_accepted (updates : list value) (rows : list InventoryLog)
    (st : State Shop) :
  forallb (fun u => negb (nullish u)) updates = true ->
  Forall (fun f => f = None) (firstn (List.length updates) (faults (world st))) ->
  map Some rows = map (logged (now (world st))) updates ->
  exists st',
    log_updates shop updates st = (inr tt, st')
    /\ world st' = shop_after (world st) rows
                     (skipn (List.length updates) (faults (world st)))
    /\ results st' = results st /\ errors st' = errors st.
Proof.
  revert rows st. induction updates as [|u l IH]; intros rows st Hn Hf Hr.
  - destruct rows; [|discriminate]. exists st. cbn [log_updates ret List.length skipn].
    rewrite shop_after_nil. auto.
  - cbn [forallb] in Hn. apply andb_true_iff in Hn as [Hu Hl]. apply negb_true_iff in Hu.
    destruct rows as [|row rows]; [discriminate|]. cbn [map] in Hr.
    injection Hr as Hrow Hrows. symmetry in Hrow.
    cbn [log_updates]. unfold bind. rewrite (log_update_shop u st Hu). cbv zeta.
    rewrite Hrow. cbn [List.length firstn skipn] in *.
    assert (Next : forall fs,
              Forall (fun f => f = None) (firstn (List.length l) fs) ->
              exists st',
                log_updates shop l
                  {| results := results st; errors := errors st;
                     world := shop_after (world st) [row] fs;
                     trace := trace st
                              ++ [(issue (LogCreate (field u "productId")
                                            (field u "variantId") (field u "oldQty")
                                            (field u "newQty") (now (world st))), None)] |}
                = (inr tt, st')
                /\ world st' = shop_after (world st) (row :: rows) (skipn (List.length l) fs)
                /\ results st' = results st /\ errors st' = errors st).
    { intros fs Hfs.
      destruct (IH rows
                  {| results := results st; errors := errors st;
                     world := shop_after (world st) [row] fs;
                     trace := trace st
                              ++ [(issue (LogCreate (field u "productId")
                                            (field u "variantId") (field u "oldQty")
                                            (field u "newQty") (now (world st))), None)] |}
                  Hl Hfs Hrows) as (st' & E & Wd & R1 & R2).
      exists st'. cbn [world results errors faults shop_after] in *.
      rewrite Wd. unfold shop_after. cbn. rewrite <- app_assoc. auto. }
    destruct (faults (world st)) as [|[e|] rest]; cbn [tl skipn firstn] in *.
    + destruct (Next [] ltac:(rewrite firstn_nil; constructor)) as (st' & E & Wd & R).
      exists st'. rewrite skipn_nil in Wd. auto.
    + inversion Hf as [|? ? X _]. discriminate X.
    + inversion Hf as [|? ? _ Hf']. exact (Next rest Hf').
Qed.

Lemma log_updates_app {W : Type} (w : World W) (first rest : list value) (st : State W) :
  log_updates w (first ++ rest) st =
    match log_updates w first st with
    | (inl e, st') => (inl e, st')
    | (inr _, st') => log_updates w rest st'
    end.
Proof.
  revert st. induction first as [|u l IH]; intros st; [reflexivity|].
  cbn [app log_updates]. unfold bind.
  destruct (log_update w u st) as [[e|[]] s1]; [reflexivity|]. apply IH.
Qed.

(** The calls of the loop are creations of log rows. *)
Lemma log_updates_trace {W : Type} (w : World W) (updates : list value) (st : State W) :
  exists calls,
    trace (snd (log_updates w updates st)) = (trace st ++ calls)%list
    /\ forallb is_log_write calls = true.
Proof.
  revert st. induction updates as [|u l IH]; intros st.
  - exists []. cbn. rewrite app_nil_r. auto.
  - cbn [log_updates]. unfold bind.
    assert (One : exists calls,
              trace (snd (log_update w u st)) = (trace st ++ calls)%list
              /\ forallb is_log_write calls = true).
    { unfold log_update, bind, eval, new_Date, await, ret.
      assert (Z0 : exists calls, trace st = (trace st ++ calls)%list
                                 /\ forallb is_log_write calls = true)
        by (exists []; rewrite app_nil_r; auto).
      destruct (get u "productId"); [exact Z0|].
      destruct (get u "variantId"); [exact Z0|].
      destruct (get u "oldQty"); [exact Z0|].
      destruct (get u "newQty"); [exact Z0|].
      destruct (clock w (world st)) as [t w1]. cbn [world].
      destruct (answer w _ w1) as [[e'|row] w2]; cbn [snd trace];
        eexists; split; reflexivity. }
    destruct One as (c1 & T1 & L1).
    destruct (log_update w u st) as [[e|[]] s1]; cbn [snd] in *.
    + exists c1. auto.
    + destruct (IH s1) as (c2 & T2 & L2). exists (c1 ++ c2)%list.
      rewrite T2, T1, app_assoc, forallb_app, L1, L2. auto.
Qed.

End ShopLog.

(** X10. With nothing to save the route makes no call: updates that are
    [null], empty or of length [0] are answered "No updates provided", and
    an array of updates none of which names an inventory item with a new
    quantity is answered as a success with no results and no errors. *)
Theorem nothing_to_update {W : Type} (w : Inventory.World W) (s : W) :
  (forall updates,
     truthy updates = false
     \/ (exists len, Inventory.length_of updates = inr len
                     /\ strict_equal len (Num pos_zero) = true) ->
     Inventory.run w (inr updates) s = (inr Inventory.no_updates, s, []))
  /\ Inventory.run w (inr Null) s = (inr Inventory.no_updates, s, [])
  /\ Inventory.run w (inr (Arr [])) s = (inr Inventory.no_updates, s, [])
  /\ (forall elements,
        elements <> [] ->
        forallb (fun u => negb (nullish u)) elements = true ->
        forallb (fun u => negb (changes_quantity u)) elements = true ->
        Inventory.run w (inr (Arr elements)) s
        = (inr (Inventory.Outcome true [] []), s, [])).
Proof.
  split; [|split; [|split]].
  - intros updates H. apply run_refused. eauto.
  - apply run_refused. exists Null. split; [reflexivity|left; reflexivity].
  - apply run_refused. exists (Arr []). split; [reflexivity|right].
    eexists. split; reflexivity.
  - intros elements Hne Hn Hc.
    rewrite (run_array w elements s Hne), (filter_valid_field elements Hn).
    replace (filter changes_quantity elements) with (@nil value); [reflexivity|].
    symmetry. clear Hne Hn. induction elements as [|u l IH]; [reflexivity|].
    cbn [forallb filter] in *. apply andb_true_iff in Hc as [Hu Hl].
    apply negb_true_iff in Hu. rewrite Hu. apply IH. exact Hl.
Qed.

(** X11. When the mutation fails nothing is logged: if the API call is
    rejected, or answers with user errors, the response has
    [success: false], no results, and as errors the failure message or the
    user errors, and the mutation is the only call made. *)
Theorem failed_mutation_logs_nothing {W : Type} (w : Inventory.World W) (s s1 : W)
    (elements : list value) (r : Error + option Inventory.Payload) :
  forallb (fun u => negb (nullish u)) elements = true ->
  kept (inr (Arr elements)) <> [] ->
  let q := Inventory.SetQuantities (map quantity (kept (inr (Arr elements)))) in
  Inventory.answer w q s = (r, s1) ->
  (forall e, r = inl e ->
     Inventory.run w (inr (Arr elements)) s
     = (inr (Inventory.Outcome false [] [Inventory.failure e]), s1,
        [(Inventory.issue q, Some e)]))
  /\ (forall payload, r = inr (Some payload) -> Inventory.userErrors payload <> [] ->
        Inventory.run w (inr (Arr elements)) s
        = (inr (Inventory.Outcome false [] (Inventory.userErrors payload)), s1,
           [(Inventory.issue q, None)])).
Proof.
  intros Hn Hk q A. cbn [kept] in *. subst q.
  rewrite (run_kept w elements s Hn Hk). cbv zeta. rewrite A. split.
  - intros e ->. reflexivity.
  - intros payload -> Hu.
    destruct (Inventory.userErrors payload) as [|x l]; [contradiction|reflexivity].
Qed.

Lemma failed_mutation_logs_nothing_witness :
  let s := shop_at (inr (Some {| Inventory.userErrors := [stale_quantity];
                                 Inventory.inventoryAdjustmentGroup := None |})) [] in
  let q := Inventory.SetQuantities (map quantity [update_shirt; update_hat]) in
  Inventory.save (inr (Arr [update_shirt; update_unchanged; update_hat])) s
  = (inr (Inventory.Outcome false [] [stale_quantity]), s, [(Inventory.issue q, None)]).
Proof.
  cbv zeta.
  set (payload := {| Inventory.userErrors := [stale_quantity];
                     Inventory.inventoryAdjustmentGroup := None |}).
  refine (proj2 (failed_mutation_logs_nothing Inventory.shop
                   (shop_at (inr (Some payload)) []) (shop_at (inr (Some payload)) [])
                   [update_shirt; update_unchanged; update_hat] (inr (Some payload))
                   eq_refl _ eq_refl) payload eq_refl _); discriminate.
Defined.

(** X12. An answer that carries neither user errors nor an adjustment
    group, such as a response without [data], is reported as a success:
    [success: true] with no results, after the one call, though nothing was
    logged and no change was confirmed. *)
Theorem empty_answer_reports_success {W : Type} (w : Inventory.World W) (s s1 : W)
    (elements : list value) (r : option Inventory.Payload) :
  forallb (fun u => negb (nullish u)) elements = true ->
  kept (inr (Arr elements)) <> [] ->
  let q := Inventory.SetQuantities (map quantity (kept (inr (Arr elements)))) in
  Inventory.answer w q s = (inr r, s1) ->
  r = None
  \/ r = Some {| Inventory.userErrors := []; Inventory.inventoryAdjustmentGroup := None |} ->
  Inventory.run w (inr (Arr elements)) s
  = (inr (Inventory.Outcome true [] []), s1, [(Inventory.issue q, None)]).
Proof.
  intros Hn Hk q A Hr. cbn [kept] in *. subst q.
  rewrite (run_kept w elements s Hn Hk). cbv zeta. rewrite A.
  destruct Hr as [->| ->]; reflexivity.
Qed.

Lemma empty_answer_reports_success_witness :
  let s := shop_at (inr None) [] in
  let q := Inventory.SetQuantities (map quantity [update_shirt]) in
  Inventory.save (inr (Arr [update_shirt])) s
  = (inr (Inventory.Outcome true [] []), s, [(Inventory.issue q, None)]).
Proof.
  cbv zeta.
  apply (empty_answer_reports_success Inventory.shop _ _ [update_shirt] None).
  - reflexivity.
  - discriminate.
  - reflexivity.
  - left. reflexivity.
Defined.

Section ShopRuns.
Import Inventory.

(** A request that reaches the loop, against the shop. *)
Lemma save_adjusted (elements : list value) (s : Shop) (group : Group) :
  forallb (fun u => negb (nullish u)) elements = true ->
  kept (inr (Arr elements)) <> [] ->
  reply s = inr (Some {| userErrors := []; inventoryAdjustmentGroup := Some group |}) ->
  save (inr (Arr elements)) s =
    let validUpdates := kept (inr (Arr elements)) in
    let q := SetQuantities (map quantity validUpdates) in
    let '(r2, s2) := log_updates shop validUpdates (answered q (changes_or_none group) s) in
    (inr (match r2 with
          | inl e => Outcome false (changes_or_none group) [failure e]
          | inr _ => Outcome true (changes_or_none group) []
          end),
     world s2, trace s2).
Proof.
  intros Hn Hk Hr. unfold save. cbn [kept] in *.
  rewrite (run_kept shop elements s Hn Hk). cbv zeta.
  cbn [answer shop shop_answer]. rewrite Hr. reflexivity.
Qed.

End ShopRuns.

(** X13. When the mutation is answered with an adjustment group and the
    log takes every row, the response is a success with the changes of the
    group as results, and the log has grown by one row for each update
    kept, in their order, stamped with the time of the request. *)
Theorem accepted_updates_are_logged (elements : list value) (s : Inventory.Shop)
    (group : Inventory.Group) (rows : list Inventory.InventoryLog) :
  forallb (fun u => negb (nullish u)) elements = true ->
  kept (inr (Arr elements)) <> [] ->
  Inventory.reply s
  = inr (Some {| Inventory.userErrors := [];
                 Inventory.inventoryAdjustmentGroup := Some group |}) ->
  Forall (fun f => f = None)
    (firstn (List.length (kept (inr (Arr elements)))) (Inventory.faults s)) ->
  map Some rows = map (logged (Inventory.now s)) (kept (inr (Arr elements))) ->
  fst (fst (Inventory.save (inr (Arr elements)) s))
  = inr (Inventory.Outcome true (changes_or_none group) [])
  /\ snd (fst (Inventory.save (inr (Arr elements)) s))
     = shop_after s rows
         (skipn (List.length (kept (inr (Arr elements)))) (Inventory.faults s))
  /\ List.length rows = List.length (kept (inr (Arr elements))).
Proof.
  intros Hn Hk Hr Hf Hrows.
  rewrite (save_adjusted elements s group Hn Hk Hr). cbv zeta.
  destruct (log_updates_accepted (kept (inr (Arr elements))) rows
              (answered (Inventory.SetQuantities (map quantity (kept (inr (Arr elements)))))
                 (changes_or_none group) s)
              (kept_not_nullish elements Hn) Hf Hrows) as (st' & -> & Wd & _).
  cbn [fst snd]. split; [reflexivity|]. split; [exact Wd|].
  apply (f_equal (@List.length _)) in Hrows. rewrite !length_map in Hrows. exact Hrows.
Qed.

Lemma accepted_updates_are_logged_witness :
  let s := shop_at adjusted [] in
  let elements := [update_shirt; update_unchanged; update_hat; update_untracked] in
  let rows :=
    [{| Inventory.productId := "p1"; Inventory.variantId := "v1"; Inventory.oldQty := 4;
        Inventory.newQty := 9; Inventory.updatedAt := 5 |};
     {| Inventory.productId := "p2"; Inventory.variantId := "v2"; Inventory.oldQty := 2;
        Inventory.newQty := 0; Inventory.updatedAt := 5 |}] in
  fst (fst (Inventory.save (inr (Arr elements)) s))
  = inr (Inventory.Outcome true two_changes [])
  /\ snd (fst (Inventory.save (inr (Arr elements)) s)) = shop_after s rows []
  /\ List.length rows = 2%nat.
Proof.
  cbv zeta.
  apply (accepted_updates_are_logged
           [update_shirt; update_unchanged; update_hat; update_untracked]
           (shop_at adjusted []) {| Inventory.changes := Some two_changes |}).
  - reflexivity.
  - discriminate.
  - reflexivity.
  - constructor.
  - reflexivity.
Defined.

(** X14. When the log rejects the row of an update, by a fault or because
    a field does not fit its column, the loop stops there: the response
    has [success: false] and the one failure message, it still carries the
    changes of the group as results, and the rows of the updates before
    stay in the log. *)
Theorem rejected_log_write_keeps_results (elements done rest : list value) (update : value)
    (s : Inventory.Shop) (group : Inventory.Group) (rows : list Inventory.InventoryLog)
    (e : Error) (fs : list (option Error)) :
  forallb (fun u => negb (nullish u)) elements = true ->
  kept (inr (Arr elements)) = (done ++ update :: rest)%list ->
  Inventory.reply s
  = inr (Some {| Inventory.userErrors := [];
                 Inventory.inventoryAdjustmentGroup := Some group |}) ->
  Forall (fun f => f = None) (firstn (List.length done) (Inventory.faults s)) ->
  map Some rows = map (logged (Inventory.now s)) done ->
  skipn (List.length done) (Inventory.faults s) = Some e :: fs
  \/ (logged (Inventory.now s) update = None /\ e = invalid_argument
      /\ hd None (skipn (List.length done) (Inventory.faults s)) = None
      /\ fs = tl (skipn (List.length done) (Inventory.faults s))) ->
  fst (fst (Inventory.save (inr (Arr elements)) s))
  = inr (Inventory.Outcome false (changes_or_none group) [Inventory.failure e])
  /\ snd (fst (Inventory.save (inr (Arr elements)) s)) = shop_after s rows fs.
Proof.
  intros Hn Hk Hr Hf Hrows Hrej.
  assert (Hne : kept (inr (Arr elements)) <> []) by (rewrite Hk; destruct done; discriminate).
  rewrite (save_adjusted elements s group Hn Hne Hr). cbv zeta. rewrite Hk.
  pose proof (kept_not_nullish elements Hn) as Hkn. cbn [kept] in Hk. rewrite Hk in Hkn.
  rewrite forallb_app in Hkn. apply andb_true_iff in Hkn as [Hd Hu].
  cbn [forallb] in Hu. apply andb_true_iff in Hu as [Hu _]. apply negb_true_iff in Hu.
  rewrite log_updates_app.
  destruct (log_updates_accepted done rows
              (answered (Inventory.SetQuantities (map quantity (done ++ update :: rest)))
                 (changes_or_none group) s) Hd Hf Hrows) as (st' & -> & Wd & R1 & R2).
  cbn [Inventory.world answered] in Wd.
  cbn [Inventory.log_updates]. unfold Inventory.bind.
  rewrite (log_update_shop update st' Hu). cbv zeta. rewrite Wd.
  cbn [Inventory.faults Inventory.now shop_after].
  destruct Hrej as [-> |(L & -> & Hh & ->)].
  - cbn [fst snd Inventory.world]. split; [reflexivity|].
    rewrite shop_after_after, app_nil_r. reflexivity.
  - rewrite L.
    destruct (skipn (List.length done) (Inventory.faults s)) as [|[e'|] rest'];
      cbn [hd] in Hh; try discriminate; cbn [fst snd Inventory.world tl];
      (split; [reflexivity|]); rewrite shop_after_after, app_nil_r; reflexivity.
Qed.

Lemma rejected_log_write_keeps_results_witness :
  let s := shop_at adjusted [None; Some api_down] in
  let elements := [update_shirt; update_unchanged; update_hat; update_untracked] in
  fst (fst (Inventory.save (inr (Arr elements)) s))
  = inr (Inventory.Outcome false two_changes [Inventory.failure api_down])
  /\ snd (fst (Inventory.save (inr (Arr elements)) s))
     = shop_after s
         [{| Inventory.productId := "p1"; Inventory.variantId := "v1";
             Inventory.oldQty := 4; Inventory.newQty := 9; Inventory.updatedAt := 5 |}] [].
Proof.
  cbv zeta.
  apply (rejected_log_write_keeps_results
           [update_shirt; update_unchanged; update_hat; update_untracked]
           [update_shirt] [] update_hat (shop_at adjusted [None; Some api_down])
           {| Inventory.changes := Some two_changes |}).
  - reflexivity.
  - reflexivity.
  - reflexivity.
  - repeat constructor.
  - reflexivity.
  - left. reflexivity.
Defined.

Section NotAnArray.
Import Inventory.
Context {W : Type} (w : World W).

(** Updates that are not an array: the route answers that there are none,
    or throws. *)
Lemma run_not_array (updates : value) (s : W) :
  (forall elements, updates <> Arr elements) ->
  run w (inr updates) s = (inr no_updates, s, [])
  \/ exists e, run w (inr updates) s = (inl e, s, [])
               /\ (truthy updates = true ->
                   (forall len, length_of updates = inr len ->
                                strict_equal len (Num pos_zero) = false) ->
                   e = not_a_function \/ length_of updates = inl e).
Proof.
  intros Ha. unfold run, action, bind, eval, ret.
  destruct (truthy updates); cbn [negb]; [|left; reflexivity].
  destruct (length_of updates) as [e|len] eqn:L.
  { right. exists e. split; [reflexivity|]. auto. }
  destruct (strict_equal len (Num pos_zero)); [left; reflexivity|].
  right. exists not_a_function.
  destruct updates; try (split; [reflexivity|auto]).
  exfalso. eapply Ha. reflexivity.
Qed.

End NotAnArray.

(** X15. Whatever the form holds, whatever the API answers and whatever
    the faults, a request only appends to the log: the rows there stay,
    and the rows added are those of the first [k] updates kept, in their
    order. *)
Theorem log_is_append_only (parsed : Error + value) (s : Inventory.Shop) :
  exists (k : nat) (rows : list Inventory.InventoryLog) (fs : list (option Error)),
    snd (fst (Inventory.save parsed s)) = shop_after s rows fs
    /\ map Some rows = map (logged (Inventory.now s)) (firstn k (kept parsed)).
Proof.
  assert (Same : forall out tr,
            Inventory.save parsed s = (out, s, tr) ->
            exists (k : nat) (rows : list Inventory.InventoryLog) (fs : list (option Error)),
              snd (fst (Inventory.save parsed s)) = shop_after s rows fs
              /\ map Some rows = map (logged (Inventory.now s)) (firstn k (kept parsed))).
  { intros out tr E. exists 0%nat, [], (Inventory.faults s). rewrite E. cbn [fst snd].
    rewrite shop_after_nil. split; reflexivity. }
  destruct parsed as [e|updates]; [eapply Same; reflexivity|].
  assert (Other : (forall elements, updates <> Arr elements) ->
            exists (k : nat) (rows : list Inventory.InventoryLog)
                   (fs : list (option Error)),
              snd (fst (Inventory.save (inr updates) s)) = shop_after s rows fs
              /\ map Some rows
                 = map (logged (Inventory.now s)) (firstn k (kept (inr updates)))).
  { intros Ha. destruct (run_not_array Inventory.shop updates s Ha) as [E|(e & E & _)];
      eapply Same; exact E. }
  destruct updates as [| |b|x|str|elements|properties];
    try (apply Other; discriminate).
  clear Other.
  destruct elements as [|u l]; [eapply Same; apply run_refused; exists (Arr []);
                                split; [reflexivity|right; eexists; split; reflexivity]|].
  set (elements := u :: l) in *.
  destruct (forallb (fun u => negb (nullish u)) elements) eqn:Hn.
  2:{ destruct (filter_valid_null elements Hn) as (e & E).
      eapply Same. unfold Inventory.save. rewrite run_array by discriminate.
      rewrite E. reflexivity. }
  destruct (kept (inr (Arr elements))) as [|v vs] eqn:Hk.
  { eapply Same. unfold Inventory.save. rewrite run_array by discriminate.
    rewrite (filter_valid_field elements Hn). cbn [kept] in Hk. rewrite Hk. reflexivity. }
  assert (Hne : kept (inr (Arr elements)) <> []) by (rewrite Hk; discriminate).
  unfold Inventory.save in *. rewrite (run_kept Inventory.shop elements s Hn Hne) in *.
  cbv zeta in *. cbn [Inventory.answer Inventory.shop Inventory.shop_answer] in *.
  destruct (Inventory.reply s) as [e|[payload|]];
    try (eapply Same; reflexivity).
  destruct (0 <? Z.of_nat (List.length (Inventory.userErrors payload)));
    [eapply Same; reflexivity|].
  destruct (Inventory.inventoryAdjustmentGroup payload) as [group|];
    [|eapply Same; reflexivity].
  clear Same. cbn [kept] in *.
  destruct (log_updates_shop (filter changes_quantity elements)
              (answered (Inventory.SetQuantities (map quantity (filter changes_quantity elements)))
                 (changes_or_none group) s)
              (kept_not_nullish elements Hn)) as (k & rows & fs & Wd & R).
  exists k, rows, fs.
  destruct (Inventory.log_updates _ _ _) as [r2 s2]. cbn [fst snd] in *.
  split; [exact Wd|]. rewrite <- Hk. exact R.
Qed.

(** X16. Updates the route cannot read make it throw, without a response
    and without a call: when [JSON.parse] throws; when the updates are
    not an array (and not [null], empty or of length [0]); and when the
    array holds a [null]. *)
Theorem malformed_updates_throw {W : Type} (w : Inventory.World W) (s : W) :
  (forall e, Inventory.run w (inl e) s = (inl e, s, []))
  /\ (forall updates,
        (forall elements, updates <> Arr elements) ->
        truthy updates = true ->
        (forall len, Inventory.length_of updates = inr len ->
                     strict_equal len (Num pos_zero) = false) ->
        Inventory.run w (inr updates) s = (inl Inventory.not_a_function, s, []))
  /\ (forall elements,
        forallb (fun u => negb (nullish u)) elements = false ->
        exists e, Inventory.run w (inr (Arr elements)) s = (inl e, s, [])).
Proof.
  split; [|split].
  - reflexivity.
  - intros updates Ha T L.
    unfold Inventory.run, Inventory.action, Inventory.bind, Inventory.eval, Inventory.ret.
    rewrite T. cbn [negb].
    destruct (Inventory.length_of updates) as [e|len] eqn:E.
    + destruct updates; cbn in E; try discriminate E; discriminate T.
    + rewrite (L len eq_refl).
      destruct updates; try reflexivity. exfalso. eapply Ha. reflexivity.
  - intros elements Hn. destruct (filter_valid_null elements Hn) as (e & E).
    exists e. rewrite run_array by (intros ->; discriminate Hn). rewrite E. reflexivity.
Qed.

Section Sent.
Import Inventory.

Lemma asks_change_quantity (update : value) :
  asks_change (quantity update) = changes_quantity update.
Proof.
  unfold asks_change, quantity, changes_quantity.
  destruct (truthy (field update "locationId")); reflexivity.
Qed.

Lemma kept_ask_change (elements : list value) :
  forallb asks_change (map quantity (filter changes_quantity elements)) = true.
Proof.
  rewrite forallb_forall. intros q Hin. apply in_map_iff in Hin as (u & <- & Hin).
  apply filter_In in Hin as [_ Hc]. rewrite asks_change_quantity. exact Hc.
Qed.

End Sent.

(** X17. The calls of a request: none, or the mutation first and then
    only creations of log rows.  The mutation carries one entry for each
    update kept, in their order, and every entry names an inventory item
    and asks for a quantity that differs from the quantity it is
    compared with. *)
Theorem quantities_sent_are_changes {W : Type} (w : Inventory.World W) (s : W)
    (parsed : Error + value) :
  let calls := snd (Inventory.run w parsed s) in
  let quantities := map quantity (kept parsed) in
  forallb asks_change quantities = true
  /\ List.length quantities = List.length (kept parsed)
  /\ (calls = []
      \/ exists r rest,
           calls = (Inventory.issue (Inventory.SetQuantities quantities), r) :: rest
           /\ forallb is_log_write rest = true
           /\ kept parsed <> []).
Proof.
  cbv zeta. split; [|split; [apply length_map|]].
  { destruct parsed as [e|[| | | | |elements|]]; try reflexivity. apply kept_ask_change. }
  destruct parsed as [e|updates]; [left; reflexivity|].
  assert (Other : (forall elements, updates <> Arr elements) ->
            snd (Inventory.run w (inr updates) s) = []).
  { intros Ha. destruct (run_not_array w updates s Ha) as [E|(e & E & _)];
      rewrite E; reflexivity. }
  destruct updates as [| |b|x|str|elements|properties];
    try (left; apply Other; discriminate).
  clear Other.
  destruct elements as [|u l].
  { left. rewrite run_refused; [reflexivity|]. exists (Arr []).
    split; [reflexivity|right; eexists; split; reflexivity]. }
  set (elements := u :: l) in *.
  destruct (forallb (fun u => negb (nullish u)) elements) eqn:Hn.
  2:{ destruct (filter_valid_null elements Hn) as (e & E).
      left. rewrite run_array by discriminate. rewrite E. reflexivity. }
  assert (D : kept (inr (Arr elements)) = [] \/ kept (inr (Arr elements)) <> [])
    by (destruct (kept (inr (Arr elements))); [left; reflexivity|right; discriminate]).
  destruct D as [Hk|Hk].
  { left. rewrite run_array by discriminate.
    rewrite (filter_valid_field elements Hn). cbn [kept] in Hk. rewrite Hk. reflexivity. }
  right. rewrite (run_kept w elements s Hn Hk). cbv zeta. cbn [kept] in *.
  set (q := Inventory.SetQuantities (map quantity (filter changes_quantity elements))).
  destruct (Inventory.answer w q s) as [[e|[payload|]] s1];
    try (exists (Some e), []; repeat split; assumption);
    try (exists None, []; repeat split; assumption).
  destruct (0 <? Z.of_nat (List.length (Inventory.userErrors payload)));
    [exists None, []; repeat split; assumption|].
  destruct (Inventory.inventoryAdjustmentGroup payload) as [group|];
    [|exists None, []; repeat split; assumption].
  destruct (log_updates_trace w (filter changes_quantity elements)
              (answered q (changes_or_none group) s1)) as (rest & T & L).
  destruct (Inventory.log_updates _ _ _) as [r2 s2]. cbn [fst snd] in *.
  exists None, rest. rewrite T. repeat split; assumption.
Qed.

(* ================================================================== *)
(** * The page of the inventory manager                                *)
(* ================================================================== *)

Section Editing.
Import Page.

Lemma assign_keys (o : Changes) (k : string) (v : number) :
  (In k (map fst o) -> map fst (assign o k v) = map fst o)
  /\ (~ In k (map fst o) -> map fst (assign o k v) = (map fst o ++ [k])%list).
Proof.
  induction o as [|[k' v'] o IH]; cbn [assign map fst In app].
  - split; [intros []|reflexivity].
  - destruct (String.eqb_spec k' k) as [->|N]; cbn [map fst].
    + split; [reflexivity|]. intros H. exfalso. apply H. left. reflexivity.
    + destruct IH as [I1 I2]. split; intros H.
      * destruct H as [H|H]; [contradiction|]. rewrite (I1 H). reflexivity.
      * rewrite I2; [reflexivity|]. intros Hin. apply H. right. exact Hin.
Qed.

Lemma assign_NoDup (o : Changes) (k : string) (v : number) :
  NoDup (map fst o) -> NoDup (map fst (assign o k v)).
Proof.
  intros N. destruct (in_dec string_dec k (map fst o)) as [Hin|Hn].
  - rewrite (proj1 (assign_keys o k v) Hin). exact N.
  - rewrite (proj2 (assign_keys o k v) Hn). apply NoDup_snoc; assumption.
Qed.

Lemma find_assign_same (o : Changes) (k : string) (v : number) :
  find (fun kv => (fst kv =? k)%string) (assign o k v) = Some (k, v).
Proof.
  induction o as [|[k' v'] o IH]; cbn [assign find fst].
  - rewrite String.eqb_refl. reflexivity.
  - destruct (String.eqb_spec k' k) as [->|N]; cbn [find fst].
    + rewrite String.eqb_refl. reflexivity.
    + destruct (String.eqb_spec k' k); [contradiction|exact IH].
Qed.

Lemma find_assign_other (o : Changes) (k k' : string) (v : number) :
  k' <> k ->
  find (fun kv => (fst kv =? k')%string) (assign o k v)
  = find (fun kv => (fst kv =? k')%string) o.
Proof.
  intros N. induction o as [|[k0 v0] o IH]; cbn [assign find fst].
  - destruct (String.eqb_spec k k'); [congruence|reflexivity].
  - destruct (String.eqb_spec k0 k) as [->|N0]; cbn [find fst].
    + destruct (String.eqb_spec k k'); [congruence|reflexivity].
    + destruct (String.eqb_spec k0 k'); [reflexivity|exact IH].
Qed.

Lemma assign_values (o : Changes) (k : string) (v : number) (P : number -> Prop) :
  Forall (fun kv => P (snd kv)) o -> P v -> Forall (fun kv => P (snd kv)) (assign o k v).
Proof.
  intros Ho Hv. induction o as [|[k' v'] o IH]; cbn [assign].
  - constructor; [exact Hv|constructor].
  - inversion Ho as [|? ? H1 H2]. destruct (k' =? k)%string.
    + constructor; [exact Hv|exact H2].
    + constructor; [exact H1|apply IH; exact H2].
Qed.

End Editing.

(** X18. An entry in a quantity field is recorded when it starts with a
    number that is not negative, and is ignored otherwise, an emptied
    field among them.  A recorded entry is what the page then reads for
    that variant; what it reads for any other variant is as before; each
    variant is recorded once, and every recorded quantity is a Number
    that is not NaN and not below zero. *)
Theorem quantity_change_is_recorded (inventoryChanges : Page.Changes)
    (variantId newValue : string) :
  NoDup (map fst inventoryChanges) ->
  Forall (fun kv => recordable (snd kv) = true) inventoryChanges ->
  let changes := Page.handleQuantityChange inventoryChanges variantId newValue in
  NoDup (map fst changes)
  /\ Forall (fun kv => recordable (snd kv) = true) changes
  /\ (forall other, other <> variantId ->
        Page.read changes other = Page.read inventoryChanges other)
  /\ (if recordable (parseInt newValue)
      then Page.read changes variantId = Num (parseInt newValue)
      else changes = inventoryChanges)
  /\ recordable (parseInt "") = false.
Proof.
  intros N V changes. unfold changes, Page.handleQuantityChange. cbv zeta.
  fold (recordable (parseInt newValue)).
  destruct (recordable (parseInt newValue)) eqn:R.
  - split; [apply assign_NoDup; exact N|].
    split; [apply (assign_values _ _ _ (fun x => recordable x = true)); assumption|].
    split; [|split; [|reflexivity]].
    + intros other Ho. unfold Page.read. rewrite find_assign_other by exact Ho. reflexivity.
    + unfold Page.read. rewrite find_assign_same. reflexivity.
  - repeat split; auto.
Qed.

Lemma quantity_change_is_recorded_witness :
  let changes :=
    Page.handleQuantityChange [("gid://shopify/ProductVariant/1", of_Z 9)]
      "gid://shopify/ProductVariant/2" "12 pieces" in
  NoDup (map fst changes)
  /\ Forall (fun kv => recordable (snd kv) = true) changes
  /\ (forall other, other <> "gid://shopify/ProductVariant/2" ->
        Page.read changes other
        = Page.read [("gid://shopify/ProductVariant/1", of_Z 9)] other)
  /\ (if recordable (parseInt "12 pieces")
      then Page.read changes "gid://shopify/ProductVariant/2" = Num (parseInt "12 pieces")
      else changes = [("gid://shopify/ProductVariant/1", of_Z 9)])
  /\ recordable (parseInt "") = false.
Proof.
  apply (quantity_change_is_recorded [("gid://shopify/ProductVariant/1", of_Z 9)]
           "gid://shopify/ProductVariant/2" "12 pieces").
  - repeat constructor; simpl; intuition discriminate.
  - repeat constructor.
Defined.

Section Saving.
Import Page.

Lemma updates_of_listed (products : list Product) (changes : Changes) :
  updates_of products changes
  = map (fun pv => update_of changes (fst pv) (snd pv))
      (filter (fun pv => changed changes (snd pv)) (listed products)).
Proof.
  unfold updates_of, listed. induction products as [|p l IH]; [reflexivity|].
  cbn [flat_map]. rewrite filter_app, map_app, <- IH. f_equal.
  induction (variants p) as [|v vs IHv]; [reflexivity|].
  cbn [flat_map map filter snd fst]. destruct (changed changes v); cbn [app map];
    rewrite IHv; reflexivity.
Qed.

Lemma handleSave_posts (products : list Product) (changes : Changes) :
  changes <> [] ->
  handleSave products changes
  = Submit (map (fun pv => update_of changes (fst pv) (snd pv))
              (filter (fun pv => changed changes (snd pv)) (listed products))).
Proof.
  intros Hne. unfold handleSave. destruct changes as [|kv rest]; [contradiction|].
  cbn [List.length].
  replace (Z.of_nat (S (List.length rest)) =? 0) with false
    by (symmetry; apply Z.eqb_neq; lia).
  rewrite updates_of_listed. reflexivity.
Qed.

(** What the page reads for a variant it posts. *)
Lemma changed_read (changes : Changes) (v : Variant) :
  changed changes v = true -> inherited (id v) = false ->
  exists n, read changes (id v) = Num n
            /\ In (id v, n) changes
            /\ SFeqb n (inventoryQuantity v) = false.
Proof.
  unfold changed, read. intros C I.
  destruct (find _ changes) as [[k n]|] eqn:F.
  - exists n. apply find_some in F as [Hin Hk]. cbn [fst] in Hk.
    apply String.eqb_eq in Hk. subst k. split; [reflexivity|]. split; [exact Hin|].
    apply andb_true_iff in C as [_ C]. apply negb_true_iff in C. exact C.
  - rewrite I in C. discriminate C.
Qed.

Lemma json_number_equal (x y : number) :
  finite x = true -> finite y = true ->
  strict_equal (json_number x) (json_number y) = SFeqb x y.
Proof. destruct x, y; try discriminate; reflexivity. Qed.

Lemma json_number_column (x : number) :
  finite x = true ->
  Inventory.integer_column (json_number x) = Inventory.integer_column (Num x).
Proof. destruct x; try discriminate; reflexivity. Qed.

(** An update the page posts, once through [JSON]. *)
Lemma posted_update (changes : Changes) (p : Product) (v : Variant) (t : Z) :
  changed changes v = true ->
  inherited (id v) = false ->
  finite (inventoryQuantity v) = true ->
  optional_id (inventoryItemId v) = true ->
  optional_id (locationId v) = true ->
  Forall (fun kv => finite (snd kv) = true) changes ->
  let u := update_of changes p v in
  nullish (json u) = false
  /\ changes_quantity (json u) = has_item u
  /\ changes_quantity u = has_item u
  /\ logged t (json u) = logged t u
  /\ field (json u) "inventoryItemId" = inventoryItemId v
  /\ field (json u) "locationId" = locationId v.
Proof.
  intros C I Fq Oi Ol Fc u.
  destruct (changed_read changes v C I) as (n & R & Hin & Ne).
  assert (Fn : finite n = true).
  { rewrite Forall_forall in Fc. exact (Fc _ Hin). }
  unfold u, update_of, changes_quantity, has_item, logged. rewrite R.
  destruct (inventoryItemId v) as [| | | |item| |]; try discriminate Oi;
    destruct (locationId v) as [| | | |loc| |]; try discriminate Ol;
    cbn [json field Js.get own_property String.eqb Ascii.eqb Bool.eqb nullish truthy
         andb negb strict_equal];
    rewrite ?json_number_equal, ?Ne by assumption;
    unfold Inventory.row_of; rewrite !json_number_column by assumption;
    cbn [negb]; rewrite ?andb_true_r;
    repeat split; reflexivity.
Qed.

End Saving.

(** X19. "Save Changes" with no quantity recorded shows a toast and posts
    nothing.  Otherwise it posts one update for each variant whose
    recorded quantity differs from its current one, in the order of the
    table; a variant that was not edited, or was edited back to its
    current quantity, is not among them. *)
Theorem saved_updates_are_the_changed_variants (products : list Page.Product)
    (inventoryChanges : Page.Changes) :
  (inventoryChanges = [] ->
     Page.handleSave products inventoryChanges = Page.Toast "No changes to save")
  /\ (inventoryChanges <> [] ->
      Page.handleSave products inventoryChanges
      = Page.Submit
          (map (fun pv => Page.update_of inventoryChanges (fst pv) (snd pv))
             (filter (fun pv => Page.changed inventoryChanges (snd pv)) (listed products))))
  /\ (forall variant,
        Page.read inventoryChanges (Page.id variant) = Undefined
        \/ Page.read inventoryChanges (Page.id variant)
           = Num (Page.inventoryQuantity variant)
           /\ isNaN (Page.inventoryQuantity variant) = false ->
        Page.changed inventoryChanges variant = false).
Proof.
  split; [|split].
  - intros ->. reflexivity.
  - apply handleSave_posts.
  - intros variant [H|[H N]]; unfold Page.changed; rewrite H; [reflexivity|].
    cbn [strict_equal negb andb].
    destruct (Page.inventoryQuantity variant) as [s|s| |s m e]; try discriminate N;
      cbn; try reflexivity.
    + destruct s; reflexivity.
    + destruct s; rewrite Z.compare_refl, Pos.compare_cont_refl; reflexivity.
Qed.

(** X20. What the page posts is what the route saves: with quantities
    that are finite, the updates the route keeps of the posted JSON are
    the posted updates of the variants that have an inventory item, in
    their order, and the row the log takes for each is the row of the
    quantities on the page. *)
Theorem posted_updates_reach_the_route (products : list Page.Product)
    (inventoryChanges : Page.Changes) (t : Z) :
  Forall (fun pv => finite (Page.inventoryQuantity (snd pv)) = true
                    /\ Page.inherited (Page.id (snd pv)) = false
                    /\ optional_id (Page.inventoryItemId (snd pv)) = true
                    /\ optional_id (Page.locationId (snd pv)) = true)
    (listed products) ->
  Forall (fun kv => finite (snd kv) = true) inventoryChanges ->
  inventoryChanges <> [] ->
  exists updates,
    Page.handleSave products inventoryChanges = Page.Submit updates
    /\ kept (inr (Page.json (Arr updates))) = map Page.json (filter has_item updates)
    /\ map (logged t) (kept (inr (Page.json (Arr updates))))
       = map (logged t) (filter has_item updates)
    /\ forallb (fun u => negb (nullish u)) (map Page.json updates) = true.
Proof.
  intros Hp Hc Hne.
  set (posted := filter (fun pv => Page.changed inventoryChanges (snd pv)) (listed products)).
  set (U := fun pv : Page.Product * Page.Variant =>
              Page.update_of inventoryChanges (fst pv) (snd pv)).
  assert (Each : forall pv, In pv posted ->
            nullish (Page.json (U pv)) = false
            /\ changes_quantity (Page.json (U pv)) = has_item (U pv)
            /\ logged t (Page.json (U pv)) = logged t (U pv)).
  { intros [p v] Hin. apply filter_In in Hin as [Hin C]. cbn [snd] in C.
    rewrite Forall_forall in Hp. destruct (Hp _ Hin) as (Fq & I & Oi & Ol). cbn [snd] in *.
    destruct (posted_update inventoryChanges p v t C I Fq Oi Ol Hc) as (A & B & _ & D & _).
    auto. }
  exists (map U posted). split; [apply handleSave_posts; exact Hne|].
  assert (K : kept (inr (Page.json (Arr (map U posted))))
              = map Page.json (filter has_item (map U posted))).
  { cbn [kept Page.json]. clearbody posted. induction posted as [|pv l IH]; [reflexivity|].
    cbn [map filter]. destruct (Each pv (or_introl eq_refl)) as (_ & -> & _).
    rewrite IH by (intros x Hx; apply Each; right; exact Hx).
    destruct (has_item (U pv)); reflexivity. }
  split; [exact K|]. split.
  - rewrite K, map_map. apply map_ext_in. intros u Hin.
    apply filter_In in Hin as [Hin _]. apply in_map_iff in Hin as (pv & <- & Hin).
    apply Each. exact Hin.
  - rewrite forallb_forall. intros u Hin. apply in_map_iff in Hin as (u0 & <- & Hin).
    apply in_map_iff in Hin as (pv & <- & Hin). apply negb_true_iff. apply Each. exact Hin.
Qed.

Lemma posted_updates_reach_the_route_witness :
  exists updates,
    Page.handleSave catalogue edits = Page.Submit updates
    /\ kept (inr (Page.json (Arr updates))) = map Page.json (filter has_item updates)
    /\ map (logged 5) (kept (inr (Page.json (Arr updates))))
       = map (logged 5) (filter has_item updates)
    /\ forallb (fun u => negb (nullish u)) (map Page.json updates) = true.
Proof.
  apply (posted_updates_reach_the_route catalogue edits 5).
  - repeat constructor.
  - repeat constructor.
  - discriminate.
Defined.

Section Paging.
Import Page.

Lemma get_with_search (searchValue : string) :
  get (with_search searchValue) "searchTerm"
  = (if non_empty searchValue then Some searchValue else None)
  /\ get (with_search searchValue) "cursor" = None
  /\ get (with_search searchValue) "before" = None.
Proof.
  unfold with_search. destruct (non_empty searchValue); repeat split; reflexivity.
Qed.

Lemma get_set_other (searchValue k v : string) :
  k <> "searchTerm" ->
  get (set (with_search searchValue) k v) k = Some v
  /\ get (set (with_search searchValue) k v) "searchTerm"
     = get (with_search searchValue) "searchTerm"
  /\ (forall k', k' <> k -> k' <> "searchTerm" ->
        get (set (with_search searchValue) k v) k' = None).
Proof.
  intros Hk.
  assert (E1 : ("searchTerm" =? k)%string = false) by (apply String.eqb_neq; congruence).
  assert (E2 : (k =? "searchTerm")%string = false) by (apply String.eqb_neq; congruence).
  assert (Shape : set (with_search searchValue) k v
                  = (with_search searchValue ++ [(k, v)])%list).
  { unfold with_search. destruct (non_empty searchValue); cbn [set app]; [|reflexivity].
    rewrite E1. reflexivity. }
  rewrite Shape. unfold get, with_search.
  destruct (non_empty searchValue); cbn [set app find fst];
    rewrite ?E1, ?E2, ?String.eqb_refl; (split; [reflexivity|]); (split; [reflexivity|]);
    intros k' H1 H2;
    assert (E3 : ("searchTerm" =? k')%string = false) by (apply String.eqb_neq; congruence);
    assert (E4 : (k =? k')%string = false) by (apply String.eqb_neq; congruence);
    rewrite ?E3, ?E4; reflexivity.
Qed.

Lemma search_term_read (searchValue : string) (params : URLSearchParams) :
  get params "searchTerm" = (if non_empty searchValue then Some searchValue else None) ->
  match get params "searchTerm" with Some s => s | None => "" end = searchValue.
Proof.
  intros ->. unfold non_empty. destruct (String.eqb_spec searchValue ""); [|reflexivity].
  symmetry. assumption.
Qed.

Lemma non_empty_true (s : string) : s <> "" -> non_empty s = true.
Proof. intros H. unfold non_empty. destruct (String.eqb_spec s ""); [contradiction|reflexivity]. Qed.

End Paging.

(** X21. The cursor stack follows the pages: "next" pushes the end cursor
    of the page shown, "previous" pops the last cursor, so "next" and then
    "previous" leaves the stack as it was; "next" on a page without an end
    cursor and "previous" on an empty stack leave the stack alone. *)
Theorem next_then_previous_restores_the_stack (view : Page.View) :
  (forall cursor search,
     Page.endCursor view = Some cursor -> cursor <> "" ->
     snd (Page.handleNextPage view) = (Page.cursorStack view ++ [cursor])%list
     /\ snd (Page.handlePreviousPage
               {| Page.searchValue := search; Page.endCursor := Some cursor;
                  Page.cursorStack := snd (Page.handleNextPage view) |})
        = Page.cursorStack view)
  /\ (Page.endCursor view = None \/ Page.endCursor view = Some "" ->
      Page.handleNextPage view
      = (Page.with_search (Page.searchValue view), Page.cursorStack view))
  /\ (Page.cursorStack view = [] ->
      Page.handlePreviousPage view = (Page.with_search (Page.searchValue view), []))
  /\ (List.length (snd (Page.handlePreviousPage view))
      = Nat.pred (List.length (Page.cursorStack view))).
Proof.
  split; [|split; [|split]].
  - intros cursor search E Hc. unfold Page.handleNextPage. rewrite E, (non_empty_true _ Hc).
    cbn [snd]. split; [reflexivity|]. unfold Page.handlePreviousPage.
    cbn [Page.cursorStack Page.searchValue]. rewrite length_app. cbn [List.length].
    replace (0 <? Z.of_nat (List.length (Page.cursorStack view) + 1)) with true
      by (symmetry; apply Z.ltb_lt; lia).
    rewrite removelast_last.
    destruct (0 <? Z.of_nat (List.length (Page.cursorStack view))); reflexivity.
  - intros [E|E]; unfold Page.handleNextPage; rewrite E; reflexivity.
  - intros E. unfold Page.handlePreviousPage. rewrite E. reflexivity.
  - unfold Page.handlePreviousPage.
    destruct (Page.cursorStack view) as [|c l] eqn:E using rev_ind; [reflexivity|].
    rewrite length_app. cbn [List.length].
    replace (0 <? Z.of_nat (List.length l + 1)) with true
      by (symmetry; apply Z.ltb_lt; lia).
    rewrite removelast_last.
    destruct (0 <? Z.of_nat (List.length l)); cbn [snd]; lia.
Qed.

(** X22. What the loader asks the API for after each button.  After
    "next" on a page with an end cursor: the first 10 after that cursor.
    After "previous" with one cursor on the stack: the first 10, the
    first page.  After "previous" with more cursors on the stack: the last
    10 before the cursor under the top of the stack, and never anything
    "after".  The query is the search of the field in each case. *)
Theorem page_requests_as_the_loader_reads_them (view : Page.View) :
  let asked (handler : Page.View -> Page.URLSearchParams * list string) :=
    Page.variables_of (fst (handler view)) in
  let query := Page.search_query (Page.searchValue view) in
  (forall cursor,
     Page.endCursor view = Some cursor -> cursor <> "" ->
     asked Page.handleNextPage
     = {| Page.first := Some 10; Page.last := None; Page.after := Some cursor;
          Page.before := None; Page.query := query |})
  /\ (forall top,
        Page.cursorStack view = [top] ->
        asked Page.handlePreviousPage
        = {| Page.first := Some 10; Page.last := None; Page.after := None;
             Page.before := None; Page.query := query |})
  /\ (forall below under top,
        Page.cursorStack view = (below ++ [under; top])%list -> under <> "" ->
        asked Page.handlePreviousPage
        = {| Page.first := None; Page.last := Some 10; Page.after := None;
             Page.before := Some under; Page.query := query |}).
Proof.
  cbv zeta. pose proof (get_with_search (Page.searchValue view)) as (G1 & G2 & G3).
  split; [|split].
  - intros cursor E Hc. unfold Page.handleNextPage. rewrite E, (non_empty_true _ Hc).
    cbn [fst]. unfold Page.variables_of.
    destruct (get_set_other (Page.searchValue view) "cursor" cursor ltac:(discriminate))
      as (S1 & S2 & S3).
    rewrite S1, (S3 "before") by discriminate. cbn [Page.or_null].
    rewrite (non_empty_true _ Hc).
    rewrite (search_term_read (Page.searchValue view)) by (rewrite S2; exact G1).
    reflexivity.
  - intros top E. unfold Page.handlePreviousPage. rewrite E. cbn [fst List.length removelast].
    cbn. fold (Page.with_search (Page.searchValue view)). unfold Page.variables_of.
    rewrite G2, G3. cbn [Page.or_null].
    rewrite (search_term_read (Page.searchValue view)) by exact G1. reflexivity.
  - intros below under top E Hu. unfold Page.handlePreviousPage. rewrite E.
    replace (below ++ [under; top])%list with ((below ++ [under]) ++ [top])%list
      by (rewrite <- app_assoc; reflexivity).
    rewrite removelast_last, !length_app. cbn [List.length].
    replace (0 <? Z.of_nat (List.length below + 1 + 1)) with true
      by (symmetry; apply Z.ltb_lt; lia).
    replace (0 <? Z.of_nat (List.length below + 1)) with true
      by (symmetry; apply Z.ltb_lt; lia).
    rewrite last_last. cbn [fst]. unfold Page.variables_of.
    destruct (get_set_other (Page.searchValue view) "before" under ltac:(discriminate))
      as (S1 & S2 & S3).
    rewrite S1, (S3 "cursor") by discriminate. cbn [Page.or_null].
    rewrite (non_empty_true _ Hu).
    rewrite (search_term_read (Page.searchValue view)) by (rewrite S2; exact G1).
    reflexivity.
Qed.

(* ================================================================== *)
(** * The debounce helper                                              *)
(* ================================================================== *)

Section Debouncing.
Import Debounce.
Context {A : Type} (wait : Z).

Lemma filter_own_timer (p : Timer A) :
  filter (fun q => negb (timer q =? timer p)) [p] = [].
Proof. cbn [filter]. rewrite Z.eqb_refl. reflexivity. Qed.

Lemma debounced_waiting (a : A) (s : State A) :
  idle_or_waiting s ->
  exists p,
    pending (debounced wait a s) = [p] /\ args p = a /\ due p = clock s + wait
    /\ timer p = next s
    /\ timeout (debounced wait a s) = Some (timer p)
    /\ next (debounced wait a s) = next s + 1
    /\ clock (debounced wait a s) = clock s
    /\ invoked (debounced wait a s) = invoked s.
Proof.
  intros [[T P]|(p & T & P & _)]; unfold debounced; rewrite T;
    cbn [setTimeout clearTimeout pending next clock invoked timeout]; rewrite P.
  - eexists. cbn [app]. repeat split.
  - rewrite filter_own_timer. eexists. cbn [app]. repeat split.
Qed.

Lemma later_idle (p : Timer A) (s : State A) :
  idle_or_waiting s -> In p (pending s) ->
  pending (later p s) = [] /\ timeout (later p s) = None
  /\ invoked (later p s) = (invoked s ++ [args p])%list
  /\ next (later p s) = next s /\ clock (later p s) = clock s.
Proof.
  intros [[T P]|(q & T & P & _)] Hin; rewrite P in Hin; [destruct Hin|].
  destruct Hin as [->|[]]. unfold later. cbn [pending timeout invoked next clock].
  rewrite P, filter_own_timer. repeat split.
Qed.

Lemma step_keeps (s s' : State A) : step wait s s' -> idle_or_waiting s -> idle_or_waiting s'.
Proof.
  intros [a s0|d s0 Hd|p s0 Hin Hdue] I.
  - destruct (debounced_waiting a s0 I) as (p & P & _ & _ & Id & T & N & _).
    right. exists p. repeat split; try assumption. lia.
  - exact I.
  - destruct (later_idle p s0 I Hin) as (P & T & _). left. auto.
Qed.

Lemma reachable_keeps (t : Z) (s : State A) : reachable wait t s -> idle_or_waiting s.
Proof.
  induction 1 as [|s s' _ IH St].
  - left. split; reflexivity.
  - exact (step_keeps s s' St IH).
Qed.

(** The clock reaches [t], at least [c], the time of the latest call. *)
Lemma elapse_waiting (c t : Z) (s : State A) :
  waiting_since wait c s -> c <= t ->
  clock (elapse t s) = t
  /\ match pending s with
     | [p] =>
         if wait <=? t - c
         then timeout (elapse t s) = None /\ pending (elapse t s) = []
              /\ invoked (elapse t s) = (invoked s ++ [args p])%list
         else timeout (elapse t s) = timeout s /\ pending (elapse t s) = [p]
              /\ invoked (elapse t s) = invoked s
     | _ => timeout (elapse t s) = None /\ pending (elapse t s) = []
            /\ invoked (elapse t s) = invoked s
     end.
Proof.
  intros [C [[T P]|(p & T & P & D)]] Hc; unfold elapse; rewrite P; cbn [filter].
  - cbn [fold_left clock timeout pending invoked]. rewrite T. split; [lia|auto].
  - replace (due p <=? t) with (wait <=? t - c)
      by (rewrite D; destruct (Z.leb_spec wait (t - c)), (Z.leb_spec (c + wait) t);
          try reflexivity; lia).
    destruct (wait <=? t - c); cbn [fold_left later clock timeout pending invoked].
    + rewrite filter_own_timer. split; [lia|auto].
    + split; [lia|auto].
Qed.

(** Calls played from a state that waits since [c]. *)
Lemma play_waiting (calls : list (Z * A)) (finish c : Z) (s : State A) :
  waiting_since wait c s -> idle_or_waiting s -> in_order c calls finish ->
  invoked (play wait calls finish s)
  = (invoked s
     ++ match pending s with
        | [p] => settled wait ((c, args p) :: calls) finish
        | _ => settled wait calls finish
        end)%list.
Proof.
  revert c s. induction calls as [|[t a] rest IH]; intros c s W I O; cbn [play in_order] in *.
  - destruct (elapse_waiting c finish s W O) as [_ E]. pose proof W as [_ [[T P]|(p & T & P & D)]].
    + rewrite P in *. destruct E as (_ & _ & ->). cbn [settled]. rewrite app_nil_r. reflexivity.
    + rewrite P in *. cbn [settled].
      destruct (wait <=? finish - c); destruct E as (_ & _ & ->);
        [reflexivity|rewrite app_nil_r; reflexivity].
  - destruct O as [Hc O].
    destruct (elapse_waiting c t s W Hc) as [C1 E].
    set (s1 := elapse t s) in *.
    assert (I1 : idle_or_waiting s1).
    { pose proof W as [_ [[T P]|(p & T & P & D)]]; rewrite P in E.
      - left. destruct E as (T1 & P1 & _). auto.
      - destruct (wait <=? t - c); destruct E as (T1 & P1 & _).
        + left. auto.
        + right. exists p. rewrite T1, P1, T. repeat split.
          destruct I as [[T0 _]|(q & _ & Pq & Lt)]; [congruence|].
          assert (q = p) by congruence. subst q.
          replace (next s1) with (next s); [exact Lt|].
          unfold s1, elapse. rewrite P. cbn [filter].
          destruct (due p <=? t); reflexivity. }
    destruct (debounced_waiting a s1 I1) as (p' & P' & Ar & Du & _ & T' & N' & C' & V').
    assert (W2 : waiting_since wait t (debounced wait a s1)).
    { split; [congruence|]. right. exists p'. repeat split; try assumption. congruence. }
    assert (I2 : idle_or_waiting (debounced wait a s1)).
    { right. exists p'. repeat split; try assumption.
      destruct (debounced_waiting a s1 I1) as (p2 & P2 & _ & _ & Id & _ & N2 & _).
      assert (p2 = p') by congruence. subst p2. lia. }
    rewrite (IH t _ W2 I2 O), P', V', Ar.
    pose proof W as [_ [[T P]|(p & T & P & D)]]; rewrite P in *.
    + destruct E as (_ & _ & ->). reflexivity.
    + cbn [settled]. fold (settled wait rest finish).
      change (settled wait ((t, a) :: rest) finish)
        with (let following := match rest with [] => finish | (t', _) :: _ => t' end in
              if wait <=? following - t then a :: settled wait rest finish
              else settled wait rest finish).
      cbv zeta.
      destruct (wait <=? t - c); destruct E as (_ & _ & ->);
        [rewrite <- app_assoc; reflexivity|reflexivity].
Qed.

End Debouncing.

(** X23. However the calls, the passing of time and the firing of
    timeouts follow one another, at most one timeout is pending and
    [timeout] holds its id, or none is and [timeout] is [null].  A call
    leaves exactly one timeout pending, due [wait] from now and carrying
    the arguments of that call, and does not call [func] itself; when a
    timeout fires [func] receives those arguments and nothing is left
    pending. *)
Theorem debounce_keeps_one_timer {A : Type} (wait t : Z) (s : Debounce.State A) :
  Debounce.reachable wait t s ->
  idle_or_waiting s
  /\ (forall a, exists p,
        Debounce.pending (Debounce.debounced wait a s) = [p]
        /\ Debounce.args p = a
        /\ Debounce.due p = Debounce.clock s + wait
        /\ Debounce.timeout (Debounce.debounced wait a s) = Some (Debounce.timer p)
        /\ Debounce.invoked (Debounce.debounced wait a s) = Debounce.invoked s)
  /\ (forall p, In p (Debounce.pending s) ->
        Debounce.pending (Debounce.later p s) = []
        /\ Debounce.timeout (Debounce.later p s) = None
        /\ Debounce.invoked (Debounce.later p s)
           = (Debounce.invoked s ++ [Debounce.args p])%list).
Proof.
  intros R. pose proof (reachable_keeps wait t s R) as I. split; [exact I|]. split.
  - intros a. destruct (debounced_waiting wait a s I) as (p & P & Ar & D & _ & T & _ & _ & V).
    exists p. auto.
  - intros p Hin. destruct (later_idle p s I Hin) as (P & T & V & _). auto.
Qed.

Lemma debounce_keeps_one_timer_witness :
  let s := Debounce.debounced 500 "sh" (Debounce.advance 120 (Debounce.debounced 500 "s"
             (Debounce.start 0))) in
  idle_or_waiting s
  /\ (forall a, exists p,
        Debounce.pending (Debounce.debounced 500 a s) = [p]
        /\ Debounce.args p = a
        /\ Debounce.due p = Debounce.clock s + 500
        /\ Debounce.timeout (Debounce.debounced 500 a s) = Some (Debounce.timer p)
        /\ Debounce.invoked (Debounce.debounced 500 a s) = Debounce.invoked s)
  /\ (forall p, In p (Debounce.pending s) ->
        Debounce.pending (Debounce.later p s) = []
        /\ Debounce.timeout (Debounce.later p s) = None
        /\ Debounce.invoked (Debounce.later p s)
           = (Debounce.invoked s ++ [Debounce.args p])%list).
Proof.
  apply (debounce_keeps_one_timer 500 0).
  eapply Debounce.reach_step; [|apply (Debounce.step_call 500 "sh")].
  eapply Debounce.reach_step; [|apply (Debounce.step_time 500 120); lia].
  eapply Debounce.reach_step; [|apply (Debounce.step_call 500 "s")].
  apply Debounce.reach_start.
Defined.

(** X24. With timeouts that fire as soon as they are due, [func] receives
    exactly the calls that are followed by [wait] without another call,
    each once, in their order and with its own arguments: of a burst of
    calls less than [wait] apart only the last one reaches [func]. *)
Theorem debounce_invokes_settled_calls {A : Type} (wait from finish : Z)
    (calls : list (Z * A)) :
  Debounce.in_order from calls finish ->
  Debounce.invoked (Debounce.play wait calls finish (Debounce.start from))
  = Debounce.settled wait calls finish.
Proof.
  intros O.
  rewrite (play_waiting wait calls finish from (Debounce.start from)).
  - reflexivity.
  - split; [reflexivity|left; split; reflexivity].
  - left. split; reflexivity.
  - exact O.
Qed.

Lemma debounce_invokes_settled_calls_witness :
  Debounce.invoked (Debounce.play 500 typing 2000 (Debounce.start 0))
  = Debounce.settled 500 typing 2000.
Proof.
  apply (debounce_invokes_settled_calls 500 0 2000 typing).
  simpl. lia.
Defined.


(* ================================================================== *)
(** * Listing customers                                                *)
(* ================================================================== *)

Section ListingFacts.
Import Listing.
Variable toISOString : Z -> string.

Lemma find_put (l : list (string * Points)) (k k' : string) (p : Points) :
  find (fun kp => (fst kp =? k)%string) (put l k' p)
  = if (k' =? k)%string then Some (k', p) else find (fun kp => (fst kp =? k)%string) l.
Proof.
  induction l as [|[k0 p0] l IH]; cbn [put find fst].
  - reflexivity.
  - destruct (String.eqb_spec k0 k') as [->|N]; cbn [find fst].
    + destruct (k' =? k)%string; reflexivity.
    + rewrite IH. destruct (String.eqb_spec k0 k) as [->|N0]; [|reflexivity].
      destruct (String.eqb_spec k' k); [congruence|reflexivity].
Qed.

Lemma find_last {T : Type} (f : T -> bool) (l : list T) (x : T) :
  find f (l ++ [x])
  = match find f l with
    | Some y => Some y
    | None => if f x then Some x else None
    end.
Proof.
  induction l as [|y l IH]; cbn [app find]; [reflexivity|].
  destruct (f y); [reflexivity|exact IH].
Qed.

(** The map after the rows: no prototype is set when no row is keyed
    ["__proto__"], and each key holds the last row of that customer. *)
Lemma points_map_from (rows : list LoyaltyPoints) (acc : PointsMap) (k : string) :
  let m := fold_left
             (fun acc curr => assign acc (customerId curr) (points_of toISOString curr))
             rows acc in
  Forall (fun r => customerId r <> "__proto__") rows ->
  prototype m = prototype acc
  /\ find (fun kp => (fst kp =? k)%string) (own m)
     = match find (is_customer k) (rev rows) with
       | Some r => Some (customerId r, points_of toISOString r)
       | None => find (fun kp => (fst kp =? k)%string) (own acc)
       end.
Proof.
  cbv zeta. revert acc. induction rows as [|r l IH]; intros acc Hp; [split; reflexivity|].
  inversion Hp as [|? ? Hr Hl]. cbn [fold_left rev].
  destruct (IH (assign acc (customerId r) (points_of toISOString r)) Hl) as [P F].
  rewrite P, F. unfold assign.
  destruct (String.eqb_spec (customerId r) "__proto__") as [E|_]; [contradiction|].
  cbn [prototype own]. split; [reflexivity|].
  rewrite find_last. destruct (find (is_customer k) (rev l)); [reflexivity|].
  rewrite find_put. unfold is_customer. destruct (customerId r =? k)%string; reflexivity.
Qed.

Lemma lookup_points_map (rows : list LoyaltyPoints) (k : string) :
  Forall (fun r => customerId r <> "__proto__") rows ->
  lookup (points_map toISOString rows) k
  = match find (is_customer k) (rev rows) with
    | Some r => Entry (points_of toISOString r)
    | None => if ((k =? "__proto__")%string || method k)%bool then Inherited else Missing
    end.
Proof.
  intros Hp. unfold lookup, points_map.
  destruct (points_map_from rows {| own := []; prototype := None |} k Hp) as [P F].
  cbv zeta in P, F. unfold points_of in P, F. rewrite P, F. cbn [prototype own find].
  destruct (find (is_customer k) (rev rows)); reflexivity.
Qed.

Lemma cut_prefix (rest : string) : cut_first customer_prefix (customer_prefix ++ rest) = rest.
Proof. destruct rest; reflexivity. Qed.

Lemma shown_points (z : Z) :
  - 2 ^ 31 <= z < 2 ^ 31 ->
  (if truthy (Num (of_Z z)) then of_Z z else pos_zero) = of_Z z.
Proof.
  intros Hz. destruct (of_Z_finite_or_zero z ltac:(lia)) as [->|(s & m & e & ->)]; reflexivity.
Qed.

Lemma filter_of_map {T U : Type} (f : U -> bool) (g : T -> U) (l : list T) :
  filter f (map g l) = map g (filter (fun x => f (g x)) l).
Proof.
  induction l as [|x l IH]; cbn [map filter]; [reflexivity|].
  destruct (f (g x)); cbn [map]; rewrite IH; reflexivity.
Qed.

Lemma listed_in_ledger (rows : list LoyaltyPoints) (k : string) :
  member_truthy
    match find (is_customer k) (rev rows) with
    | Some r => Entry (points_of toISOString r)
    | None => Missing
    end
  = in_ledger rows k.
Proof.
  unfold in_ledger. destruct (find (is_customer k) (rev rows)) as [r|] eqn:F; cbn [member_truthy].
  - apply find_some in F as [Hr Hc]. apply in_rev in Hr.
    symmetry. apply existsb_exists. exists r. split; assumption.
  - destruct (existsb (is_customer k) rows) eqn:E; [|reflexivity].
    apply existsb_exists in E as (r & Hr & Hc). apply in_rev in Hr.
    rewrite (find_none _ _ F r Hr) in Hc. discriminate Hc.
Qed.

End ListingFacts.

(** X25. The list of the loyalty manager.  With an empty ledger the
    loader returns no customers without asking the API.  Otherwise it
    asks once, throws when the call is rejected or the answer has no
    data, and lists, in the API's order, exactly the customers of the
    answer whose id is the [customerId] of a ledger row, each with the
    balance and the time of such a row. *)
Theorem listed_customers_are_ledger_customers (toISOString : Z -> string)
    (cursor term : option string) (rows : list LoyaltyPoints) (now : Z) :
  (rows = [] ->
     exists data, Listing.loader toISOString cursor term rows now = Listing.Return data
                  /\ Listing.customers data = [])
  /\ (rows <> [] ->
      Forall (fun r => customerId r <> "__proto__") rows ->
      Forall (fun r => - 2 ^ 31 <= points r < 2 ^ 31) rows ->
      (forall t, toISOString t <> "") ->
      exists variables resume,
        Listing.loader toISOString cursor term rows now = Listing.Ask variables resume
        /\ (forall e, resume (inl e) = inl e)
        /\ resume (inr None) = inl Listing.no_data
        /\ forall found,
             forallb (fun node => plain_id (Listing.id node)) (Listing.nodes found) = true ->
             exists data,
               resume (inr (Some found)) = inr data
               /\ Listing.page data = Listing.pageInfo found
               /\ map Listing.customer (Listing.customers data)
                  = filter (in_ledger rows) (map Listing.id (Listing.nodes found))
               /\ (forall c, In c (Listing.customers data) ->
                     exists r node,
                       In r rows /\ In node (Listing.nodes found)
                       /\ customerId r = Listing.customer c
                       /\ Listing.id node = Listing.customer c
                       /\ Listing.customerEmail c = Listing.email node
                       /\ Listing.customerPoints c = of_Z (points r)
                       /\ Listing.customerUpdatedAt c = toISOString (updatedAt r))).
Proof.
  split.
  - intros ->. eexists. split; reflexivity.
  - intros Hne Hp Ht Hiso. unfold Listing.loader.
    destruct rows as [|r0 rows0]; [contradiction|].
    set (rows := r0 :: rows0) in *.
    replace (Z.of_nat (List.length rows) =? 0) with false
      by (symmetry; apply Z.eqb_neq; unfold rows; cbn [List.length]; lia).
    do 2 eexists. split; [reflexivity|]. split; [reflexivity|]. split; [reflexivity|].
    intros found Hplain. eexists. split; [reflexivity|].
    cbn [Listing.page Listing.customers]. split; [reflexivity|].
    rewrite forallb_forall in Hplain.
    assert (Look : forall node, In node (Listing.nodes found) ->
              Listing.lookup (Listing.points_map toISOString rows) (Listing.id node)
              = match find (is_customer (Listing.id node)) (rev rows) with
                | Some r => Listing.Entry (points_of toISOString r)
                | None => Listing.Missing
                end).
    { intros node Hn. rewrite (lookup_points_map toISOString rows _ Hp).
      pose proof (Hplain node Hn) as Hk. unfold plain_id in Hk.
      apply andb_true_iff in Hk as [Hm Hk]. apply negb_true_iff in Hm, Hk.
      rewrite Hm, Hk. reflexivity. }
    split.
    + rewrite map_map. cbn [Listing.customer Listing.with_points].
      rewrite filter_of_map. f_equal. apply filter_ext_in. intros node Hn.
      rewrite (Look node Hn). apply listed_in_ledger.
    + intros c Hin. apply in_map_iff in Hin as (node & <- & Hn).
      apply filter_In in Hn as [Hn T]. unfold Listing.with_points.
      cbn [Listing.customer Listing.customerEmail Listing.customerPoints
           Listing.customerUpdatedAt].
      rewrite (Look node Hn) in *.
      destruct (find (is_customer (Listing.id node)) (rev rows)) as [r|] eqn:F;
        [|discriminate T].
      apply find_some in F as [Hr Hc]. apply in_rev in Hr. apply String.eqb_eq in Hc.
      exists r, node. split; [exact Hr|]. split; [exact Hn|]. split; [exact Hc|].
      split; [reflexivity|]. split; [reflexivity|].
      cbn [Listing.points_or_zero Listing.stamp_or_now points_of Listing.points
           Listing.updatedAt].
      rewrite Forall_forall in Ht. rewrite (shown_points _ (Ht r Hr)).
      split; [reflexivity|].
      replace (truthy (Str (toISOString (updatedAt r)))) with true; [reflexivity|].
      symmetry. cbn [truthy]. destruct (String.eqb_spec (toISOString (updatedAt r)) "") as [E|_];
        [destruct (Hiso _ E)|reflexivity].
Qed.

Lemma listed_customers_are_ledger_customers_witness :
  exists variables resume data,
    Listing.loader sample_stamp None None gid_ledger 50 = Listing.Ask variables resume
    /\ resume (inr (Some found_customers)) = inr data
    /\ map Listing.customer (Listing.customers data) = ["gid://shopify/Customer/1"].
Proof.
  destruct (proj2 (listed_customers_are_ledger_customers sample_stamp None None gid_ledger 50))
    as (variables & resume & E & _ & _ & L).
  - discriminate.
  - repeat constructor; discriminate.
  - repeat constructor; cbn; lia.
  - intros t. discriminate.
  - destruct (L found_customers eq_refl) as (data & R & _ & C & _).
    exists variables, resume, data. split; [exact E|]. split; [exact R|]. exact C.
Defined.

(** X26. What the list asks the API for: the first 50 customers after
    the cursor of the request, matching the search term if there is one,
    and otherwise the ledger's customers by id: for [customerId]s of the
    form gid://shopify/Customer/n the query is "id:n1 OR id:n2 ...", in
    the order of the rows. *)
Theorem customer_query_names_the_ledger (toISOString : Z -> string)
    (cursor term : option string) (rows : list LoyaltyPoints) (now : Z)
    (numbers : list string) :
  rows <> [] ->
  map customerId rows = map (fun n => customer_prefix ++ n) numbers ->
  exists resume,
    Listing.loader toISOString cursor term rows now
    = Listing.Ask
        {| Listing.first := 50;
           Listing.after := match cursor with
                            | Some "" | None => None
                            | Some c => Some c
                            end;
           Listing.query := match term with
                            | Some "" | None =>
                                Listing.join " OR " (map (fun n => "id:" ++ n) numbers)
                            | Some s => s
                            end |}
        resume.
Proof.
  intros Hne Hids. unfold Listing.loader.
  destruct rows as [|r0 rows0]; [contradiction|].
  set (rows := r0 :: rows0) in *.
  replace (Z.of_nat (List.length rows) =? 0) with false
    by (symmetry; apply Z.eqb_neq; unfold rows; cbn [List.length]; lia).
  eexists. apply f_equal2; [|reflexivity]. f_equal.
  - destruct cursor as [[|c s]|]; reflexivity.
  - assert (Q : Listing.customer_filter (map customerId rows)
                = Listing.join " OR " (map (fun n => "id:" ++ n) numbers)).
    { unfold Listing.customer_filter. rewrite Hids, map_map. f_equal.
      apply map_ext. intros n. f_equal. apply cut_prefix. }
    destruct term as [[|c s]|]; [exact Q| |exact Q].
    unfold truthy. destruct (String.eqb_spec (String c s) ""); [discriminate|reflexivity].
Qed.

Lemma customer_query_names_the_ledger_witness :
  exists resume,
    Listing.loader sample_stamp (Some "") None gid_ledger 50
    = Listing.Ask
        {| Listing.first := 50; Listing.after := None;
           Listing.query := Listing.join " OR " (map (fun n => "id:" ++ n) ["1"; "7"]) |}
        resume.
Proof.
  apply (customer_query_names_the_ledger sample_stamp (Some "") None gid_ledger 50 ["1"; "7"]).
  - discriminate.
  - reflexivity.
Defined.
